(** * BINOKUB 9: the game session of [src/App.tsx]

    A shallow embedding of the React component's state and of its event
    handlers ([handleDragStart], [handleDrop], [handleTileReturn],
    [handleHint], [handleFinalCodeSubmit], [newGame]) and of the effect that
    starts the final challenge, followed by the properties of the placement
    rules and of the session state machine.

    Conventions.
    - Grid indices and counters are [nat]; tile values and bases are [Z]
      (the source subtracts 9 from values).
    - A handler returns [None] when the source leaves the typed state space:
      a [TypeError] on reading a property of [undefined] (an index outside
      the board), or an [undefined] read out of the [number[][]] solution
      that would be stored where the types promise a number.
    - Otherwise a handler returns the next state together with the list of
      sounds passed to [playSound], in order.
    - [Math.random] is an explicit argument of the code that calls it. *)

From Stdlib Require Import ZArith String Ascii Lia.
From Stdlib Require Import Decimal DecimalString DecimalNat.
From stdpp Require Import base numbers option list strings gmap.

Local Open Scope nat_scope.

(** ** Data model *)

(** Modelled from the spec: [src/constants] is not among the sources; the
    spec fixes a 9×9 grid. *)
Definition GRID_SIZE : nat := 9.

(** Modelled from the spec: [calculateBase] lives in [src/lib/game], which is
    not among the sources; the spec gives
    [base(v) = floor((v - 1) / 9) + 1]. *)
Definition calculateBase (v : Z) : Z := ((v - 1) `div` 9 + 1)%Z.

Record TileData : Type := mkTile { value : Z; base : Z }.

Inductive CellStatus : Type := StEmpty | StCorrect | StIncorrect.

Record BoardCell : Type :=
  mkCell { tile : option TileData; status : CellStatus; isHint : bool }.

Inductive GamePhase : Type := placing | final_challenge | won.

(** [SoundType] of [src/hooks/useSounds.ts]. *)
Inductive SoundType : Type :=
  SndCorrect | SndIncorrect | SndHint | SndWin | SndClick | SndReturn.

#[global] Instance TileData_eq_dec : EqDecision TileData.
Proof. solve_decision. Defined.
#[global] Instance CellStatus_eq_dec : EqDecision CellStatus.
Proof. solve_decision. Defined.
#[global] Instance BoardCell_eq_dec : EqDecision BoardCell.
Proof. solve_decision. Defined.
#[global] Instance GamePhase_eq_dec : EqDecision GamePhase.
Proof. solve_decision. Defined.
#[global] Instance SoundType_eq_dec : EqDecision SoundType.
Proof. solve_decision. Defined.

Abbreviation Board := (list (list BoardCell)).

(** The [useState] cells of [App] that the handlers read or write. *)
Record State : Type := mkState {
  solution : list (list Z);
  boardState : Board;
  paletteTiles : list TileData;
  draggedTile : option TileData;
  correctTilesCount : nat;
  hintsUsed : nat;
  gamePhase : GamePhase;
  blinkingCell : option (nat * nat);
  finalCodeAnswer : option Z;
  finalCodeInput : string;
  challengeShake : bool
}.

(** What a handler call yields: the next state and the sounds played. *)
Definition Result : Type := option (State * list SoundType).

(** ** Board access *)

(** [board[r][c]]; [None] where the source reads [undefined]. *)
Definition cellAt (b : Board) (r c : nat) : option BoardCell :=
  row ← b !! r; row !! c.

(** [solution[r][c]]. *)
Definition solutionAt (sol : list (list Z)) (r c : nat) : option Z :=
  row ← sol !! r; row !! c.

(** [newBoard[r][c] = x] on the copied matrix; only used at indices that
    were read before. *)
Definition setCell (b : Board) (r c : nat) (x : BoardCell) : Board :=
  alter (λ row, <[c := x]> row) r b.

Definition emptyCell : BoardCell :=
  {| tile := None; status := StEmpty; isHint := false |}.

Definition isCorrect (cell : BoardCell) : bool :=
  bool_decide (status cell = StCorrect).

Definition isOccupied (cell : BoardCell) : bool :=
  match tile cell with Some _ => true | None => false end.

(** [cell.tile?.value === v]. *)
Definition holdsValue (v : Z) (cell : BoardCell) : bool :=
  match tile cell with Some t => bool_decide (value t = v) | None => false end.

(** ** Handlers *)

Definition isUIInteractive (s : State) : bool :=
  bool_decide (gamePhase s = placing).

Definition initializeBoard : Board :=
  replicate GRID_SIZE (replicate GRID_SIZE emptyCell).

(** [newGame], given the result of [generateGameData(difficulty)]. *)
Definition newGame (solutionGrid : list (list Z)) (shuffledTiles : list TileData)
    (s : State) : State :=
  {| solution := solutionGrid;
     boardState := initializeBoard;
     paletteTiles := shuffledTiles;
     draggedTile := draggedTile s;
     correctTilesCount := 0;
     hintsUsed := 0;
     gamePhase := placing;
     blinkingCell := None;
     finalCodeAnswer := None;
     finalCodeInput := EmptyString;
     challengeShake := challengeShake s |}.

Definition handleNewGameClick (solutionGrid : list (list Z))
    (shuffledTiles : list TileData) (s : State) : Result :=
  Some (newGame solutionGrid shuffledTiles s, [SndClick]).

Definition handleDragStart (t : TileData) (s : State) : Result :=
  if isUIInteractive s then
    Some ({| solution := solution s;
             boardState := boardState s;
             paletteTiles := paletteTiles s;
             draggedTile := Some t;
             correctTilesCount := correctTilesCount s;
             hintsUsed := hintsUsed s;
             gamePhase := gamePhase s;
             blinkingCell := blinkingCell s;
             finalCodeAnswer := finalCodeAnswer s;
             finalCodeInput := finalCodeInput s;
             challengeShake := challengeShake s |}, [])
  else Some (s, []).

(** One of the four guarded neighbour tests of [handleDrop]:
    [if (inGrid && board[r][c].tile) { if (value !== expected) valid = false }].
    The result is what the test leaves of [isSequenceValid = true]. *)
Definition neighbourFits (b : Board) (inGrid : bool) (r c : nat) (expected : Z)
    : option bool :=
  if inGrid then
    cell ← cellAt b r c;
    Some (match tile cell with
          | Some t => bool_decide (value t = expected)
          | None => true
          end)
  else Some true.

Definition isSequenceValid (b : Board) (row col : nat) (v : Z) : option bool :=
  up ← neighbourFits b (bool_decide (0 < row)) (row - 1) col (v - 9)%Z;
  down ← neighbourFits b (bool_decide (row < GRID_SIZE - 1)) (row + 1) col (v + 9)%Z;
  left ← neighbourFits b (bool_decide (0 < col)) row (col - 1) (v - 1)%Z;
  right ← neighbourFits b (bool_decide (col < GRID_SIZE - 1)) row (col + 1) (v + 1)%Z;
  Some (up && down && left && right).

Definition handleDrop (row col : nat) (s : State) : Result :=
  if negb (isUIInteractive s) then Some (s, []) else
  match draggedTile s with
  | None => Some (s, [])
  | Some dragged =>
    target ← cellAt (boardState s) row col;
    if isOccupied target then Some (s, []) else
    let targetColumnBase := (Z.of_nat col + 1)%Z in
    if bool_decide (base dragged ≠ targetColumnBase) then Some (s, [SndIncorrect]) else
    valid ← isSequenceValid (boardState s) row col (value dragged);
    if negb valid then Some (s, [SndIncorrect]) else
    solutionRow ← solution s !! row;
    let isCorrectPosition :=
      match solutionRow !! col with
      | Some v => bool_decide (v = value dragged)
      | None => false
      end in
    let newBoardState :=
      setCell (boardState s) row col
        {| tile := Some dragged;
           status := if isCorrectPosition then StCorrect else StIncorrect;
           isHint := false |} in
    Some ({| solution := solution s;
             boardState := newBoardState;
             paletteTiles :=
               filter (λ t, value t ≠ value dragged) (paletteTiles s);
             draggedTile := None;
             correctTilesCount :=
               if isCorrectPosition then correctTilesCount s + 1
               else correctTilesCount s;
             hintsUsed := hintsUsed s;
             gamePhase := gamePhase s;
             blinkingCell := blinkingCell s;
             finalCodeAnswer := finalCodeAnswer s;
             finalCodeInput := finalCodeInput s;
             challengeShake := challengeShake s |},
          [if isCorrectPosition then SndCorrect else SndIncorrect])
  end.

(** One disjunct of [hasDependentTile]:
    [inGrid && newBoardState[r][c].tile]. *)
Definition dependentAt (b : Board) (inGrid : bool) (r c : nat) : option bool :=
  if inGrid then cell ← cellAt b r c; Some (isOccupied cell) else Some false.

Definition hasDependentTile (b : Board) (fromRow fromCol : nat) : option bool :=
  match dependentAt b (bool_decide (fromRow < GRID_SIZE - 1)) (fromRow + 1) fromCol with
  | None => None
  | Some true => Some true
  | Some false =>
      dependentAt b (bool_decide (fromCol < GRID_SIZE - 1)) fromRow (fromCol + 1)
  end.

Definition handleTileReturn (t : TileData) (fromRow fromCol : nat) (s : State)
    : Result :=
  if negb (isUIInteractive s) then Some (s, []) else
  cell ← cellAt (boardState s) fromRow fromCol;
  if isCorrect cell then Some (s, []) else
  match hasDependentTile (boardState s) fromRow fromCol with
  | None => None
  | Some true => Some (s, [SndIncorrect])
  | Some false =>
  Some ({| solution := solution s;
           boardState := setCell (boardState s) fromRow fromCol emptyCell;
           paletteTiles := paletteTiles s ++ [t];
           draggedTile := draggedTile s;
           correctTilesCount := correctTilesCount s;
           hintsUsed := hintsUsed s;
           gamePhase := gamePhase s;
           blinkingCell := blinkingCell s;
           finalCodeAnswer := finalCodeAnswer s;
           finalCodeInput := finalCodeInput s;
           challengeShake := challengeShake s |},
        [SndReturn])
  end.

(** The [forEach] of [handleHint]: the coordinates of the cells whose status
    is not 'correct', in row-major order. *)
Fixpoint unsolvedInRow (r c : nat) (row : list BoardCell) : list (nat * nat) :=
  match row with
  | [] => []
  | cell :: rest =>
      (if isCorrect cell then [] else [(r, c)]) ++ unsolvedInRow r (S c) rest
  end.

Fixpoint unsolvedFrom (r : nat) (b : Board) : list (nat * nat) :=
  match b with
  | [] => []
  | row :: rest => unsolvedInRow r 0 row ++ unsolvedFrom (S r) rest
  end.

Definition unsolvedCells (b : Board) : list (nat * nat) := unsolvedFrom 0 b.

(** The inner loop [for (c = ...; c < GRID_SIZE; c++)] of the search for
    [correctValue]; [n] iterations remain.  [None]: a [TypeError];
    [Some None]: the loop ended without [break]. *)
Fixpoint findInRow (row : list BoardCell) (v : Z) (c n : nat)
    : option (option nat) :=
  match n with
  | 0 => Some None
  | S n' =>
      cell ← row !! c;
      if holdsValue v cell then Some (Some c) else findInRow row v (S c) n'
  end.

(** The outer loop [for (r = ...; r < GRID_SIZE && !tileFoundOnBoard; r++)]. *)
Fixpoint findFromRow (b : Board) (v : Z) (r n : nat)
    : option (option (nat * nat)) :=
  match n with
  | 0 => Some None
  | S n' =>
      row ← b !! r;
      found ← findInRow row v 0 GRID_SIZE;
      match found with
      | Some c => Some (Some (r, c))
      | None => findFromRow b v (S r) n'
      end
  end.

Definition findOnBoard (b : Board) (v : Z) : option (option (nat * nat)) :=
  findFromRow b v 0 GRID_SIZE.

(** [handleHint]; [pick] is [Math.floor(Math.random() * unsolvedCells.length)]. *)
Definition handleHint (pick : nat) (s : State) : Result :=
  if negb (isUIInteractive s) then Some (s, []) else
  let unsolved := unsolvedCells (boardState s) in
  if bool_decide (length unsolved = 0) then Some (s, [SndHint]) else
  '(hintRow, hintCol) ← unsolved !! pick;
  correctValue ← solutionAt (solution s) hintRow hintCol;
  let correctTileData :=
    {| value := correctValue; base := calculateBase correctValue |} in
  target ← cellAt (boardState s) hintRow hintCol;
  let pushed :=
    match tile target with
    | Some tileAtTarget => paletteTiles s ++ [tileAtTarget]
    | None => paletteTiles s
    end in
  found ← findOnBoard (boardState s) correctValue;
  let evicted :=
    match found with
    | Some (r, c) => setCell (boardState s) r c emptyCell
    | None => boardState s
    end in
  let newPaletteTiles :=
    match found with
    | Some _ => pushed
    | None => filter (λ t, value t ≠ correctValue) pushed
    end in
  cell ← cellAt evicted hintRow hintCol;
  Some ({| solution := solution s;
           boardState :=
             setCell evicted hintRow hintCol
               {| tile := Some correctTileData; status := StCorrect; isHint := true |};
           paletteTiles := newPaletteTiles;
           draggedTile := draggedTile s;
           correctTilesCount :=
             if isCorrect cell then correctTilesCount s
             else correctTilesCount s + 1;
           hintsUsed := hintsUsed s + 1;
           gamePhase := gamePhase s;
           blinkingCell := blinkingCell s;
           finalCodeAnswer := finalCodeAnswer s;
           finalCodeInput := finalCodeInput s;
           challengeShake := challengeShake s |},
        [SndHint]).

(** JavaScript's [parseInt(s, 10)] on ASCII input: leading white space is
    skipped, then an optional sign, then the longest run of decimal digits is
    read; [None] is [NaN] (no digit).  The input box holds at most one
    character, so the rounding of large numbers does not arise. *)
Definition isWhiteSpace (a : ascii) : bool :=
  let n := nat_of_ascii a in
  bool_decide (n = 32) || (bool_decide (9 ≤ n) && bool_decide (n ≤ 13)).

Fixpoint skipWhiteSpace (s : string) : string :=
  match s with
  | String a rest => if isWhiteSpace a then skipWhiteSpace rest else s
  | EmptyString => s
  end.

Definition digitOf (a : ascii) : option Z :=
  let n := nat_of_ascii a in
  if bool_decide (48 ≤ n) && bool_decide (n ≤ 57)
  then Some (Z.of_nat (n - 48)) else None.

Fixpoint readDigits (s : string) (acc : option Z) : option Z :=
  match s with
  | String a rest =>
      match digitOf a with
      | Some d => readDigits rest (Some (10 * default 0 acc + d)%Z)
      | None => acc
      end
  | EmptyString => acc
  end.

Definition parseInt (s : string) : option Z :=
  match skipWhiteSpace s with
  | String "-"%char rest => Z.opp <$> readDigits rest None
  | String "+"%char rest => readDigits rest None
  | rest => readDigits rest None
  end.

(** [answer === finalCodeAnswer], where [answer] may be [NaN] and
    [finalCodeAnswer] may be [null]. *)
Definition strictEq (answer expected : option Z) : bool :=
  match answer, expected with
  | Some a, Some e => bool_decide (a = e)
  | _, _ => false
  end.

(** The [onChange] of the code input: [setFinalCodeInput(value.slice(0, 1))]. *)
Definition handleFinalCodeChange (text : string) (s : State) : Result :=
  Some ({| solution := solution s;
           boardState := boardState s;
           paletteTiles := paletteTiles s;
           draggedTile := draggedTile s;
           correctTilesCount := correctTilesCount s;
           hintsUsed := hintsUsed s;
           gamePhase := gamePhase s;
           blinkingCell := blinkingCell s;
           finalCodeAnswer := finalCodeAnswer s;
           finalCodeInput := substring 0 1 text;
           challengeShake := challengeShake s |}, []).

(** [handleFinalCodeSubmit].  The [setTimeout] that clears the shake later is
    the separate event [shakeTimeout]. *)
Definition handleFinalCodeSubmit (s : State) : Result :=
  let answer := parseInt (finalCodeInput s) in
  if strictEq answer (finalCodeAnswer s) then
    Some ({| solution := solution s;
             boardState := boardState s;
             paletteTiles := paletteTiles s;
             draggedTile := draggedTile s;
             correctTilesCount := correctTilesCount s;
             hintsUsed := hintsUsed s;
             gamePhase := won;
             blinkingCell := None;
             finalCodeAnswer := finalCodeAnswer s;
             finalCodeInput := finalCodeInput s;
             challengeShake := challengeShake s |}, [SndWin])
  else
    Some ({| solution := solution s;
             boardState := boardState s;
             paletteTiles := paletteTiles s;
             draggedTile := draggedTile s;
             correctTilesCount := correctTilesCount s;
             hintsUsed := hintsUsed s;
             gamePhase := gamePhase s;
             blinkingCell := blinkingCell s;
             finalCodeAnswer := finalCodeAnswer s;
             finalCodeInput := EmptyString;
             challengeShake := true |}, [SndIncorrect]).

Definition shakeTimeout (s : State) : Result :=
  Some ({| solution := solution s;
           boardState := boardState s;
           paletteTiles := paletteTiles s;
           draggedTile := draggedTile s;
           correctTilesCount := correctTilesCount s;
           hintsUsed := hintsUsed s;
           gamePhase := gamePhase s;
           blinkingCell := blinkingCell s;
           finalCodeAnswer := finalCodeAnswer s;
           finalCodeInput := finalCodeInput s;
           challengeShake := false |}, []).

(** The effect on [correctTilesCount] and [gamePhase] that starts the final
    challenge; [randomRow] and [randomCol] are the two
    [Math.floor(Math.random() * GRID_SIZE)]. *)
Definition phaseEffect (randomRow randomCol : nat) (s : State) : Result :=
  if bool_decide (gamePhase s = placing)
     && bool_decide (correctTilesCount s = GRID_SIZE * GRID_SIZE)
     && bool_decide (0 < correctTilesCount s)
  then
    finalNumber ← solutionAt (solution s) randomRow randomCol;
    Some ({| solution := solution s;
             boardState := boardState s;
             paletteTiles := paletteTiles s;
             draggedTile := draggedTile s;
             correctTilesCount := correctTilesCount s;
             hintsUsed := hintsUsed s;
             gamePhase := final_challenge;
             blinkingCell := Some (randomRow, randomCol);
             finalCodeAnswer := Some (calculateBase finalNumber);
             finalCodeInput := finalCodeInput s;
             challengeShake := challengeShake s |}, [SndWin])
  else Some (s, []).

(** ** The session as a transition system *)

(** What the render surface and the timers can send to [App]. *)
Inductive Event : Type :=
  | EvDragStart (t : TileData)
  | EvDrop (row col : nat)
  | EvTileReturn (row col : nat)
  | EvHint (pick : nat)
  | EvCodeChange (text : string)
  | EvCodeSubmit
  | EvShakeTimeout
  | EvNewGame (solutionGrid : list (list Z)) (shuffledTiles : list TileData).

(** [GameBoard] calls [onTileReturn(cell.tile!, rowIndex, colIndex)] from the
    tile it renders in an occupied cell. *)
Definition handle (ev : Event) (s : State) : Result :=
  match ev with
  | EvDragStart t => handleDragStart t s
  | EvDrop row col => handleDrop row col s
  | EvTileReturn row col =>
      cell ← cellAt (boardState s) row col;
      t ← tile cell;
      handleTileReturn t row col s
  | EvHint pick => handleHint pick s
  | EvCodeChange text => handleFinalCodeChange text s
  | EvCodeSubmit => handleFinalCodeSubmit s
  | EvShakeTimeout => shakeTimeout s
  | EvNewGame solutionGrid shuffledTiles =>
      handleNewGameClick solutionGrid shuffledTiles s
  end.

(** A handler call followed by the effects of the render it causes. *)
Definition step (ev : Event) (randomRow randomCol : nat) (s : State) : Result :=
  '(s1, sounds1) ← handle ev s;
  '(s2, sounds2) ← phaseEffect randomRow randomCol s1;
  Some (s2, sounds1 ++ sounds2).

(** A matrix of [GRID_SIZE] rows of [GRID_SIZE] entries. *)
Definition isGrid {A : Type} (m : list (list A)) : Prop :=
  length m = GRID_SIZE ∧ Forall (λ row, length row = GRID_SIZE) m.

(** Modelled from the spec: [generateGameData] lives in [src/lib/game], which
    is not among the sources.  The spec says of its result that the solution
    is a 9×9 grid holding each value of 1..81 exactly once, and that the
    palette holds the 81 tiles of these values in some order. *)
Definition generated (solutionGrid : list (list Z)) (shuffledTiles : list TileData)
    : Prop :=
  isGrid solutionGrid
  ∧ NoDup (concat solutionGrid)
  ∧ Forall (λ v, v ∈ concat solutionGrid) (Z.of_nat <$> seq 1 81)
  ∧ shuffledTiles ≡ₚ (λ v, mkTile v (calculateBase v)) <$> concat solutionGrid.

(** The events the user interface can produce in a state.  A drag starts
    from a tile shown in the palette; the board passes the coordinates of one
    of its cells to [onDrop]; the hint button is disabled outside the placing
    phase and when the palette is empty; the code form is rendered in the
    final challenge only; a new game comes from the button or a difficulty
    change (both disabled outside the placing phase) or from the end modal
    (open in phase 'won'), and installs generated data. *)
Definition enabled (ev : Event) (s : State) : Prop :=
  match ev with
  | EvDragStart t => t ∈ paletteTiles s
  | EvDrop row col => row < GRID_SIZE ∧ col < GRID_SIZE
  | EvTileReturn row col => True
  | EvHint pick => gamePhase s = placing ∧ paletteTiles s ≠ []
  | EvCodeChange text => gamePhase s = final_challenge
  | EvCodeSubmit => gamePhase s = final_challenge
  | EvShakeTimeout => True
  | EvNewGame solutionGrid shuffledTiles =>
      gamePhase s ≠ final_challenge ∧ generated solutionGrid shuffledTiles
  end.

(** The state of [App] before the mount effect runs [newGame]. *)
Definition mountState : State :=
  {| solution := [];
     boardState := [];
     paletteTiles := [];
     draggedTile := None;
     correctTilesCount := 0;
     hintsUsed := 0;
     gamePhase := placing;
     blinkingCell := None;
     finalCodeAnswer := None;
     finalCodeInput := EmptyString;
     challengeShake := false |}.

Inductive reachable : State → Prop :=
  | reachable_mount solutionGrid shuffledTiles :
      generated solutionGrid shuffledTiles →
      reachable (newGame solutionGrid shuffledTiles mountState)
  | reachable_step s ev randomRow randomCol s' sounds :
      reachable s →
      enabled ev s →
      randomRow < GRID_SIZE →
      randomCol < GRID_SIZE →
      step ev randomRow randomCol s = Some (s', sounds) →
      reachable s'.

(** ** Counting *)

Definition indicator (x : bool) : nat := if x then 1 else 0.

(** The number of cells of a row, and of the board, that satisfy [p]. *)
Definition countRow (p : BoardCell → bool) (row : list BoardCell) : nat :=
  length (filter (λ cell, p cell = true) row).

Definition countCells (p : BoardCell → bool) (b : Board) : nat :=
  sum_list (countRow p <$> b).

(** The number of palette tiles of value [v]. *)
Definition paletteCount (v : Z) (palette : list TileData) : nat :=
  length (filter (λ t, value t = v) palette).

(** The number of board cells that hold a tile of value [v]. *)
Definition boardCount (v : Z) (b : Board) : nat := countCells (holdsValue v) b.

(** The tile in cell [(r, c)], if the cell is in the grid and occupied. *)
Definition tileAt (b : Board) (r c : nat) : option TileData :=
  cell ← cellAt b r c; tile cell.

(** ** Properties of a session *)

(** The sequence rule of a placement of value [v] at [(row, col)]: every
    occupied orthogonal neighbour holds the value the direction asks for. *)
Definition sequenceFits (b : Board) (row col : nat) (v : Z) : Prop :=
  (∀ t, 0 < row → tileAt b (row - 1) col = Some t → value t = (v - 9)%Z)
  ∧ (∀ t, tileAt b (row + 1) col = Some t → value t = (v + 9)%Z)
  ∧ (∀ t, 0 < col → tileAt b row (col - 1) = Some t → value t = (v - 1)%Z)
  ∧ (∀ t, tileAt b row (col + 1) = Some t → value t = (v + 1)%Z).

(** Some occupied orthogonal neighbour breaks the sequence rule. *)
Definition sequenceViolated (b : Board) (row col : nat) (v : Z) : Prop :=
  (∃ t, 0 < row ∧ tileAt b (row - 1) col = Some t ∧ value t ≠ (v - 9)%Z)
  ∨ (∃ t, tileAt b (row + 1) col = Some t ∧ value t ≠ (v + 9)%Z)
  ∨ (∃ t, 0 < col ∧ tileAt b row (col - 1) = Some t ∧ value t ≠ (v - 1)%Z)
  ∨ (∃ t, tileAt b row (col + 1) = Some t ∧ value t ≠ (v + 1)%Z).

(** Ownership: each value of 1..81 is held by exactly one container, the
    palette (once) or one board cell. *)
Definition ownership (s : State) : Prop :=
  ∀ v, (1 ≤ v ≤ 81)%Z →
    paletteCount v (paletteTiles s) + boardCount v (boardState s) = 1.

(** A cell's status is 'correct' iff it holds the solution's value. *)
Definition consistent (sol : list (list Z)) (b : Board) : Prop :=
  ∀ r c cell, cellAt b r c = Some cell →
    (status cell = StCorrect ↔
     ∃ t, tile cell = Some t ∧ solutionAt sol r c = Some (value t)).

(** The values of the solution grid are pairwise distinct. *)
Definition distinctSolution (sol : list (list Z)) : Prop :=
  ∀ r c r' c' v,
    solutionAt sol r c = Some v → solutionAt sol r' c' = Some v →
    (r, c) = (r', c').

(** The values of the solution grid are values of 1..81. *)
Definition solutionInRange (s : State) : Prop :=
  ∀ r c v, solutionAt (solution s) r c = Some v → (1 ≤ v ≤ 81)%Z.

(** The counter invariant: on well-shaped grids with consistent statuses and
    a solution without repetition, the counter is the number of correct
    cells. *)
Record CountInv (s : State) : Prop := mkCountInv {
  inv_board : isGrid (boardState s);
  inv_solution : isGrid (solution s);
  inv_distinct : distinctSolution (solution s);
  inv_consistent : consistent (solution s) (boardState s);
  inv_count : correctTilesCount s = countCells isCorrect (boardState s)
}.

(** What holds of the phase once the effects of a render have run. *)
Record PhaseInv (s : State) : Prop := mkPhaseInv {
  inv_placing :
    gamePhase s = placing →
    correctTilesCount s ≠ GRID_SIZE * GRID_SIZE ∧ finalCodeAnswer s = None;
  inv_challenge :
    gamePhase s ≠ placing →
    correctTilesCount s = GRID_SIZE * GRID_SIZE
    ∧ ∃ randomRow randomCol v,
        solutionAt (solution s) randomRow randomCol = Some v
        ∧ finalCodeAnswer s = Some (calculateBase v)
        ∧ (gamePhase s = final_challenge →
           blinkingCell s = Some (randomRow, randomCol))
}.

(** What holds of the phase after a handler, before the effects run. *)
Record PhasePre (s : State) : Prop := mkPhasePre {
  pre_placing : gamePhase s = placing → finalCodeAnswer s = None;
  pre_challenge :
    gamePhase s ≠ placing →
    correctTilesCount s = GRID_SIZE * GRID_SIZE
    ∧ ∃ randomRow randomCol v,
        solutionAt (solution s) randomRow randomCol = Some v
        ∧ finalCodeAnswer s = Some (calculateBase v)
        ∧ (gamePhase s = final_challenge →
           blinkingCell s = Some (randomRow, randomCol))
}.

(** The three operations of the placement validator. *)
Inductive Operation : Type :=
  | OpPlace (row col : nat)
  | OpReturn (t : TileData) (fromRow fromCol : nat)
  | OpHint (pick : nat).

Definition runOp (op : Operation) (s : State) : Result :=
  match op with
  | OpPlace row col => handleDrop row col s
  | OpReturn t fromRow fromCol => handleTileReturn t fromRow fromCol s
  | OpHint pick => handleHint pick s
  end.

(** ** Runs *)

(** The states a list of events leads through; every effect draws the random
    cell [(0, 0)]. *)
Fixpoint runEvents (evs : list Event) (s : State) : option State :=
  match evs with
  | [] => Some s
  | ev :: rest => '(s', _) ← step ev 0 0 s; runEvents rest s'
  end.

(** Every event of the list is enabled in the state it is sent to. *)
Fixpoint allEnabled (evs : list Event) (s : State) : Prop :=
  match evs with
  | [] => True
  | ev :: rest =>
      enabled ev s
      ∧ match step ev 0 0 s with
        | Some (s', _) => allEnabled rest s'
        | None => False
        end
  end.

(** ** A concrete session *)

(** The tile of value [v], as [handleHint] builds it. *)
Definition tileOf (v : Z) : TileData := mkTile v (calculateBase v).

(** Modelled from the spec: the canonical construction
    [solution[r][c] = c*9 + r + 1] of the solution grid. *)
Definition canonicalSolution : list (list Z) :=
  (λ r, (λ c, Z.of_nat (c * 9 + r + 1)) <$> seq 0 GRID_SIZE) <$> seq 0 GRID_SIZE.

(** Modelled from the spec: the 81 tiles of the solution's values (here in
    row-major order, one of the orders a shuffle can give). *)
Definition canonicalTiles : list TileData :=
  tileOf <$> concat canonicalSolution.

Definition canonicalStart : State :=
  newGame canonicalSolution canonicalTiles mountState.

(** ** Scenarios *)

(** Scenario 1 of the spec: an empty board, the tile of value 1 dragged. *)
Definition scenario1 : State :=
  {| solution := canonicalSolution;
     boardState := initializeBoard;
     paletteTiles := canonicalTiles;
     draggedTile := Some (tileOf 1);
     correctTilesCount := 0;
     hintsUsed := 0;
     gamePhase := placing;
     blinkingCell := None;
     finalCodeAnswer := None;
     finalCodeInput := EmptyString;
     challengeShake := false |}.

(** Scenario 2 of the spec: an empty board, a tile of base 2 dragged. *)
Definition scenario2 : State :=
  {| solution := canonicalSolution;
     boardState := initializeBoard;
     paletteTiles := canonicalTiles;
     draggedTile := Some (tileOf 10);
     correctTilesCount := 0;
     hintsUsed := 0;
     gamePhase := placing;
     blinkingCell := None;
     finalCodeAnswer := None;
     finalCodeInput := EmptyString;
     challengeShake := false |}.

(** The tile of value 1 sits, correct, in cell (0, 0); the tile of value 2 is
    dragged. *)
Definition onePlaced : State :=
  {| solution := canonicalSolution;
     boardState :=
       setCell initializeBoard 0 0
         {| tile := Some (tileOf 1); status := StCorrect; isHint := false |};
     paletteTiles := filter (λ t, value t ≠ 1%Z) canonicalTiles;
     draggedTile := Some (tileOf 2);
     correctTilesCount := 1;
     hintsUsed := 0;
     gamePhase := placing;
     blinkingCell := None;
     finalCodeAnswer := None;
     finalCodeInput := EmptyString;
     challengeShake := false |}.

(** The tile of value 2 sits, incorrect, in cell (0, 0), nothing is dragged. *)
Definition twoMisplaced : State :=
  {| solution := canonicalSolution;
     boardState :=
       setCell initializeBoard 0 0
         {| tile := Some (tileOf 2); status := StIncorrect; isHint := false |};
     paletteTiles := filter (λ t, value t ≠ 2%Z) canonicalTiles;
     draggedTile := None;
     correctTilesCount := 0;
     hintsUsed := 0;
     gamePhase := placing;
     blinkingCell := None;
     finalCodeAnswer := None;
     finalCodeInput := EmptyString;
     challengeShake := false |}.

(** The session after 81 hints, each taking the first unsolved cell. *)
Definition challengeState : State :=
  default canonicalStart (runEvents (replicate 81 (EvHint 0)) canonicalStart).

(** Scenario 4 of the spec: the final challenge, then the right code typed
    and submitted. *)
Definition wonState : State :=
  default canonicalStart
    (runEvents [EvCodeChange "1"%string; EvCodeSubmit] challengeState).

(** A drag that outlives its tile.  Tile 2 is placed in cell (5, 0), where
    it is incorrect.  Tile 1 is dragged and dropped on cell (0, 1), in the
    wrong column: rejected.  A hint then puts value 1 in cell (0, 0).  The
    player drags the board tile of cell (5, 0), which returns it to the
    palette, and drops on the empty cell (2, 0). *)
Definition staleDragTrace : list Event :=
  [EvDragStart (tileOf 2); EvDrop 5 0;
   EvDragStart (tileOf 1); EvDrop 0 1;
   EvHint 0;
   EvTileReturn 5 0; EvDrop 2 0].

(** * Further code of the repository *)

(** ** [formatTime] of [src/App.tsx] *)

(** [n.toString()] for a natural number: its decimal digits, without leading
    zeros, ["0"] for zero. *)
Definition toString (n : nat) : string :=
  NilEmpty.string_of_uint (Nat.to_uint n).

Fixpoint repeatString (pad : string) (k : nat) : string :=
  match k with
  | 0 => EmptyString
  | S k' => String.append pad (repeatString pad k')
  end.

(** [s.padStart(targetLength, padString)]: nothing is added when [s] is long
    enough or [padString] is empty; otherwise [padString] is repeated and cut
    to the missing length. *)
Definition padStart (targetLength : nat) (padString : string) (s : string)
    : string :=
  let fillLen := targetLength - String.length s in
  if bool_decide (fillLen = 0) || bool_decide (String.length padString = 0)
  then s
  else String.append (substring 0 fillLen (repeatString padString fillLen)) s.

(** The natural numbers a JavaScript number holds exactly and prints in
    plain decimal digits: up to [Number.MAX_SAFE_INTEGER]. *)
Definition isSafeInteger (n : nat) : Prop :=
  (Z.of_nat n ≤ 9007199254740991)%Z.

(** [formatTime]; [totalSeconds] is the timer's count of elapsed seconds. *)
Definition formatTime (totalSeconds : nat) : string :=
  let minutes := padStart 2 "0" (toString (totalSeconds / 60)) in
  let seconds := padStart 2 "0" (toString (totalSeconds mod 60)) in
  String.append minutes (String ":" seconds).

Definition isDigit (a : ascii) : bool :=
  match digitOf a with Some _ => true | None => false end.

Fixpoint allDigits (s : string) : bool :=
  match s with
  | EmptyString => true
  | String a rest => isDigit a && allDigits rest
  end.

(** ** The board as [GameBoard] renders it *)

(** [isBlinking] of [GameBoard]:
    [blinkingCell?.r === rowIndex && blinkingCell?.c === colIndex]. *)
Definition isBlinking (blinking : option (nat * nat)) (rowIndex colIndex : nat)
    : bool :=
  match blinking with
  | Some (r, c) => bool_decide (r = rowIndex) && bool_decide (c = colIndex)
  | None => false
  end.

(** The tile of a cell is wrapped in the blinking [div] when the cell is
    occupied ([cell.tile && ...]) and [isBlinking] holds. *)
Definition rendersBlinking (s : State) (rowIndex colIndex : nat) : bool :=
  match cellAt (boardState s) rowIndex colIndex with
  | Some cell => isOccupied cell && isBlinking (blinkingCell s) rowIndex colIndex
  | None => false
  end.

(** ** Persisted preferences *)

(** [window.localStorage], as far as [getItem] and [setItem] go. *)
Abbreviation Storage := (gmap string string).

Definition getItem (key : string) (storage : Storage) : option string :=
  storage !! key.

Definition setItem (key value : string) (storage : Storage) : Storage :=
  <[key := value]> storage.

(** The initialiser of the [language] state:
    [(localStorage.getItem('binokub-language') as Language) || 'fr'].  The cast
    checks nothing. *)
Definition initialLanguage (storage : Storage) : string :=
  match getItem "binokub-language" storage with
  | Some savedLang => if bool_decide (savedLang = EmptyString) then "fr" else savedLang
  | None => "fr"
  end.

(** The effect on [language]. *)
Definition persistLanguage (language : string) (storage : Storage) : Storage :=
  setItem "binokub-language" language storage.

(** The names every plain object inherits from [Object.prototype]: a
    property access [o[name]] finds them when [o] has no own property of
    that name. *)
Definition objectPrototypeNames : list string :=
  ["constructor"; "hasOwnProperty"; "isPrototypeOf"; "propertyIsEnumerable";
   "toLocaleString"; "toString"; "valueOf"; "__proto__"; "__defineGetter__";
   "__defineSetter__"; "__lookupGetter__"; "__lookupSetter__"]%string.

Definition isInherited (name : string) : bool :=
  existsb (String.eqb name) objectPrototypeNames.

(** [t]: [translations[language]?.[key] || key].  The tables of
    [src/lib/translations] are not among the sources and are an argument:
    the own properties of a plain object of plain objects of texts.  [None]
    where the access reaches [Object.prototype], for a language or a key
    that is no own property and is named as an inherited member (such as
    [toString]): the source then yields that member, or what a lookup in it
    gives, which is not a text of the tables. *)
Definition translate (translations : gmap string (gmap string string))
    (language key : string) : option string :=
  match translations !! language with
  | Some table =>
      match table !! key with
      | Some text => Some (if bool_decide (text = EmptyString) then key else text)
      | None => if isInherited key then None else Some key
      end
  | None => if isInherited language then None else Some key
  end.

(** [JSON.stringify] of a boolean. *)
Definition stringifyBool (b : bool) : string := if b then "true" else "false".

(** The initialiser of [isMuted] in [useSounds]:
    [item ? JSON.parse(item) : false], [false] when that throws.  [None]
    where the stored text is not one [JSON.stringify] writes for a boolean:
    the source then yields what [JSON.parse] makes of the text, or [false]
    if it is not JSON. *)
Definition initialMuted (storage : Storage) : option bool :=
  match getItem "binokub-muted" storage with
  | None => Some false
  | Some item =>
      if bool_decide (item = EmptyString) then Some false
      else if bool_decide (item = "true"%string) then Some true
      else if bool_decide (item = "false"%string) then Some false
      else None
  end.

(** The effect on [isMuted]. *)
Definition persistMuted (isMuted : bool) (storage : Storage) : Storage :=
  setItem "binokub-muted" (stringifyBool isMuted) storage.

(** [playSound]: the notes that reach [playNote]. *)
Definition playSound (isMuted : bool) (sounds : list SoundType) : list SoundType :=
  if isMuted then [] else sounds.

(** ** Further properties of a session *)

(** A cell of column [col] is well formed: without a tile it is the empty
    cell; with a tile its status is not 'empty', a hinted cell is 'correct',
    and a tile placed by hand has the base of the column. *)
Definition wfCell (col : nat) (cell : BoardCell) : Prop :=
  match tile cell with
  | None => cell = emptyCell
  | Some t =>
      status cell ≠ StEmpty
      ∧ (isHint cell = true → status cell = StCorrect)
      ∧ (isHint cell = false → base t = (Z.of_nat col + 1)%Z)
  end.

Record BoardInv (s : State) : Prop := mkBoardInv {
  inv_cells : ∀ r c cell, cellAt (boardState s) r c = Some cell → wfCell c cell;
  inv_hints : hintsUsed s ≤ correctTilesCount s;
  inv_blink : gamePhase s ≠ final_challenge → blinkingCell s = None
}.

(** The events the interface can send with the arguments it sends them
    with: a tile return comes from a rendered tile, and the index of a hint
    is below the number of unsolved cells. *)
Definition deliverable (ev : Event) (s : State) : Prop :=
  enabled ev s
  ∧ match ev with
    | EvTileReturn row col => is_Some (tileAt (boardState s) row col)
    | EvHint pick =>
        unsolvedCells (boardState s) = []
        ∨ pick < length (unsolvedCells (boardState s))
    | _ => True
    end.

Definition phaseRank (p : GamePhase) : nat :=
  match p with placing => 0 | final_challenge => 1 | won => 2 end.

Definition isNewGame (ev : Event) : bool :=
  match ev with EvNewGame _ _ => true | _ => false end.

(** ** Further states of the concrete session *)

(** The tile of value 2 dragged from the palette and dropped on cell (5, 0),
    whose solution is 6. *)
Definition handPlaced : State :=
  default canonicalStart
    (runEvents [EvDragStart (tileOf 2); EvDrop 5 0] canonicalStart).

(** The session after one hint, and after two, each on the first unsolved
    cell. *)
Definition oneHint : State :=
  default canonicalStart (runEvents [EvHint 0] canonicalStart).

Definition twoHints : State :=
  default canonicalStart (runEvents [EvHint 0; EvHint 0] canonicalStart).

(** The session after 80 hints, and the state in which the handler of the
    81st hint leaves it, before the effect of the render has run. *)
Definition eightyHints : State :=
  default canonicalStart (runEvents (replicate 80 (EvHint 0)) canonicalStart).

Definition lastHintHandled : State :=
  match handle (EvHint 0) eightyHints with
  | Some (s, _) => s
  | None => eightyHints
  end.

(** ** Lemmas on grids *)

Section grids.
Context {A : Type}.
Implicit Types (m : list (list A)) (r c : nat).

Lemma isGrid_row m r row :
  isGrid m → m !! r = Some row → length row = GRID_SIZE.
Proof.
  intros [_ Hrows] Hr. rewrite Forall_lookup in Hrows. exact (Hrows r row Hr).
Qed.

Lemma isGrid_is_Some m r c :
  isGrid m → r < GRID_SIZE → c < GRID_SIZE → is_Some (m !! r ≫= (.!! c)).
Proof.
  intros Hg Hr Hc.
  destruct (lookup_lt_is_Some_2 m r) as [row Hrow]; [destruct Hg; lia|].
  rewrite Hrow. simpl. apply lookup_lt_is_Some_2.
  rewrite (isGrid_row m r row Hg Hrow). exact Hc.
Qed.

Lemma isGrid_lookup_lt m r c x :
  isGrid m → m !! r ≫= (.!! c) = Some x → r < GRID_SIZE ∧ c < GRID_SIZE.
Proof.
  intros Hg Hx. destruct (m !! r) as [row|] eqn:Hrow; [|discriminate].
  simpl in Hx. split.
  - destruct Hg as [<- _]. eapply lookup_lt_Some, Hrow.
  - rewrite <- (isGrid_row m r row Hg Hrow). eapply lookup_lt_Some, Hx.
Qed.
End grids.

Lemma cellAt_is_Some b r c :
  isGrid b → r < GRID_SIZE → c < GRID_SIZE → is_Some (cellAt b r c).
Proof. apply isGrid_is_Some. Qed.

Lemma cellAt_lt b r c cell :
  isGrid b → cellAt b r c = Some cell → r < GRID_SIZE ∧ c < GRID_SIZE.
Proof. apply isGrid_lookup_lt. Qed.

Lemma solutionAt_is_Some sol r c :
  isGrid sol → r < GRID_SIZE → c < GRID_SIZE → is_Some (solutionAt sol r c).
Proof. apply isGrid_is_Some. Qed.

Lemma cellAt_setCell_eq b r c x old :
  cellAt b r c = Some old → cellAt (setCell b r c x) r c = Some x.
Proof.
  unfold cellAt, setCell. intros Hold. rewrite list_lookup_alter_eq.
  destruct (b !! r) as [row|]; [|discriminate]. simpl in *.
  apply list_lookup_insert_eq. eapply lookup_lt_Some, Hold.
Qed.

Lemma cellAt_setCell_ne b r c x r' c' :
  (r, c) ≠ (r', c') → cellAt (setCell b r c x) r' c' = cellAt b r' c'.
Proof.
  unfold cellAt, setCell. intros Hne.
  destruct (decide (r = r')) as [->|Hr].
  - rewrite list_lookup_alter_eq. destruct (b !! r') as [row|]; [|done].
    simpl. apply list_lookup_insert_ne. congruence.
  - by rewrite list_lookup_alter_ne.
Qed.

Lemma cellAt_setCell b r c x r' c' old :
  cellAt b r c = Some old →
  cellAt (setCell b r c x) r' c' =
    if decide ((r, c) = (r', c')) then Some x else cellAt b r' c'.
Proof.
  intros Hold. destruct (decide _) as [[= <- <-]|Hne].
  - by eapply cellAt_setCell_eq.
  - by apply cellAt_setCell_ne.
Qed.

Lemma isGrid_setCell b r c x : isGrid b → isGrid (setCell b r c x).
Proof.
  intros [Hlen Hrows]. split.
  - unfold setCell. by rewrite length_alter.
  - unfold setCell. rewrite Forall_lookup in Hrows.
    apply Forall_lookup. intros i row.
    rewrite list_lookup_alter. destruct (decide (r = i)) as [->|_].
    + destruct (b !! i) as [row0|] eqn:Hi; [|discriminate].
      intros [= <-]. rewrite length_insert. by apply (Hrows i).
    + apply Hrows.
Qed.

Lemma isGrid_initializeBoard : isGrid initializeBoard.
Proof.
  split; [apply length_replicate|].
  apply Forall_replicate, length_replicate.
Qed.

Lemma cellAt_initializeBoard r c cell :
  cellAt initializeBoard r c = Some cell → cell = emptyCell.
Proof.
  unfold cellAt, initializeBoard. intros H.
  destruct (replicate _ _ !! r) as [row|] eqn:Hr; [|discriminate].
  apply lookup_replicate_1 in Hr as [-> _].
  change (replicate GRID_SIZE emptyCell !! c = Some cell) in H.
  by apply lookup_replicate_1 in H as [-> _].
Qed.

(** *** Counting cells *)

Lemma countRow_cons p cell row :
  countRow p (cell :: row) = indicator (p cell) + countRow p row.
Proof.
  unfold countRow. rewrite filter_cons.
  destruct (decide (p cell = true)) as [->|Hp]; [done|].
  apply not_true_is_false in Hp. by rewrite Hp.
Qed.

Lemma countCells_cons p row b :
  countCells p (row :: b) = countRow p row + countCells p b.
Proof. reflexivity. Qed.

Lemma countRow_insert p row c x old :
  row !! c = Some old →
  countRow p (<[c := x]> row) + indicator (p old)
  = countRow p row + indicator (p x).
Proof.
  revert c. induction row as [|y row IH]; intros [|c] Hc; try discriminate.
  - injection Hc as ->. change (<[0:=x]> (old :: row)) with (x :: row).
    rewrite !countRow_cons. lia.
  - change (<[S c:=x]> (y :: row)) with (y :: <[c:=x]> row).
    rewrite !countRow_cons. specialize (IH c Hc). lia.
Qed.

Lemma countCells_setCell p b r c x old :
  cellAt b r c = Some old →
  countCells p (setCell b r c x) + indicator (p old)
  = countCells p b + indicator (p x).
Proof.
  unfold cellAt, setCell. revert r.
  induction b as [|row b IH]; intros [|r] Hold; try discriminate.
  - change (alter _ 0 (row :: b)) with (<[c:=x]> row :: b).
    rewrite !countCells_cons.
    pose proof (countRow_insert p row c x old Hold). lia.
  - change (alter ?f (S r) (row :: b)) with (row :: alter f r b).
    rewrite !countCells_cons. specialize (IH r Hold). lia.
Qed.

Lemma countRow_le p row : countRow p row ≤ length row.
Proof. apply length_filter. Qed.

Lemma countRow_full p row :
  countRow p row = length row → ∀ c cell, row !! c = Some cell → p cell = true.
Proof.
  induction row as [|y row IH]; intros Hlen c cell Hc; [done|].
  rewrite countRow_cons in Hlen. pose proof (countRow_le p row) as Hle.
  cbn [length] in Hlen.
  destruct (p y) eqn:Hy; cbn [indicator] in Hlen; [|lia].
  destruct c as [|c]; cbn in Hc.
  - by injection Hc as <-.
  - eapply IH; [lia|exact Hc].
Qed.

Lemma countCells_le_rows p (b : Board) n :
  Forall (λ row, length row = n) b → countCells p b ≤ length b * n.
Proof.
  induction 1 as [|row b Hrow _ IH]; [done|].
  rewrite countCells_cons. pose proof (countRow_le p row). cbn [length]. lia.
Qed.

Lemma countCells_full_rows p (b : Board) n :
  Forall (λ row, length row = n) b →
  countCells p b = length b * n →
  ∀ r c cell, cellAt b r c = Some cell → p cell = true.
Proof.
  unfold cellAt. induction 1 as [|row b Hrow Hrows IH]; intros Hfull r c cell Hc.
  - destruct r; discriminate.
  - pose proof (countCells_le_rows p b n Hrows) as Hle.
    pose proof (countRow_le p row) as Hle'.
    rewrite countCells_cons in Hfull. cbn [length] in Hfull.
    destruct r as [|r]; cbn in Hc.
    + eapply (countRow_full p row); [lia|exact Hc].
    + eapply IH; [lia|exact Hc].
Qed.

Lemma countCells_le p b :
  isGrid b → countCells p b ≤ GRID_SIZE * GRID_SIZE.
Proof.
  intros [Hlen Hrows]. rewrite <- Hlen at 1.
  by apply countCells_le_rows.
Qed.

Lemma countCells_full p b :
  isGrid b → countCells p b = GRID_SIZE * GRID_SIZE →
  ∀ r c cell, cellAt b r c = Some cell → p cell = true.
Proof.
  intros [Hlen Hrows] Hfull. apply (countCells_full_rows p b GRID_SIZE Hrows).
  by rewrite Hlen.
Qed.

Lemma countCells_initializeBoard p :
  p emptyCell = false → countCells p initializeBoard = 0.
Proof.
  intros Hp. unfold initializeBoard.
  assert (Hrow : countRow p (replicate GRID_SIZE emptyCell) = 0).
  { induction GRID_SIZE as [|n IH]; [done|].
    cbn [replicate]. rewrite countRow_cons, Hp, IH. done. }
  generalize GRID_SIZE at 1. intros n.
  induction n as [|n IH]; [done|].
  cbn [replicate]. rewrite countCells_cons, Hrow, IH. done.
Qed.

(** *** The unsolved cells of [handleHint] *)

Lemma elem_of_unsolvedInRow r c0 row r' c' :
  (r', c') ∈ unsolvedInRow r c0 row ↔
  r' = r ∧ ∃ i cell, c' = c0 + i ∧ row !! i = Some cell ∧ isCorrect cell = false.
Proof.
  revert c0. induction row as [|y row IH]; intros c0; cbn [unsolvedInRow].
  - split; [by intros ?%elem_of_nil|]. intros (_ & i & cell & _ & Hi & _).
    destruct i; discriminate.
  - rewrite elem_of_app, IH. split.
    + intros [Hhd|(-> & i & cell & -> & Hi & Hc)].
      * destruct (isCorrect y) eqn:Hy; [by apply elem_of_nil in Hhd|].
        apply list_elem_of_singleton in Hhd as [= -> ->].
        split; [done|]. exists 0, y. split; [lia|done].
      * split; [done|]. exists (S i), cell. split; [lia|done].
    + intros (-> & [|i] & cell & -> & Hi & Hc).
      * injection Hi as ->. left. rewrite Hc, Nat.add_0_r.
        apply list_elem_of_singleton. done.
      * right. split; [done|]. exists i, cell. split; [lia|done].
Qed.

Lemma elem_of_unsolvedFrom r0 b r' c' :
  (r', c') ∈ unsolvedFrom r0 b ↔
  ∃ i cell, r' = r0 + i ∧ cellAt b i c' = Some cell ∧ isCorrect cell = false.
Proof.
  unfold cellAt. revert r0.
  induction b as [|row b IH]; intros r0; cbn [unsolvedFrom].
  - split; [by intros ?%elem_of_nil|]. intros (i & cell & _ & Hi & _).
    destruct i; discriminate.
  - rewrite elem_of_app, IH, elem_of_unsolvedInRow. split.
    + intros [(-> & j & cell & -> & Hj & Hc)|(i & cell & -> & Hi & Hc)].
      * exists 0, cell. split; [lia|done].
      * exists (S i), cell. split; [lia|done].
    + intros ([|i] & cell & -> & Hi & Hc).
      * left. split; [lia|]. exists c', cell. done.
      * right. exists i, cell. split; [lia|done].
Qed.

Lemma elem_of_unsolvedCells b r c :
  (r, c) ∈ unsolvedCells b ↔
  ∃ cell, cellAt b r c = Some cell ∧ isCorrect cell = false.
Proof.
  unfold unsolvedCells. rewrite elem_of_unsolvedFrom. split.
  - intros (i & cell & -> & Hi & Hc). by exists cell.
  - intros (cell & Hi & Hc). by exists r, cell.
Qed.

Lemma length_unsolvedInRow r c0 row :
  length (unsolvedInRow r c0 row) + countRow isCorrect row = length row.
Proof.
  revert c0. induction row as [|y row IH]; intros c0; [done|].
  cbn [unsolvedInRow]. rewrite length_app, countRow_cons.
  specialize (IH (S c0)). cbn [length].
  destruct (isCorrect y); cbn [length indicator]; lia.
Qed.

Lemma length_unsolvedFrom r0 (b : Board) n :
  Forall (λ row, length row = n) b →
  length (unsolvedFrom r0 b) + countCells isCorrect b = length b * n.
Proof.
  intros Hrows. revert r0.
  induction Hrows as [|row b Hrow _ IH]; intros r0; [done|].
  cbn [unsolvedFrom]. rewrite length_app, countCells_cons.
  pose proof (length_unsolvedInRow r0 0 row). specialize (IH (S r0)).
  cbn [length]. lia.
Qed.

Lemma length_unsolvedCells b :
  isGrid b →
  length (unsolvedCells b) + countCells isCorrect b = GRID_SIZE * GRID_SIZE.
Proof.
  intros [Hlen Hrows]. rewrite <- Hlen at 1.
  by apply length_unsolvedFrom.
Qed.

(** *** The search for the hinted value on the board *)

Lemma findInRow_Some row v c n j :
  findInRow row v c n = Some (Some j) →
  ∃ cell, row !! j = Some cell ∧ holdsValue v cell = true.
Proof.
  revert c. induction n as [|n IH]; intros c; cbn [findInRow]; [discriminate|].
  destruct (row !! c) as [cell|] eqn:Hc; [|discriminate]. cbn.
  destruct (holdsValue v cell) eqn:Hv.
  - intros [= <-]. by exists cell.
  - apply IH.
Qed.

Lemma findInRow_None row v c n :
  findInRow row v c n = Some None →
  ∀ i cell, c ≤ i < c + n → row !! i = Some cell → holdsValue v cell = false.
Proof.
  revert c. induction n as [|n IH]; intros c; cbn [findInRow]; [intros; lia|].
  destruct (row !! c) as [cell0|] eqn:Hc; [|discriminate]. cbn.
  destruct (holdsValue v cell0) eqn:Hv; [discriminate|].
  intros Hrest i cell Hi Hcell.
  destruct (decide (i = c)) as [->|Hne]; [congruence|].
  apply (IH (S c) Hrest i cell); [lia|done].
Qed.

Lemma findInRow_is_Some row v c n :
  c + n ≤ length row → is_Some (findInRow row v c n).
Proof.
  revert c. induction n as [|n IH]; intros c Hlen; cbn [findInRow]; [by eexists|].
  destruct (lookup_lt_is_Some_2 row c) as [cell ->]; [lia|]. cbn.
  destruct (holdsValue v cell); [by eexists|]. apply IH. lia.
Qed.

Lemma findFromRow_Some b v r n r' c' :
  findFromRow b v r n = Some (Some (r', c')) →
  ∃ cell, cellAt b r' c' = Some cell ∧ holdsValue v cell = true.
Proof.
  unfold cellAt.
  revert r. induction n as [|n IH]; intros r; cbn [findFromRow]; [discriminate|].
  destruct (b !! r) as [row|] eqn:Hr; [|discriminate]. cbn [mbind option_bind].
  destruct (findInRow row v 0 GRID_SIZE) as [[c|]|] eqn:Hfind; cbn [mbind option_bind];
    [|apply IH|discriminate].
  intros [= <- <-]. rewrite Hr. cbn [mbind option_bind]. by eapply findInRow_Some.
Qed.

Lemma findFromRow_None b v r n :
  findFromRow b v r n = Some None →
  ∀ i j cell, r ≤ i < r + n → j < GRID_SIZE →
    cellAt b i j = Some cell → holdsValue v cell = false.
Proof.
  unfold cellAt.
  revert r. induction n as [|n IH]; intros r; cbn [findFromRow]; [intros; lia|].
  destruct (b !! r) as [row|] eqn:Hr; [|discriminate]. cbn [mbind option_bind].
  destruct (findInRow row v 0 GRID_SIZE) as [[c|]|] eqn:Hfind; cbn [mbind option_bind];
    [discriminate| |discriminate].
  intros Hrest i j cell Hi Hj Hcell.
  destruct (decide (i = r)) as [->|Hne].
  - rewrite Hr in Hcell. cbn [mbind option_bind] in Hcell.
    apply (findInRow_None row v 0 GRID_SIZE Hfind j cell); [lia|done].
  - apply (IH (S r) Hrest i j cell); [lia|done|done].
Qed.

Lemma findFromRow_is_Some b v r n :
  isGrid b → r + n ≤ GRID_SIZE → is_Some (findFromRow b v r n).
Proof.
  intros Hg. revert r. induction n as [|n IH]; intros r Hlen; cbn [findFromRow];
    [by eexists|].
  destruct (lookup_lt_is_Some_2 b r) as [row Hrow]; [destruct Hg; lia|].
  rewrite Hrow. cbn [mbind option_bind].
  destruct (findInRow_is_Some row v 0 GRID_SIZE) as [found ->].
  { by rewrite (isGrid_row b r row Hg Hrow). }
  cbn [mbind option_bind]. destruct found; [by eexists|]. apply IH. lia.
Qed.

Lemma findOnBoard_Some b v r c :
  findOnBoard b v = Some (Some (r, c)) →
  ∃ cell, cellAt b r c = Some cell ∧ holdsValue v cell = true.
Proof. apply findFromRow_Some. Qed.

Lemma findOnBoard_None b v :
  isGrid b → findOnBoard b v = Some None →
  ∀ r c cell, cellAt b r c = Some cell → holdsValue v cell = false.
Proof.
  intros Hg Hfind r c cell Hcell.
  destruct (cellAt_lt b r c cell Hg Hcell).
  apply (findFromRow_None b v 0 GRID_SIZE Hfind r c cell); [lia|done|done].
Qed.

Lemma findOnBoard_is_Some b v : isGrid b → is_Some (findOnBoard b v).
Proof. intros Hg. by apply findFromRow_is_Some. Qed.

(** ** The handlers, case by case *)

Lemma tileAt_outside b r c :
  isGrid b → GRID_SIZE ≤ r ∨ GRID_SIZE ≤ c → tileAt b r c = None.
Proof.
  intros Hg Hout. unfold tileAt.
  destruct (cellAt b r c) as [cell|] eqn:Hcell; [|done].
  destruct (cellAt_lt b r c cell Hg Hcell). lia.
Qed.

Lemma neighbourFits_cases b inGrid r c e :
  isGrid b →
  (inGrid = true → r < GRID_SIZE ∧ c < GRID_SIZE) →
  (neighbourFits b inGrid r c e = Some true
   ∧ (inGrid = true → ∀ t, tileAt b r c = Some t → value t = e))
  ∨ (neighbourFits b inGrid r c e = Some false
     ∧ inGrid = true ∧ ∃ t, tileAt b r c = Some t ∧ value t ≠ e).
Proof.
  intros Hg Hin. unfold neighbourFits, tileAt.
  destruct inGrid; [|left; split; [done|discriminate]].
  destruct (Hin eq_refl) as [Hr Hc].
  destruct (cellAt_is_Some b r c Hg Hr Hc) as [cell ->].
  cbn [mbind option_bind].
  destruct (tile cell) as [t|]; [|left; split; [done|discriminate]].
  destruct (decide (value t = e)) as [He|He].
  - left. rewrite bool_decide_eq_true_2 by done. split; [done|].
    by intros _ t' [= <-].
  - right. rewrite bool_decide_eq_false_2 by done. split; [done|].
    split; [done|]. by exists t.
Qed.

Lemma isSequenceValid_cases b row col v :
  isGrid b → row < GRID_SIZE → col < GRID_SIZE →
  (isSequenceValid b row col v = Some true ∧ sequenceFits b row col v)
  ∨ (isSequenceValid b row col v = Some false ∧ sequenceViolated b row col v).
Proof.
  intros Hg Hrow Hcol. unfold isSequenceValid.
  pose proof (neighbourFits_cases b (bool_decide (0 < row)) (row - 1) col (v - 9)%Z Hg)
    as Hup.
  pose proof (neighbourFits_cases b (bool_decide (row < GRID_SIZE - 1)) (row + 1) col
                (v + 9)%Z Hg) as Hdown.
  pose proof (neighbourFits_cases b (bool_decide (0 < col)) row (col - 1) (v - 1)%Z Hg)
    as Hleft.
  pose proof (neighbourFits_cases b (bool_decide (col < GRID_SIZE - 1)) row (col + 1)
                (v + 1)%Z Hg) as Hright.
  destruct Hup as [[-> Hup]|(-> & Hin & t & Ht & Hne)];
    [intros ?%bool_decide_eq_true; lia| |].
  2: { destruct Hdown as [[-> _]|(-> & _)]; [intros ?%bool_decide_eq_true; lia| |];
       (destruct Hleft as [[-> _]|(-> & _)]; [intros ?%bool_decide_eq_true; lia| |]);
       (destruct Hright as [[-> _]|(-> & _)]; [intros ?%bool_decide_eq_true; lia| |]);
       right; (split; [done|]); left; exists t; apply bool_decide_eq_true in Hin; done. }
  destruct Hdown as [[-> Hdown]|(-> & Hin & t & Ht & Hne)];
    [intros ?%bool_decide_eq_true; lia| |].
  2: { destruct Hleft as [[-> _]|(-> & _)]; [intros ?%bool_decide_eq_true; lia| |];
       (destruct Hright as [[-> _]|(-> & _)]; [intros ?%bool_decide_eq_true; lia| |]);
       right; (split; [done|]); right; left; exists t; done. }
  destruct Hleft as [[-> Hleft]|(-> & Hin & t & Ht & Hne)];
    [intros ?%bool_decide_eq_true; lia| |].
  2: { destruct Hright as [[-> _]|(-> & _)]; [intros ?%bool_decide_eq_true; lia| |];
       right; (split; [done|]); right; right; left; exists t;
       apply bool_decide_eq_true in Hin; done. }
  destruct Hright as [[-> Hright]|(-> & Hin & t & Ht & Hne)];
    [intros ?%bool_decide_eq_true; lia| |].
  2: { right. split; [done|]. right; right; right. by exists t. }
  left. split; [done|]. repeat split.
  - intros t Hpos. apply Hup. by apply bool_decide_eq_true_2.
  - intros t Ht. destruct (decide (row < GRID_SIZE - 1)) as [Hlt|Hge].
    + apply Hdown; [by apply bool_decide_eq_true_2|done].
    + rewrite tileAt_outside in Ht; [done|done|left; lia].
  - intros t Hpos. apply Hleft. by apply bool_decide_eq_true_2.
  - intros t Ht. destruct (decide (col < GRID_SIZE - 1)) as [Hlt|Hge].
    + apply Hright; [by apply bool_decide_eq_true_2|done].
    + rewrite tileAt_outside in Ht; [done|done|right; lia].
Qed.

Lemma sequenceViolated_not_fits b row col v :
  sequenceViolated b row col v → ¬ sequenceFits b row col v.
Proof.
  intros Hv (Hup & Hdown & Hleft & Hright).
  destruct Hv as [(t & Hpos & Ht & Hne)|[(t & Ht & Hne)|[(t & Hpos & Ht & Hne)|(t & Ht & Hne)]]];
    eauto.
Qed.

Lemma isSequenceValid_fits b row col v :
  isGrid b → row < GRID_SIZE → col < GRID_SIZE →
  sequenceFits b row col v → isSequenceValid b row col v = Some true.
Proof.
  intros Hg Hrow Hcol Hfits.
  destruct (isSequenceValid_cases b row col v Hg Hrow Hcol) as [[-> _]|[_ Hv]]; [done|].
  by apply sequenceViolated_not_fits in Hv.
Qed.

Lemma isSequenceValid_violated b row col v :
  isGrid b → row < GRID_SIZE → col < GRID_SIZE →
  sequenceViolated b row col v → isSequenceValid b row col v = Some false.
Proof.
  intros Hg Hrow Hcol Hv.
  destruct (isSequenceValid_cases b row col v Hg Hrow Hcol) as [[_ Hfits]|[-> _]]; [|done].
  by apply sequenceViolated_not_fits in Hv.
Qed.

Lemma dependentAt_cases b inGrid r c :
  isGrid b →
  (inGrid = true → r < GRID_SIZE ∧ c < GRID_SIZE) →
  (inGrid = false → GRID_SIZE ≤ r ∨ GRID_SIZE ≤ c) →
  (dependentAt b inGrid r c = Some true ∧ tileAt b r c ≠ None)
  ∨ (dependentAt b inGrid r c = Some false ∧ tileAt b r c = None).
Proof.
  intros Hg Hin Hout. unfold dependentAt. destruct inGrid.
  - destruct (Hin eq_refl) as [Hr Hc]. unfold tileAt, isOccupied.
    destruct (cellAt_is_Some b r c Hg Hr Hc) as [cell ->].
    cbn [mbind option_bind]. destruct (tile cell); [by left|by right].
  - right. split; [done|]. apply tileAt_outside; auto.
Qed.

Lemma hasDependentTile_cases b row col :
  isGrid b → row < GRID_SIZE → col < GRID_SIZE →
  (hasDependentTile b row col = Some true
   ∧ (tileAt b (row + 1) col ≠ None ∨ tileAt b row (col + 1) ≠ None))
  ∨ (hasDependentTile b row col = Some false
     ∧ tileAt b (row + 1) col = None ∧ tileAt b row (col + 1) = None).
Proof.
  intros Hg Hrow Hcol. unfold hasDependentTile.
  destruct (dependentAt_cases b (bool_decide (row < GRID_SIZE - 1)) (row + 1) col Hg)
    as [[-> Hbelow]|[-> Hbelow]].
  - intros ?%bool_decide_eq_true. lia.
  - intros ?%bool_decide_eq_false. lia.
  - left. auto.
  - destruct (dependentAt_cases b (bool_decide (col < GRID_SIZE - 1)) row (col + 1) Hg)
      as [[-> Hright]|[-> Hright]].
    + intros ?%bool_decide_eq_true. lia.
    + intros ?%bool_decide_eq_false. lia.
    + left. auto.
    + right. auto.
Qed.

Lemma isUIInteractive_placing s : gamePhase s = placing → isUIInteractive s = true.
Proof. intros H. unfold isUIInteractive. by rewrite H. Qed.

Lemma isUIInteractive_frozen s : gamePhase s ≠ placing → isUIInteractive s = false.
Proof. intros H. unfold isUIInteractive. by apply bool_decide_eq_false_2. Qed.

Lemma isOccupied_tile cell : isOccupied cell = true ↔ tile cell ≠ None.
Proof. unfold isOccupied. destruct (tile cell); split; done. Qed.

(** ** The model of [parseInt] on sample inputs *)

Example parseInt_digit : parseInt "7"%string = Some 7%Z.
Proof. reflexivity. Qed.

Example parseInt_empty : parseInt ""%string = None.
Proof. reflexivity. Qed.

Example parseInt_letter : parseInt "x"%string = None.
Proof. reflexivity. Qed.

Example parseInt_sign_only : parseInt "-"%string = None.
Proof. reflexivity. Qed.

Example parseInt_prefix : parseInt " 12a"%string = Some 12%Z.
Proof. reflexivity. Qed.

(** ** The placement validator *)

(** C9.  For every value [v] of 1..81, [calculateBase v] is
    [floor((v - 1) / 9) + 1], and it lies between 1 and 9. *)
Theorem calculateBase_formula_range (v : Z) :
  (1 ≤ v ≤ 81)%Z →
  calculateBase v = ((v - 1) `div` 9 + 1)%Z ∧ (1 ≤ calculateBase v ≤ 9)%Z.
Proof.
  intros Hv. split; [reflexivity|]. unfold calculateBase.
  assert (0 ≤ (v - 1) `div` 9 ≤ 8)%Z; [|lia].
  split.
  - apply Z.div_pos; lia.
  - apply Z.lt_succ_r. apply Z.div_lt_upper_bound; lia.
Qed.

(** The largest value, 81, has base 9. *)
Lemma calculateBase_formula_range_witness :
  calculateBase 81 = ((81 - 1) `div` 9 + 1)%Z ∧ (1 ≤ calculateBase 81 ≤ 9)%Z.
Proof. apply (calculateBase_formula_range 81). lia. Defined.

(** C8.  In the phases 'final_challenge' and 'won' a placement, a tile return
    and a hint leave the whole state as it is (board, palette, correctness
    counter and hint counter included) and play no sound. *)
Theorem frozen_outside_placing (s : State) :
  gamePhase s = final_challenge ∨ gamePhase s = won →
  (∀ row col, handleDrop row col s = Some (s, []))
  ∧ (∀ t fromRow fromCol, handleTileReturn t fromRow fromCol s = Some (s, []))
  ∧ (∀ pick, handleHint pick s = Some (s, [])).
Proof.
  intros Hphase.
  assert (Hui : isUIInteractive s = false).
  { apply isUIInteractive_frozen. destruct Hphase as [-> | ->]; discriminate. }
  unfold handleDrop, handleTileReturn, handleHint. rewrite Hui. done.
Qed.

(** After the game is won nothing moves any more. *)
Lemma frozen_outside_placing_witness :
  (∀ row col, handleDrop row col wonState = Some (wonState, []))
  ∧ (∀ t fromRow fromCol,
       handleTileReturn t fromRow fromCol wonState = Some (wonState, []))
  ∧ (∀ pick, handleHint pick wonState = Some (wonState, [])).
Proof.
  apply (frozen_outside_placing wonState). right. vm_compute. reflexivity.
Defined.

(** C1.  In the placing phase, a drop of the dragged tile on an empty cell
    of its own column whose occupied neighbours fit the sequence is accepted:
    the cell now holds the tile, with status 'correct' iff the solution has
    the tile's value there and 'incorrect' otherwise, no palette tile has the
    tile's value any more, and the counter is incremented iff the status is
    'correct'. *)
Theorem handleDrop_accepts (s : State) (row col : nat) (dragged : TileData)
    (target : BoardCell) :
  gamePhase s = placing →
  draggedTile s = Some dragged →
  isGrid (boardState s) →
  isGrid (solution s) →
  cellAt (boardState s) row col = Some target →
  tile target = None →
  base dragged = (Z.of_nat col + 1)%Z →
  sequenceFits (boardState s) row col (value dragged) →
  let ok := bool_decide (solutionAt (solution s) row col = Some (value dragged)) in
  ∃ s',
    handleDrop row col s = Some (s', [if ok then SndCorrect else SndIncorrect])
    ∧ cellAt (boardState s') row col =
        Some {| tile := Some dragged;
                status := if ok then StCorrect else StIncorrect;
                isHint := false |}
    ∧ (∀ r c, (r, c) ≠ (row, col) →
         cellAt (boardState s') r c = cellAt (boardState s) r c)
    ∧ paletteTiles s' = filter (λ t, value t ≠ value dragged) (paletteTiles s)
    ∧ (∀ t, t ∈ paletteTiles s' → value t ≠ value dragged)
    ∧ correctTilesCount s' = correctTilesCount s + indicator ok
    ∧ hintsUsed s' = hintsUsed s
    ∧ gamePhase s' = placing
    ∧ solution s' = solution s.
Proof.
  intros Hphase Hdrag Hboard Hsol Htarget Hempty Hbase Hfits ok.
  destruct (cellAt_lt _ _ _ _ Hboard Htarget) as [Hrow Hcol].
  destruct (solutionAt_is_Some (solution s) row col Hsol Hrow Hcol) as [v Hv].
  unfold handleDrop.
  rewrite (isUIInteractive_placing s Hphase), Hdrag, Htarget.
  cbn [negb mbind option_bind]. unfold isOccupied. rewrite Hempty.
  rewrite (bool_decide_eq_false_2 (base dragged ≠ _)) by (intros Hne; by apply Hne).
  rewrite (isSequenceValid_fits _ _ _ _ Hboard Hrow Hcol Hfits).
  cbn [negb mbind option_bind].
  unfold solutionAt in Hv, ok. unfold solutionAt.
  destruct (solution s !! row) as [solutionRow|] eqn:Hsrow; [|discriminate].
  cbn [mbind option_bind] in *. subst ok. rewrite Hv.
  assert (Hok : bool_decide (v = value dragged)
                = bool_decide (Some v = Some (value dragged))).
  { apply bool_decide_ext. split; [by intros ->|by intros [= ->]]. }
  rewrite Hok. eexists. split; [reflexivity|]. cbn [boardState paletteTiles
    correctTilesCount hintsUsed gamePhase solution].
  split; [by eapply cellAt_setCell_eq|].
  split; [intros r c Hne; apply cellAt_setCell_ne; congruence|].
  split; [done|].
  split; [by intros t [Ht _]%list_elem_of_filter|].
  split; [|done]. destruct (bool_decide (Some v = Some (value dragged))); cbn [indicator]; lia.
Qed.

(** Scenario 1 of the spec: value 1 dropped on cell (0, 0) of the empty board
    is accepted and correct, and the counter becomes 1. *)
Lemma handleDrop_accepts_witness :
  ∃ s',
    handleDrop 0 0 scenario1 = Some (s', [SndCorrect])
    ∧ cellAt (boardState s') 0 0 =
        Some {| tile := Some (tileOf 1); status := StCorrect; isHint := false |}
    ∧ (∀ r c, (r, c) ≠ (0, 0) →
         cellAt (boardState s') r c = cellAt (boardState scenario1) r c)
    ∧ paletteTiles s' = filter (λ t, value t ≠ 1%Z) (paletteTiles scenario1)
    ∧ (∀ t, t ∈ paletteTiles s' → value t ≠ 1%Z)
    ∧ correctTilesCount s' = 1
    ∧ hintsUsed s' = 0
    ∧ gamePhase s' = placing
    ∧ solution s' = canonicalSolution.
Proof.
  apply (handleDrop_accepts scenario1 0 0 (tileOf 1) emptyCell).
  - reflexivity.
  - reflexivity.
  - apply isGrid_initializeBoard.
  - split; [reflexivity|]. vm_compute. repeat constructor.
  - reflexivity.
  - reflexivity.
  - reflexivity.
  - repeat split; intros t; try (intros Hpos; vm_compute in Hpos; lia);
      intros Ht; vm_compute in Ht; discriminate.
Defined.

(** C2, amended.  In the placing phase a drop of the dragged tile is
    rejected, in this order, (1) silently when the target cell is occupied,
    (2) with the 'incorrect' sound when the tile's base is not the column's,
    (3) with the 'incorrect' sound when an occupied neighbour breaks the
    sequence; each rejection leaves the whole state (board, palette, counter,
    phase) as it is. *)
Theorem handleDrop_rejects (s : State) (row col : nat) (dragged : TileData)
    (target : BoardCell) :
  gamePhase s = placing →
  draggedTile s = Some dragged →
  isGrid (boardState s) →
  cellAt (boardState s) row col = Some target →
  (tile target ≠ None → handleDrop row col s = Some (s, []))
  ∧ (tile target = None → base dragged ≠ (Z.of_nat col + 1)%Z →
       handleDrop row col s = Some (s, [SndIncorrect]))
  ∧ (tile target = None → base dragged = (Z.of_nat col + 1)%Z →
       sequenceViolated (boardState s) row col (value dragged) →
       handleDrop row col s = Some (s, [SndIncorrect])).
Proof.
  intros Hphase Hdrag Hboard Htarget.
  destruct (cellAt_lt _ _ _ _ Hboard Htarget) as [Hrow Hcol].
  unfold handleDrop.
  rewrite (isUIInteractive_placing s Hphase), Hdrag, Htarget.
  cbn [negb mbind option_bind]. unfold isOccupied.
  split; [|split].
  - intros Hocc. by destruct (tile target).
  - intros -> Hbase. by rewrite bool_decide_eq_true_2.
  - intros -> Hbase Hviolated.
    rewrite (bool_decide_eq_false_2 (base dragged ≠ _)) by (intros Hne; by apply Hne).
    by rewrite (isSequenceValid_violated _ _ _ _ Hboard Hrow Hcol Hviolated).
Qed.

(** Scenario 2 of the spec: a tile of base 2 dropped on column 0. *)
Lemma handleDrop_rejects_witness :
  (tile emptyCell ≠ None → handleDrop 0 0 scenario2 = Some (scenario2, []))
  ∧ (tile emptyCell = None → base (tileOf 10) ≠ (Z.of_nat 0 + 1)%Z →
       handleDrop 0 0 scenario2 = Some (scenario2, [SndIncorrect]))
  ∧ (tile emptyCell = None → base (tileOf 10) = (Z.of_nat 0 + 1)%Z →
       sequenceViolated (boardState scenario2) 0 0 (value (tileOf 10)) →
       handleDrop 0 0 scenario2 = Some (scenario2, [SndIncorrect])).
Proof.
  apply (handleDrop_rejects scenario2 0 0 (tileOf 10) emptyCell).
  - reflexivity.
  - reflexivity.
  - apply isGrid_initializeBoard.
  - reflexivity.
Defined.

(** C2 as stated fails: a drop on an occupied cell is rejected without the
    'incorrect' sound, so not every rejection signals it. *)
Lemma handleDrop_occupied_is_silent :
  tileAt (boardState onePlaced) 0 0 = Some (tileOf 1)
  ∧ draggedTile onePlaced = Some (tileOf 2)
  ∧ gamePhase onePlaced = placing
  ∧ handleDrop 0 0 onePlaced = Some (onePlaced, [])
  ∧ ¬ (∀ s row col dragged target,
         gamePhase s = placing →
         draggedTile s = Some dragged →
         cellAt (boardState s) row col = Some target →
         tile target ≠ None →
         ∃ sounds,
           handleDrop row col s = Some (s, sounds) ∧ SndIncorrect ∈ sounds).
Proof.
  repeat split. intros Hclaim.
  destruct (Hclaim onePlaced 0 0 (tileOf 2)
              {| tile := Some (tileOf 1); status := StCorrect; isHint := false |})
    as (sounds & Hrun & Hin); try done.
  injection Hrun as <-. by apply elem_of_nil in Hin.
Qed.

(** C3, amended.  In the placing phase the tile of an occupied cell goes back
    to the palette only if the cell is not 'correct' and the cells below it
    and to its right are not occupied.  A 'correct' cell rejects the return
    silently; a dependent tile rejects it with the 'incorrect' sound; both
    leave the whole state as it is.  An accepted return empties the cell and
    appends the tile to the palette. *)
Theorem handleTileReturn_cases (s : State) (row col : nat) (cell : BoardCell)
    (t : TileData) :
  gamePhase s = placing →
  isGrid (boardState s) →
  cellAt (boardState s) row col = Some cell →
  tile cell = Some t →
  (status cell = StCorrect → handleTileReturn t row col s = Some (s, []))
  ∧ (status cell ≠ StCorrect →
       tileAt (boardState s) (row + 1) col ≠ None
       ∨ tileAt (boardState s) row (col + 1) ≠ None →
       handleTileReturn t row col s = Some (s, [SndIncorrect]))
  ∧ (status cell ≠ StCorrect →
       tileAt (boardState s) (row + 1) col = None →
       tileAt (boardState s) row (col + 1) = None →
       ∃ s',
         handleTileReturn t row col s = Some (s', [SndReturn])
         ∧ cellAt (boardState s') row col = Some emptyCell
         ∧ (∀ r c, (r, c) ≠ (row, col) →
              cellAt (boardState s') r c = cellAt (boardState s) r c)
         ∧ paletteTiles s' = paletteTiles s ++ [t]
         ∧ correctTilesCount s' = correctTilesCount s
         ∧ hintsUsed s' = hintsUsed s
         ∧ gamePhase s' = placing
         ∧ solution s' = solution s).
Proof.
  intros Hphase Hboard Hcell Htile.
  destruct (cellAt_lt _ _ _ _ Hboard Hcell) as [Hrow Hcol].
  unfold handleTileReturn.
  rewrite (isUIInteractive_placing s Hphase), Hcell.
  cbn [negb mbind option_bind]. unfold isCorrect.
  split; [|split].
  - intros Hst. by rewrite bool_decide_eq_true_2.
  - intros Hst Hdep. rewrite bool_decide_eq_false_2 by done.
    destruct (hasDependentTile_cases _ _ _ Hboard Hrow Hcol) as [[-> _]|[_ [Hb Hr]]];
      [done|]. by destruct Hdep.
  - intros Hst Hbelow Hright. rewrite bool_decide_eq_false_2 by done.
    destruct (hasDependentTile_cases _ _ _ Hboard Hrow Hcol) as [[_ Hdep]|[-> _]];
      [by destruct Hdep|].
    eexists. split; [reflexivity|].
    cbn [boardState paletteTiles correctTilesCount hintsUsed gamePhase solution].
    split; [by eapply cellAt_setCell_eq|].
    split; [intros r c Hne; apply cellAt_setCell_ne; congruence|done].
Qed.

(** The misplaced tile 2 of cell (0, 0), with no tile below or to its right. *)
Lemma handleTileReturn_cases_witness :
  (status {| tile := Some (tileOf 2); status := StIncorrect; isHint := false |}
   = StCorrect →
   handleTileReturn (tileOf 2) 0 0 twoMisplaced = Some (twoMisplaced, []))
  ∧ (status {| tile := Some (tileOf 2); status := StIncorrect; isHint := false |}
     ≠ StCorrect →
     tileAt (boardState twoMisplaced) (0 + 1) 0 ≠ None
     ∨ tileAt (boardState twoMisplaced) 0 (0 + 1) ≠ None →
     handleTileReturn (tileOf 2) 0 0 twoMisplaced
     = Some (twoMisplaced, [SndIncorrect]))
  ∧ (status {| tile := Some (tileOf 2); status := StIncorrect; isHint := false |}
     ≠ StCorrect →
     tileAt (boardState twoMisplaced) (0 + 1) 0 = None →
     tileAt (boardState twoMisplaced) 0 (0 + 1) = None →
     ∃ s',
       handleTileReturn (tileOf 2) 0 0 twoMisplaced = Some (s', [SndReturn])
       ∧ cellAt (boardState s') 0 0 = Some emptyCell
       ∧ (∀ r c, (r, c) ≠ (0, 0) →
            cellAt (boardState s') r c = cellAt (boardState twoMisplaced) r c)
       ∧ paletteTiles s' = paletteTiles twoMisplaced ++ [tileOf 2]
       ∧ correctTilesCount s' = correctTilesCount twoMisplaced
       ∧ hintsUsed s' = hintsUsed twoMisplaced
       ∧ gamePhase s' = placing
       ∧ solution s' = solution twoMisplaced).
Proof.
  apply (handleTileReturn_cases twoMisplaced 0 0
           {| tile := Some (tileOf 2); status := StIncorrect; isHint := false |}
           (tileOf 2)).
  - reflexivity.
  - apply isGrid_setCell, isGrid_initializeBoard.
  - reflexivity.
  - reflexivity.
Defined.

(** C3 as stated fails: the return of a tile from a 'correct' cell is
    rejected without the 'incorrect' sound, so not every rejection signals
    it. *)
Lemma handleTileReturn_locked_is_silent :
  cellAt (boardState onePlaced) 0 0
  = Some {| tile := Some (tileOf 1); status := StCorrect; isHint := false |}
  ∧ gamePhase onePlaced = placing
  ∧ handleTileReturn (tileOf 1) 0 0 onePlaced = Some (onePlaced, [])
  ∧ ¬ (∀ s row col cell t,
         gamePhase s = placing →
         cellAt (boardState s) row col = Some cell →
         tile cell = Some t →
         status cell = StCorrect →
         ∃ sounds,
           handleTileReturn t row col s = Some (s, sounds)
           ∧ SndIncorrect ∈ sounds).
Proof.
  repeat split. intros Hclaim.
  destruct (Hclaim onePlaced 0 0
              {| tile := Some (tileOf 1); status := StCorrect; isHint := false |}
              (tileOf 1))
    as (sounds & Hrun & Hin); try done.
  injection Hrun as <-. by apply elem_of_nil in Hin.
Qed.

Lemma unsolvedCells_nil b :
  unsolvedCells b = [] ↔
  ∀ r c cell, cellAt b r c = Some cell → status cell = StCorrect.
Proof.
  split.
  - intros Hnil r c cell Hcell.
    destruct (decide (status cell = StCorrect)) as [|Hne]; [done|].
    assert (Hin : (r, c) ∈ unsolvedCells b).
    { apply elem_of_unsolvedCells. exists cell. split; [done|].
      by apply bool_decide_eq_false_2. }
    rewrite Hnil in Hin. by apply elem_of_nil in Hin.
  - intros Hall. destruct (unsolvedCells b) as [|[r c] rest] eqn:Hun; [done|].
    assert (Hin : (r, c) ∈ unsolvedCells b) by (rewrite Hun; left).
    apply elem_of_unsolvedCells in Hin as (cell & Hcell & Hst).
    apply bool_decide_eq_false in Hst. by specialize (Hall r c cell Hcell).
Qed.

Lemma unsolvedCells_lookup b pick r c :
  unsolvedCells b !! pick = Some (r, c) →
  ∃ cell, cellAt b r c = Some cell ∧ status cell ≠ StCorrect.
Proof.
  intros Hpick. apply list_elem_of_lookup_2 in Hpick.
  apply elem_of_unsolvedCells in Hpick as (cell & Hcell & Hst).
  exists cell. split; [done|]. by apply bool_decide_eq_false in Hst.
Qed.

(** What [handleHint] does once it has picked the unsolved cell
    [(hintRow, hintCol)]. *)
Lemma handleHint_picked s pick hintRow hintCol :
  gamePhase s = placing →
  isGrid (boardState s) →
  isGrid (solution s) →
  unsolvedCells (boardState s) !! pick = Some (hintRow, hintCol) →
  ∃ target correctValue found,
    cellAt (boardState s) hintRow hintCol = Some target
    ∧ status target ≠ StCorrect
    ∧ solutionAt (solution s) hintRow hintCol = Some correctValue
    ∧ findOnBoard (boardState s) correctValue = Some found
    ∧ handleHint pick s =
      Some ({| solution := solution s;
               boardState :=
                 setCell
                   match found with
                   | Some (r, c) => setCell (boardState s) r c emptyCell
                   | None => boardState s
                   end
                   hintRow hintCol
                   {| tile := Some (tileOf correctValue);
                      status := StCorrect; isHint := true |};
               paletteTiles :=
                 match found with
                 | Some _ => paletteTiles s ++ option_list (tile target)
                 | None =>
                     filter (λ t, value t ≠ correctValue)
                       (paletteTiles s ++ option_list (tile target))
                 end;
               draggedTile := draggedTile s;
               correctTilesCount := correctTilesCount s + 1;
               hintsUsed := hintsUsed s + 1;
               gamePhase := gamePhase s;
               blinkingCell := blinkingCell s;
               finalCodeAnswer := finalCodeAnswer s;
               finalCodeInput := finalCodeInput s;
               challengeShake := challengeShake s |}, [SndHint]).
Proof.
  intros Hphase Hboard Hsol Hpick.
  destruct (unsolvedCells_lookup _ _ _ _ Hpick) as (target & Htarget & Hst).
  destruct (cellAt_lt _ _ _ _ Hboard Htarget) as [Hrow Hcol].
  destruct (solutionAt_is_Some (solution s) hintRow hintCol Hsol Hrow Hcol)
    as [correctValue Hv].
  destruct (findOnBoard_is_Some (boardState s) correctValue Hboard) as [found Hfound].
  exists target, correctValue, found. repeat (split; [done|]).
  unfold handleHint.
  rewrite (isUIInteractive_placing s Hphase). cbn [negb].
  rewrite bool_decide_eq_false_2.
  2: { apply lookup_lt_Some in Hpick. lia. }
  rewrite Hpick. cbn [mbind option_bind]. rewrite Hv. cbn [mbind option_bind].
  rewrite Htarget. cbn [mbind option_bind]. rewrite Hfound. cbn [mbind option_bind].
  assert (Hcell1 : ∃ cell1,
    cellAt match found with
           | Some (r, c) => setCell (boardState s) r c emptyCell
           | None => boardState s
           end hintRow hintCol = Some cell1 ∧ isCorrect cell1 = false).
  { destruct found as [[r c]|].
    - destruct (findOnBoard_Some _ _ _ _ Hfound) as (holder & Hholder & _).
      rewrite (cellAt_setCell _ _ _ _ _ _ holder Hholder).
      destruct (decide _); [by exists emptyCell|].
      exists target. split; [done|]. by apply bool_decide_eq_false_2.
    - exists target. split; [done|]. by apply bool_decide_eq_false_2. }
  destruct Hcell1 as (cell1 & Hcell1 & Hunsolved). cbv zeta.
  rewrite Hcell1. cbn [mbind option_bind]. rewrite Hunsolved.
  unfold tileOf.
  destruct found as [[r c]|], (tile target);
    cbn [option_list]; rewrite ?app_nil_r; reflexivity.
Qed.

Lemma unsolvedCells_nonempty b :
  (∃ r c cell, cellAt b r c = Some cell ∧ status cell ≠ StCorrect) ↔
  0 < length (unsolvedCells b).
Proof.
  split.
  - intros (r & c & cell & Hcell & Hst).
    destruct (unsolvedCells b) eqn:Hun; [|cbn; lia].
    pose proof (proj1 (unsolvedCells_nil b) Hun r c cell Hcell). done.
  - intros Hlen. destruct (unsolvedCells b) as [|[r c] rest] eqn:Hun; [cbn in Hlen; lia|].
    destruct (unsolvedCells_lookup b 0 r c) as (cell & Hcell & Hst); [by rewrite Hun|].
    by exists r, c, cell.
Qed.

(** C4, amended.  In the placing phase, when every cell is 'correct' a hint
    changes nothing.  Otherwise it picks a cell that is not 'correct'; the
    tile that cell held, if any, is appended to the palette; if some board
    cell holds the cell's solution value, one such cell is emptied (its tile
    is not added to the palette: the value moves to the hinted cell), and if
    none does, the tiles of that value are removed from the palette; the
    hinted cell then holds the solution's tile with status 'correct' and
    [isHint] set, and both counters are incremented. *)
Theorem handleHint_cases (s : State) (pick : nat) :
  gamePhase s = placing →
  isGrid (boardState s) →
  isGrid (solution s) →
  ((∀ r c cell, cellAt (boardState s) r c = Some cell → status cell = StCorrect) →
   handleHint pick s = Some (s, [SndHint]))
  ∧ ((∃ r c cell, cellAt (boardState s) r c = Some cell ∧ status cell ≠ StCorrect) ↔
     0 < length (unsolvedCells (boardState s)))
  ∧ (∀ hintRow hintCol,
       unsolvedCells (boardState s) !! pick = Some (hintRow, hintCol) →
       ∃ target correctValue s',
         cellAt (boardState s) hintRow hintCol = Some target
         ∧ status target ≠ StCorrect
         ∧ solutionAt (solution s) hintRow hintCol = Some correctValue
         ∧ handleHint pick s = Some (s', [SndHint])
         ∧ cellAt (boardState s') hintRow hintCol =
             Some {| tile := Some (tileOf correctValue);
                     status := StCorrect; isHint := true |}
         ∧ correctTilesCount s' = correctTilesCount s + 1
         ∧ hintsUsed s' = hintsUsed s + 1
         ∧ gamePhase s' = placing
         ∧ solution s' = solution s
         ∧ ((∃ r c holder,
               cellAt (boardState s) r c = Some holder
               ∧ holdsValue correctValue holder = true
               ∧ paletteTiles s' = paletteTiles s ++ option_list (tile target)
               ∧ ∀ r' c', (r', c') ≠ (hintRow, hintCol) →
                   cellAt (boardState s') r' c' =
                   if decide ((r', c') = (r, c)) then Some emptyCell
                   else cellAt (boardState s) r' c')
            ∨ ((∀ r c holder, cellAt (boardState s) r c = Some holder →
                  holdsValue correctValue holder = false)
               ∧ paletteTiles s' =
                   filter (λ t, value t ≠ correctValue)
                     (paletteTiles s ++ option_list (tile target))
               ∧ ∀ r' c', (r', c') ≠ (hintRow, hintCol) →
                   cellAt (boardState s') r' c' = cellAt (boardState s) r' c'))).
Proof.
  intros Hphase Hboard Hsol. split; [|split].
  - intros Hall. apply (proj2 (unsolvedCells_nil _)) in Hall. unfold handleHint.
    rewrite (isUIInteractive_placing s Hphase), Hall. done.
  - apply unsolvedCells_nonempty.
  - intros hintRow hintCol Hpick.
    destruct (handleHint_picked s pick hintRow hintCol Hphase Hboard Hsol Hpick)
      as (target & correctValue & found & Htarget & Hst & Hv & Hfound & Hrun).
    exists target, correctValue. eexists.
    split; [exact Htarget|]. split; [exact Hst|]. split; [exact Hv|].
    split; [exact Hrun|].
    cbn [boardState paletteTiles correctTilesCount hintsUsed gamePhase solution].
    assert (Hin : ∃ cell1,
      cellAt match found with
             | Some (r, c) => setCell (boardState s) r c emptyCell
             | None => boardState s
             end hintRow hintCol = Some cell1).
    { destruct found as [[r c]|]; [|by exists target].
      destruct (findOnBoard_Some _ _ _ _ Hfound) as (holder & Hholder & _).
      rewrite (cellAt_setCell _ _ _ _ _ _ holder Hholder).
      destruct (decide _); by eexists. }
    destruct Hin as [cell1 Hcell1].
    split; [by eapply cellAt_setCell_eq|]. repeat (split; [done|]).
    destruct found as [[r c]|].
    + left. destruct (findOnBoard_Some _ _ _ _ Hfound) as (holder & Hholder & Hholds).
      exists r, c, holder. repeat (split; [done|]).
      intros r' c' Hne. rewrite cellAt_setCell_ne by congruence.
      rewrite (cellAt_setCell _ _ _ _ _ _ holder Hholder).
      destruct (decide ((r, c) = (r', c'))), (decide ((r', c') = (r, c)));
        congruence.
    + right. split; [by apply findOnBoard_None|]. split; [done|].
      intros r' c' Hne. apply cellAt_setCell_ne. congruence.
Qed.

(** A hint for cell (1, 0) while its value, 2, sits in cell (0, 0). *)
Lemma handleHint_cases_witness :
  ∃ target correctValue s',
    cellAt (boardState twoMisplaced) 1 0 = Some target
    ∧ status target ≠ StCorrect
    ∧ solutionAt (solution twoMisplaced) 1 0 = Some correctValue
    ∧ handleHint 9 twoMisplaced = Some (s', [SndHint])
    ∧ cellAt (boardState s') 1 0 =
        Some {| tile := Some (tileOf correctValue);
                status := StCorrect; isHint := true |}
    ∧ correctTilesCount s' = correctTilesCount twoMisplaced + 1
    ∧ hintsUsed s' = hintsUsed twoMisplaced + 1
    ∧ gamePhase s' = placing
    ∧ solution s' = solution twoMisplaced
    ∧ ((∃ r c holder,
          cellAt (boardState twoMisplaced) r c = Some holder
          ∧ holdsValue correctValue holder = true
          ∧ paletteTiles s' = paletteTiles twoMisplaced ++ option_list (tile target)
          ∧ ∀ r' c', (r', c') ≠ (1, 0) →
              cellAt (boardState s') r' c' =
              if decide ((r', c') = (r, c)) then Some emptyCell
              else cellAt (boardState twoMisplaced) r' c')
       ∨ ((∀ r c holder, cellAt (boardState twoMisplaced) r c = Some holder →
             holdsValue correctValue holder = false)
          ∧ paletteTiles s' =
              filter (λ t, value t ≠ correctValue)
                (paletteTiles twoMisplaced ++ option_list (tile target))
          ∧ ∀ r' c', (r', c') ≠ (1, 0) →
              cellAt (boardState s') r' c' = cellAt (boardState twoMisplaced) r' c')).
Proof.
  refine (proj2 (proj2 (handleHint_cases twoMisplaced 9 _ _ _)) 1 0 _).
  - reflexivity.
  - apply isGrid_setCell, isGrid_initializeBoard.
  - split; [reflexivity|]. vm_compute. repeat constructor.
  - vm_compute. reflexivity.
Defined.

(** C4 as stated fails: the value the hint needs sits in another cell; that
    cell is emptied, but its tile is not added to the palette. *)
Lemma handleHint_evicted_tile_not_in_palette :
  gamePhase twoMisplaced = placing
  ∧ unsolvedCells (boardState twoMisplaced) !! 9 = Some (1, 0)
  ∧ solutionAt (solution twoMisplaced) 1 0 = Some 2%Z
  ∧ tileAt (boardState twoMisplaced) 0 0 = Some (tileOf 2)
  ∧ (∃ s',
       handleHint 9 twoMisplaced = Some (s', [SndHint])
       ∧ cellAt (boardState s') 0 0 = Some emptyCell
       ∧ tileAt (boardState s') 1 0 = Some (tileOf 2)
       ∧ paletteTiles s' = paletteTiles twoMisplaced
       ∧ ∀ t, t ∈ paletteTiles s' → value t ≠ 2%Z)
  ∧ ¬ (∀ s pick hintRow hintCol correctValue r c holder t s' sounds,
         gamePhase s = placing →
         unsolvedCells (boardState s) !! pick = Some (hintRow, hintCol) →
         solutionAt (solution s) hintRow hintCol = Some correctValue →
         (r, c) ≠ (hintRow, hintCol) →
         cellAt (boardState s) r c = Some holder →
         tile holder = Some t →
         value t = correctValue →
         handleHint pick s = Some (s', sounds) →
         cellAt (boardState s') r c = Some emptyCell ∧ t ∈ paletteTiles s').
Proof.
  assert (Hrun : ∃ s',
    handleHint 9 twoMisplaced = Some (s', [SndHint])
    ∧ cellAt (boardState s') 0 0 = Some emptyCell
    ∧ tileAt (boardState s') 1 0 = Some (tileOf 2)
    ∧ paletteTiles s' = paletteTiles twoMisplaced
    ∧ ∀ t, t ∈ paletteTiles s' → value t ≠ 2%Z).
  { eexists. split; [vm_compute; reflexivity|].
    cbn [boardState paletteTiles]. repeat split.
    apply Forall_forall.
    repeat (constructor; [discriminate|]). constructor. }
  repeat split; [exact Hrun|].
  destruct Hrun as (s' & Hhint & _ & _ & _ & Hnot). intros Hclaim.
  destruct (Hclaim twoMisplaced 9 1 0 2%Z 0 0
              {| tile := Some (tileOf 2); status := StIncorrect; isHint := false |}
              (tileOf 2) s' [SndHint]) as [_ Hin]; try done.
  by apply (Hnot (tileOf 2) Hin).
Qed.

(** ** Inversion of the handlers *)

Lemma handleDrop_inv row col s s' sounds :
  handleDrop row col s = Some (s', sounds) →
  s' = s
  ∨ ∃ dragged target ok,
      gamePhase s = placing
      ∧ draggedTile s = Some dragged
      ∧ cellAt (boardState s) row col = Some target
      ∧ tile target = None
      ∧ (ok = true ↔ solutionAt (solution s) row col = Some (value dragged))
      ∧ s' = {| solution := solution s;
                boardState :=
                  setCell (boardState s) row col
                    {| tile := Some dragged;
                       status := if ok then StCorrect else StIncorrect;
                       isHint := false |};
                paletteTiles :=
                  filter (λ t, value t ≠ value dragged) (paletteTiles s);
                draggedTile := None;
                correctTilesCount :=
                  if ok then correctTilesCount s + 1 else correctTilesCount s;
                hintsUsed := hintsUsed s;
                gamePhase := gamePhase s;
                blinkingCell := blinkingCell s;
                finalCodeAnswer := finalCodeAnswer s;
                finalCodeInput := finalCodeInput s;
                challengeShake := challengeShake s |}.
Proof.
  unfold handleDrop. intros Hrun.
  destruct (isUIInteractive s) eqn:Hui; cbn [negb] in Hrun; [|left; congruence].
  apply bool_decide_eq_true in Hui.
  destruct (draggedTile s) as [dragged|] eqn:Hdrag; [|left; congruence].
  destruct (cellAt (boardState s) row col) as [target|] eqn:Htarget; [|discriminate].
  cbn [mbind option_bind] in Hrun. unfold isOccupied in Hrun.
  destruct (tile target) eqn:Htile; [left; congruence|].
  destruct (bool_decide (base dragged ≠ _)); [left; congruence|].
  destruct (isSequenceValid _ _ _ _) as [[]|]; cbn [mbind option_bind negb] in Hrun;
    [|left; congruence|discriminate].
  unfold solutionAt.
  destruct (solution s !! row) as [solutionRow|] eqn:Hsrow; [|discriminate].
  cbn [mbind option_bind] in *. right.
  exists dragged, target. eexists.
  repeat (split; [done|]). split; [|by injection Hrun as <- _].
  destruct (solutionRow !! col) as [v|]; [|done].
  rewrite bool_decide_eq_true. split; [by intros ->|by intros [= ->]].
Qed.

Lemma handleTileReturn_inv t row col s s' sounds :
  handleTileReturn t row col s = Some (s', sounds) →
  s' = s
  ∨ ∃ cell,
      gamePhase s = placing
      ∧ cellAt (boardState s) row col = Some cell
      ∧ status cell ≠ StCorrect
      ∧ s' = {| solution := solution s;
                boardState := setCell (boardState s) row col emptyCell;
                paletteTiles := paletteTiles s ++ [t];
                draggedTile := draggedTile s;
                correctTilesCount := correctTilesCount s;
                hintsUsed := hintsUsed s;
                gamePhase := gamePhase s;
                blinkingCell := blinkingCell s;
                finalCodeAnswer := finalCodeAnswer s;
                finalCodeInput := finalCodeInput s;
                challengeShake := challengeShake s |}.
Proof.
  unfold handleTileReturn. intros Hrun.
  destruct (isUIInteractive s) eqn:Hui; cbn [negb] in Hrun; [|left; congruence].
  apply bool_decide_eq_true in Hui.
  destruct (cellAt (boardState s) row col) as [cell|] eqn:Hcell; [|discriminate].
  cbn [mbind option_bind] in Hrun. unfold isCorrect in Hrun.
  destruct (decide (status cell = StCorrect)) as [Hst|Hst].
  - rewrite bool_decide_eq_true_2 in Hrun by done. left. congruence.
  - rewrite bool_decide_eq_false_2 in Hrun by done.
    destruct (hasDependentTile _ _ _) as [[]|]; [left; congruence| |discriminate].
    right. exists cell. repeat (split; [done|]). by injection Hrun as <- _.
Qed.

Lemma handleHint_inv pick s s' sounds :
  handleHint pick s = Some (s', sounds) →
  s' = s
  ∨ ∃ hintRow hintCol correctValue target found cell,
      gamePhase s = placing
      ∧ unsolvedCells (boardState s) !! pick = Some (hintRow, hintCol)
      ∧ solutionAt (solution s) hintRow hintCol = Some correctValue
      ∧ cellAt (boardState s) hintRow hintCol = Some target
      ∧ findOnBoard (boardState s) correctValue = Some found
      ∧ cellAt match found with
               | Some (r, c) => setCell (boardState s) r c emptyCell
               | None => boardState s
               end hintRow hintCol = Some cell
      ∧ s' = {| solution := solution s;
                boardState :=
                  setCell
                    match found with
                    | Some (r, c) => setCell (boardState s) r c emptyCell
                    | None => boardState s
                    end
                    hintRow hintCol
                    {| tile := Some (tileOf correctValue);
                       status := StCorrect; isHint := true |};
                paletteTiles :=
                  match found with
                  | Some _ => paletteTiles s ++ option_list (tile target)
                  | None =>
                      filter (λ t, value t ≠ correctValue)
                        (paletteTiles s ++ option_list (tile target))
                  end;
                draggedTile := draggedTile s;
                correctTilesCount :=
                  if isCorrect cell then correctTilesCount s
                  else correctTilesCount s + 1;
                hintsUsed := hintsUsed s + 1;
                gamePhase := gamePhase s;
                blinkingCell := blinkingCell s;
                finalCodeAnswer := finalCodeAnswer s;
                finalCodeInput := finalCodeInput s;
                challengeShake := challengeShake s |}.
Proof.
  unfold handleHint. intros Hrun.
  destruct (isUIInteractive s) eqn:Hui; cbn [negb] in Hrun; [|left; congruence].
  apply bool_decide_eq_true in Hui.
  destruct (bool_decide (length _ = 0)); [left; congruence|].
  destruct (unsolvedCells (boardState s) !! pick) as [[hintRow hintCol]|] eqn:Hpick;
    [|discriminate].
  cbn [mbind option_bind] in Hrun.
  destruct (solutionAt (solution s) hintRow hintCol) as [correctValue|] eqn:Hv;
    [|discriminate].
  cbn [mbind option_bind] in Hrun.
  destruct (cellAt (boardState s) hintRow hintCol) as [target|] eqn:Htarget;
    [|discriminate].
  cbn [mbind option_bind] in Hrun.
  destruct (findOnBoard (boardState s) correctValue) as [found|] eqn:Hfound;
    [|discriminate].
  cbn [mbind option_bind] in Hrun. cbv zeta in Hrun.
  destruct (cellAt _ hintRow hintCol) as [cell|] eqn:Hcell in Hrun; [|discriminate].
  cbn [mbind option_bind] in Hrun.
  right. exists hintRow, hintCol, correctValue, target, found, cell.
  repeat (split; [done|]). injection Hrun as <- _. unfold tileOf.
  destruct found as [[r c]|], (tile target);
    cbn [option_list]; rewrite ?app_nil_r; reflexivity.
Qed.

(** ** The counter invariant *)

Lemma NoDup_concat_distinct (sol : list (list Z)) :
  NoDup (concat sol) → distinctSolution sol.
Proof.
  unfold distinctSolution, solutionAt.
  induction sol as [|row sol IH]; intros Hnd r c r' c' v Hv Hv'.
  - destruct r; discriminate.
  - cbn [concat] in Hnd. apply NoDup_app in Hnd as (Hrow & Hdisj & Hrest).
    assert (Hin : ∀ i j, sol !! i ≫= (.!! j) = Some v → v ∈ concat sol).
    { intros i j Hij. destruct (sol !! i) as [row'|] eqn:Hi; [|discriminate].
      apply list_elem_of_In, in_concat. exists row'.
      split; apply list_elem_of_In; by eapply list_elem_of_lookup_2. }
    destruct r as [|r], r' as [|r']; cbn in Hv, Hv'.
    + f_equal. exact (NoDup_lookup row c c' v Hrow Hv Hv').
    + exfalso. apply (Hdisj v); [exact (list_elem_of_lookup_2 _ _ _ Hv)|].
      exact (Hin _ _ Hv').
    + exfalso. apply (Hdisj v); [exact (list_elem_of_lookup_2 _ _ _ Hv')|].
      exact (Hin _ _ Hv).
    + specialize (IH Hrest r c r' c' v Hv Hv'). congruence.
Qed.

Lemma CountInv_ext s s' :
  boardState s' = boardState s →
  solution s' = solution s →
  correctTilesCount s' = correctTilesCount s →
  CountInv s → CountInv s'.
Proof.
  intros Hb Hs Hc [? ? ? ? ?]. split; rewrite ?Hb, ?Hs, ?Hc; assumption.
Qed.

Lemma consistent_empty_not_correct sol b r c cell :
  consistent sol b → cellAt b r c = Some cell → tile cell = None →
  isCorrect cell = false.
Proof.
  intros Hcons Hcell Htile. apply bool_decide_eq_false_2. intros Hst.
  apply (Hcons r c cell Hcell) in Hst as (t & Ht & _). congruence.
Qed.

Lemma consistent_setCell sol b r c x old :
  consistent sol b →
  cellAt b r c = Some old →
  (status x = StCorrect ↔ ∃ t, tile x = Some t ∧ solutionAt sol r c = Some (value t)) →
  consistent sol (setCell b r c x).
Proof.
  intros Hcons Hold Hx r' c' cell.
  rewrite (cellAt_setCell b r c x r' c' old Hold).
  destruct (decide _) as [[= <- <-]|Hne].
  - by intros [= <-].
  - apply Hcons.
Qed.

Lemma consistent_emptyCell sol r c :
  status emptyCell = StCorrect ↔
  ∃ t, tile emptyCell = Some t ∧ solutionAt sol r c = Some (value t).
Proof. split; [discriminate|]. by intros (t & [=] & _). Qed.

Lemma isCorrect_false cell : status cell ≠ StCorrect → isCorrect cell = false.
Proof. intros H. by apply bool_decide_eq_false_2. Qed.

Lemma CountInv_handleDrop row col s s' sounds :
  CountInv s → handleDrop row col s = Some (s', sounds) →
  CountInv s'
  ∧ countCells isCorrect (boardState s) ≤ countCells isCorrect (boardState s').
Proof.
  intros Hinv Hrun.
  destruct (handleDrop_inv _ _ _ _ _ Hrun)
    as [->|(dragged & target & ok & _ & _ & Htarget & Hempty & Hok & ->)]; [done|].
  destruct Hinv as [Hboard Hsol Hdist Hcons Hcount].
  pose proof (consistent_empty_not_correct _ _ _ _ _ Hcons Htarget Hempty) as Hnot.
  pose proof (countCells_setCell isCorrect (boardState s) row col
                {| tile := Some dragged;
                   status := if ok then StCorrect else StIncorrect;
                   isHint := false |} target Htarget) as Hcells.
  assert (Hnew : isCorrect {| tile := Some dragged;
                              status := if ok then StCorrect else StIncorrect;
                              isHint := false |} = ok) by (by destruct ok).
  rewrite Hnot, Hnew in Hcells. cbn [indicator] in Hcells.
  split; [split|]; cbn [boardState solution correctTilesCount].
  - by apply isGrid_setCell.
  - done.
  - done.
  - eapply consistent_setCell; [done|done|]. cbn [status tile]. split.
    + destruct ok; [|discriminate]. intros _. exists dragged. split; [done|].
      by apply Hok.
    + intros (t & [= <-] & Ht). apply Hok in Ht as ->. done.
  - destruct ok; cbn [indicator] in Hcells; lia.
  - lia.
Qed.

Lemma CountInv_handleTileReturn t row col s s' sounds :
  CountInv s → handleTileReturn t row col s = Some (s', sounds) →
  CountInv s'
  ∧ countCells isCorrect (boardState s) ≤ countCells isCorrect (boardState s').
Proof.
  intros Hinv Hrun.
  destruct (handleTileReturn_inv _ _ _ _ _ _ Hrun)
    as [->|(cell & _ & Hcell & Hst & ->)]; [done|].
  destruct Hinv as [Hboard Hsol Hdist Hcons Hcount].
  pose proof (countCells_setCell isCorrect (boardState s) row col emptyCell cell Hcell)
    as Hcells.
  rewrite (isCorrect_false cell Hst) in Hcells.
  change (isCorrect emptyCell) with false in Hcells. cbn [indicator] in Hcells.
  split; [split|]; cbn [boardState solution correctTilesCount].
  - by apply isGrid_setCell.
  - done.
  - done.
  - eapply consistent_setCell; [done|done|]. apply consistent_emptyCell.
  - lia.
  - lia.
Qed.

(** The cell a hint evicts is never 'correct'. *)
Lemma hint_evicts_unsolved s hintRow hintCol target correctValue r c holder :
  CountInv s →
  cellAt (boardState s) hintRow hintCol = Some target →
  status target ≠ StCorrect →
  solutionAt (solution s) hintRow hintCol = Some correctValue →
  cellAt (boardState s) r c = Some holder →
  holdsValue correctValue holder = true →
  status holder ≠ StCorrect ∧ (r, c) ≠ (hintRow, hintCol).
Proof.
  intros [Hboard Hsol Hdist Hcons Hcount] Htarget Hst Hv Hholder Hholds.
  unfold holdsValue in Hholds.
  destruct (tile holder) as [t|] eqn:Ht; [|discriminate].
  apply bool_decide_eq_true in Hholds.
  assert (Hnot : status holder ≠ StCorrect).
  { intros Hcorrect.
    destruct (proj1 (Hcons r c holder Hholder) Hcorrect) as (t' & Ht' & Hv').
    assert (t' = t) as -> by congruence. rewrite Hholds in Hv'.
    pose proof (Hdist _ _ _ _ _ Hv Hv') as [= -> ->]. congruence. }
  split; [done|]. intros [= -> ->].
  assert (holder = target) as -> by congruence.
  apply Hst. apply (Hcons hintRow hintCol target Htarget).
  exists t. split; [done|]. by rewrite Hholds.
Qed.

Lemma CountInv_handleHint pick s s' sounds :
  CountInv s → handleHint pick s = Some (s', sounds) →
  CountInv s'
  ∧ countCells isCorrect (boardState s) ≤ countCells isCorrect (boardState s').
Proof.
  intros Hinv Hrun.
  destruct (handleHint_inv _ _ _ _ Hrun)
    as [->|(hintRow & hintCol & correctValue & target & found & cell & _ & Hpick
            & Hv & Htarget & Hfound & Hcell & ->)]; [done|].
  destruct (unsolvedCells_lookup _ _ _ _ Hpick) as (target' & Htarget' & Hst).
  assert (target' = target) as -> by congruence.
  pose proof Hinv as [Hboard Hsol Hdist Hcons Hcount].
  set (hinted := {| tile := Some (tileOf correctValue);
                    status := StCorrect; isHint := true |}).
  assert (Hhinted : status hinted = StCorrect ↔
            ∃ t, tile hinted = Some t
                 ∧ solutionAt (solution s) hintRow hintCol = Some (value t)).
  { split; [|done]. intros _. by exists (tileOf correctValue). }
  destruct found as [[r c]|].
  - destruct (findOnBoard_Some _ _ _ _ Hfound) as (holder & Hholder & Hholds).
    destruct (hint_evicts_unsolved s hintRow hintCol target correctValue r c holder)
      as [Hnot Hne]; [done..|].
    rewrite cellAt_setCell_ne in Hcell by done.
    assert (cell = target) as -> by congruence.
    pose proof (countCells_setCell isCorrect (boardState s) r c emptyCell holder
                  Hholder) as Hevict.
    pose proof (countCells_setCell isCorrect (setCell (boardState s) r c emptyCell)
                  hintRow hintCol hinted target) as Hplace.
    rewrite cellAt_setCell_ne in Hplace by done. specialize (Hplace Htarget).
    rewrite (isCorrect_false holder Hnot) in Hevict.
    rewrite (isCorrect_false target Hst) in Hplace.
    change (isCorrect emptyCell) with false in Hevict.
    change (isCorrect hinted) with true in Hplace.
    cbn [indicator] in Hevict, Hplace.
    split; [split|]; cbn [boardState solution correctTilesCount].
    + by do 2 apply isGrid_setCell.
    + done.
    + done.
    + eapply consistent_setCell; [| |exact Hhinted].
      * eapply consistent_setCell; [done|done|]. apply consistent_emptyCell.
      * by rewrite cellAt_setCell_ne.
    + rewrite (isCorrect_false target Hst). lia.
    + lia.
  - assert (cell = target) as -> by congruence.
    pose proof (countCells_setCell isCorrect (boardState s) hintRow hintCol hinted
                  target Htarget) as Hplace.
    rewrite (isCorrect_false target Hst) in Hplace.
    change (isCorrect hinted) with true in Hplace.
    cbn [indicator] in Hplace.
    split; [split|]; cbn [boardState solution correctTilesCount].
    + by apply isGrid_setCell.
    + done.
    + done.
    + by eapply consistent_setCell.
    + rewrite (isCorrect_false target Hst). lia.
    + lia.
Qed.

Lemma CountInv_newGame solutionGrid shuffledTiles s :
  generated solutionGrid shuffledTiles →
  CountInv (newGame solutionGrid shuffledTiles s).
Proof.
  intros (Hgrid & Hnodup & _ & _). split; cbn [newGame boardState solution correctTilesCount].
  - apply isGrid_initializeBoard.
  - done.
  - by apply NoDup_concat_distinct.
  - intros r c cell ->%cellAt_initializeBoard. apply consistent_emptyCell.
  - by rewrite countCells_initializeBoard.
Qed.

Ltac same_count H :=
  eapply CountInv_ext; [| | |exact H]; reflexivity.

Lemma CountInv_handle ev s s' sounds :
  CountInv s → enabled ev s → handle ev s = Some (s', sounds) → CountInv s'.
Proof.
  intros Hinv Hen Hrun. destruct ev; cbn [handle enabled] in *.
  - unfold handleDragStart in Hrun.
    destruct (isUIInteractive s); injection Hrun as <- _; [|done].
    same_count Hinv.
  - exact (proj1 (CountInv_handleDrop _ _ _ _ _ Hinv Hrun)).
  - destruct (cellAt (boardState s) row col) as [cell|]; [|discriminate].
    cbn [mbind option_bind] in Hrun.
    destruct (tile cell) as [t|]; [|discriminate].
    exact (proj1 (CountInv_handleTileReturn _ _ _ _ _ _ Hinv Hrun)).
  - exact (proj1 (CountInv_handleHint _ _ _ _ Hinv Hrun)).
  - injection Hrun as <- _. same_count Hinv.
  - unfold handleFinalCodeSubmit in Hrun.
    destruct (strictEq _ _); injection Hrun as <- _; same_count Hinv.
  - injection Hrun as <- _. same_count Hinv.
  - injection Hrun as <- _. destruct Hen as [_ Hgen]. by apply CountInv_newGame.
Qed.

Lemma CountInv_phaseEffect randomRow randomCol s s' sounds :
  CountInv s → phaseEffect randomRow randomCol s = Some (s', sounds) → CountInv s'.
Proof.
  intros Hinv Hrun. unfold phaseEffect in Hrun.
  destruct (_ && _); [|by injection Hrun as <- _].
  destruct (solutionAt _ _ _); [|discriminate].
  injection Hrun as <- _. same_count Hinv.
Qed.

(** ** The phase invariant *)

Lemma PhasePre_ext s s' :
  gamePhase s' = gamePhase s →
  correctTilesCount s' = correctTilesCount s →
  solution s' = solution s →
  finalCodeAnswer s' = finalCodeAnswer s →
  (gamePhase s = final_challenge → blinkingCell s' = blinkingCell s) →
  PhasePre s → PhasePre s'.
Proof.
  intros Hp Hc Hs Ha Hb [Hplacing Hchallenge].
  split; rewrite ?Hp, ?Hc, ?Hs, ?Ha; [done|].
  intros Hne. destruct (Hchallenge Hne) as (Hcount & rr & rc & v & Hv & Hans & Hblink).
  split; [done|]. exists rr, rc, v. repeat (split; [done|]).
  intros Hfc. rewrite (Hb Hfc). by apply Hblink.
Qed.

Ltac same_phase H :=
  eapply PhasePre_ext; [| | | | |exact H]; try reflexivity; intros; reflexivity.

Lemma PhaseInv_PhasePre s : PhaseInv s → PhasePre s.
Proof.
  intros [Hplacing Hchallenge]. split; [|done].
  intros Hp. by destruct (Hplacing Hp).
Qed.

(** The three operations keep the phase; outside the placing phase they keep
    the state. *)
Lemma runOp_phase op s s' sounds :
  runOp op s = Some (s', sounds) →
  gamePhase s' = gamePhase s
  ∧ solution s' = solution s
  ∧ finalCodeAnswer s' = finalCodeAnswer s
  ∧ blinkingCell s' = blinkingCell s
  ∧ (gamePhase s ≠ placing → s' = s).
Proof.
  intros Hrun. destruct op; cbn [runOp] in Hrun.
  - destruct (handleDrop_inv _ _ _ _ _ Hrun)
      as [->|(dragged & target & ok & Hp & _ & _ & _ & _ & ->)]; [done|].
    by repeat split.
  - destruct (handleTileReturn_inv _ _ _ _ _ _ Hrun)
      as [->|(cell & Hp & _ & _ & ->)]; [done|].
    by repeat split.
  - destruct (handleHint_inv _ _ _ _ Hrun)
      as [->|(hr & hc & v & target & found & cell & Hp & _ & _ & _ & _ & _ & ->)];
      [done|].
    by repeat split.
Qed.

Lemma PhasePre_runOp op s s' sounds :
  PhasePre s → runOp op s = Some (s', sounds) → PhasePre s'.
Proof.
  intros Hpre Hrun.
  destruct (runOp_phase _ _ _ _ Hrun) as (Hp & Hs & Ha & Hb & Hfrozen).
  destruct (decide (gamePhase s = placing)) as [Hplacing|Hne].
  - split; [intros _; rewrite Ha; by apply Hpre|]. rewrite Hp. done.
  - by rewrite (Hfrozen Hne).
Qed.

Lemma PhasePre_handle ev s s' sounds :
  PhaseInv s → handle ev s = Some (s', sounds) → PhasePre s'.
Proof.
  intros Hinv Hrun. pose proof (PhaseInv_PhasePre s Hinv) as Hpre.
  destruct ev; cbn [handle] in Hrun.
  - unfold handleDragStart in Hrun.
    destruct (isUIInteractive s); injection Hrun as <- _; [|done].
    same_phase Hpre.
  - by apply (PhasePre_runOp (OpPlace row col) s s' sounds).
  - destruct (cellAt (boardState s) row col) as [cell|]; [|discriminate].
    cbn [mbind option_bind] in Hrun.
    destruct (tile cell) as [t|]; [|discriminate].
    by apply (PhasePre_runOp (OpReturn t row col) s s' sounds).
  - by apply (PhasePre_runOp (OpHint pick) s s' sounds).
  - injection Hrun as <- _. same_phase Hpre.
  - unfold handleFinalCodeSubmit in Hrun.
    destruct (strictEq _ _) eqn:Heq; injection Hrun as <- _.
    + assert (Hne : gamePhase s ≠ placing).
      { intros Hp. destruct (inv_placing s Hinv Hp) as [_ Hnone].
        rewrite Hnone in Heq. unfold strictEq in Heq. by destruct (parseInt _). }
      destruct (inv_challenge s Hinv Hne) as (Hcount & rr & rc & v & Hv & Hans & _).
      split; cbn [gamePhase correctTilesCount solution finalCodeAnswer blinkingCell];
        [discriminate|].
      intros _. split; [done|]. exists rr, rc, v. by repeat split.
    + same_phase Hpre.
  - injection Hrun as <- _. same_phase Hpre.
  - injection Hrun as <- _. split; cbn [newGame gamePhase finalCodeAnswer]; done.
Qed.

Lemma PhaseInv_phaseEffect randomRow randomCol s s' sounds :
  PhasePre s → phaseEffect randomRow randomCol s = Some (s', sounds) → PhaseInv s'.
Proof.
  intros [Hplacing Hchallenge] Hrun. unfold phaseEffect in Hrun.
  destruct (decide (gamePhase s = placing)) as [Hp|Hne].
  - rewrite (bool_decide_eq_true_2 _ Hp) in Hrun. cbn [andb] in Hrun.
    destruct (decide (correctTilesCount s = GRID_SIZE * GRID_SIZE)) as [Hfull|Hnot].
    + rewrite (bool_decide_eq_true_2 _ Hfull) in Hrun. cbn [andb] in Hrun.
      rewrite bool_decide_eq_true_2 in Hrun by (rewrite Hfull; cbn; lia).
      destruct (solutionAt _ _ _) as [v|] eqn:Hv; [|discriminate].
      injection Hrun as <- _.
      split; cbn [gamePhase correctTilesCount solution finalCodeAnswer blinkingCell];
        [discriminate|].
      intros _. split; [done|]. by exists randomRow, randomCol, v.
    + rewrite (bool_decide_eq_false_2 _ Hnot) in Hrun. cbn [andb] in Hrun.
      injection Hrun as <- _. split; [|done]. intros _. split; [done|]. by apply Hplacing.
  - rewrite (bool_decide_eq_false_2 _ Hne) in Hrun. cbn [andb] in Hrun.
    injection Hrun as <- _. split; [done|]. exact Hchallenge.
Qed.

(** ** Every reachable state satisfies the invariants *)

Lemma PhaseInv_newGame solutionGrid shuffledTiles s :
  PhaseInv (newGame solutionGrid shuffledTiles s).
Proof. split; cbn [newGame gamePhase correctTilesCount finalCodeAnswer]; done. Qed.

Lemma step_inv ev randomRow randomCol s s' sounds :
  step ev randomRow randomCol s = Some (s', sounds) →
  ∃ s1 sounds1 sounds2,
    handle ev s = Some (s1, sounds1)
    ∧ phaseEffect randomRow randomCol s1 = Some (s', sounds2)
    ∧ sounds = sounds1 ++ sounds2.
Proof.
  unfold step. intros Hrun.
  destruct (handle ev s) as [[s1 sounds1]|]; [|discriminate].
  cbn in Hrun.
  destruct (phaseEffect _ _ s1) as [[s2 sounds2]|] eqn:Heffect; [|discriminate].
  cbn in Hrun. injection Hrun as <- <-.
  exists s1, sounds1, sounds2. by repeat split.
Qed.

Lemma reachable_invariants s : reachable s → CountInv s ∧ PhaseInv s.
Proof.
  induction 1 as [sol tiles Hgen|s ev rr rc s' sounds _ [Hcount Hphase] Hen _ _ Hstep].
  - split; [by apply CountInv_newGame|apply PhaseInv_newGame].
  - destruct (step_inv _ _ _ _ _ _ Hstep) as (s1 & sounds1 & sounds2 & Hh & He & _).
    split.
    + eapply CountInv_phaseEffect; [|exact He]. by eapply CountInv_handle.
    + eapply PhaseInv_phaseEffect; [|exact He]. by eapply PhasePre_handle.
Qed.

(** ** The values of the solution *)

Lemma length_concat_grid {A : Type} (m : list (list A)) :
  isGrid m → length (concat m) = GRID_SIZE * GRID_SIZE.
Proof.
  intros [Hlen Hrows]. rewrite <- Hlen at 1. clear Hlen.
  induction Hrows as [|row m Hrow _ IH]; [done|].
  cbn [concat length]. rewrite length_app, IH, Hrow. lia.
Qed.

Lemma solutionAt_elem_of_concat (sol : list (list Z)) r c v :
  solutionAt sol r c = Some v → v ∈ concat sol.
Proof.
  unfold solutionAt. intros Hv.
  destruct (sol !! r) as [row|] eqn:Hrow; [|discriminate].
  cbn [mbind option_bind] in Hv.
  apply list_elem_of_In, in_concat. exists row.
  split; apply list_elem_of_In; by eapply list_elem_of_lookup_2.
Qed.

(** Generated data holds the values 1..81 and no other. *)
Lemma generated_range solutionGrid shuffledTiles r c v :
  generated solutionGrid shuffledTiles →
  solutionAt solutionGrid r c = Some v → (1 ≤ v ≤ 81)%Z.
Proof.
  intros (Hgrid & Hnodup & Hall & _) Hv.
  apply solutionAt_elem_of_concat in Hv.
  assert (Hvalues : NoDup (Z.of_nat <$> seq 1 81)).
  { apply (NoDup_fmap_2 Z.of_nat), NoDup_seq. }
  assert (Hsub : (Z.of_nat <$> seq 1 81) ⊆+ concat solutionGrid).
  { apply NoDup_submseteq; [done|]. intros x Hx.
    rewrite Forall_forall in Hall. by apply Hall. }
  assert (Hperm : (Z.of_nat <$> seq 1 81) ≡ₚ concat solutionGrid).
  { apply submseteq_length_Permutation; [done|].
    rewrite (length_concat_grid solutionGrid Hgrid), length_fmap, length_seq.
    unfold GRID_SIZE. lia. }
  rewrite <- Hperm in Hv.
  apply list_elem_of_fmap in Hv as (n & -> & Hn). apply elem_of_seq in Hn. lia.
Qed.

Lemma solution_handle ev s s' sounds :
  enabled ev s → handle ev s = Some (s', sounds) →
  solution s' = solution s
  ∨ ∃ shuffledTiles, generated (solution s') shuffledTiles.
Proof.
  intros Hen Hrun. destruct ev; cbn [handle enabled] in *.
  - unfold handleDragStart in Hrun.
    destruct (isUIInteractive s); injection Hrun as <- _; by left.
  - left. destruct (handleDrop_inv _ _ _ _ _ Hrun)
      as [->|(dragged & target & ok & _ & _ & _ & _ & _ & ->)]; done.
  - left. destruct (cellAt (boardState s) row col) as [cell|]; [|discriminate].
    cbn [mbind option_bind] in Hrun.
    destruct (tile cell) as [t|]; [|discriminate]. cbn [mbind option_bind] in Hrun.
    destruct (handleTileReturn_inv _ _ _ _ _ _ Hrun)
      as [->|(cell' & _ & _ & _ & ->)]; done.
  - left. destruct (handleHint_inv _ _ _ _ Hrun)
      as [->|(hr & hc & cv & target & found & cell & _ & _ & _ & _ & _ & _ & ->)];
      done.
  - left. by injection Hrun as <- _.
  - left. unfold handleFinalCodeSubmit in Hrun.
    by destruct (strictEq _ _); injection Hrun as <- _.
  - left. unfold shakeTimeout in Hrun. by injection Hrun as <- _.
  - right. exists shuffledTiles. destruct Hen as [_ Hgen].
    unfold handleNewGameClick in Hrun. by injection Hrun as <- _.
Qed.

Lemma solution_phaseEffect randomRow randomCol s s' sounds :
  phaseEffect randomRow randomCol s = Some (s', sounds) → solution s' = solution s.
Proof.
  unfold phaseEffect. intros Hrun. destruct (_ && _); [|by injection Hrun as <- _].
  destruct (solutionAt _ _ _); [|discriminate]. by injection Hrun as <- _.
Qed.

Lemma reachable_solutionInRange s : reachable s → solutionInRange s.
Proof.
  induction 1 as [sol tiles Hgen|s ev rr rc s' sounds _ IH Hen _ _ Hstep].
  - intros r c v Hv. by apply (generated_range sol tiles r c v).
  - destruct (step_inv _ _ _ _ _ _ Hstep) as (s1 & sounds1 & sounds2 & Hh & He & _).
    intros r c v. rewrite (solution_phaseEffect _ _ _ _ _ He).
    destruct (solution_handle ev s s1 sounds1 Hen Hh) as [->|[tiles Hgen]].
    + apply IH.
    + by apply (generated_range (solution s1) tiles r c v).
Qed.

(** The code of a value of 1..81 is a digit of 1..9. *)
Lemma calculateBase_digit (v : Z) :
  (1 ≤ v ≤ 81)%Z → (1 ≤ calculateBase v ≤ 9)%Z.
Proof.
  intros Hv. unfold calculateBase.
  assert (0 ≤ (v - 1) `div` 9 ≤ 8)%Z; [|lia].
  split.
  - apply Z.div_pos; lia.
  - apply Z.lt_succ_r. apply Z.div_lt_upper_bound; lia.
Qed.

(** The digit of 0..9, typed into the code input, reads back as itself. *)
Lemma parseInt_typed_digit (d : Z) :
  (0 ≤ d ≤ 9)%Z →
  substring 0 1 (toString (Z.to_nat d)) = toString (Z.to_nat d)
  ∧ parseInt (toString (Z.to_nat d)) = Some d.
Proof.
  intros Hd.
  assert (d = 0 ∨ d = 1 ∨ d = 2 ∨ d = 3 ∨ d = 4 ∨ d = 5 ∨ d = 6 ∨ d = 7
          ∨ d = 8 ∨ d = 9)%Z as Hcases by lia.
  repeat destruct Hcases as [->|Hcases]; try subst d; by vm_compute.
Qed.

(** ** The session state machine *)

Lemma isGrid_canonicalSolution : isGrid canonicalSolution.
Proof. split; [reflexivity|]. vm_compute. repeat constructor. Qed.

Lemma generated_canonical : generated canonicalSolution canonicalTiles.
Proof.
  split; [apply isGrid_canonicalSolution|]. split; [|split].
  - apply (bool_decide_unpack (NoDup (concat canonicalSolution))).
    vm_compute. exact I.
  - apply (bool_decide_unpack
             (Forall (λ v, v ∈ concat canonicalSolution) (Z.of_nat <$> seq 1 81))).
    vm_compute. exact I.
  - reflexivity.
Qed.

Lemma reachable_canonicalStart : reachable canonicalStart.
Proof. apply reachable_mount, generated_canonical. Qed.

Lemma handle_keeps_placing ev s s' sounds :
  PhaseInv s → gamePhase s = placing → handle ev s = Some (s', sounds) →
  gamePhase s' = placing.
Proof.
  intros Hinv Hp Hrun. destruct ev; cbn [handle] in Hrun.
  - unfold handleDragStart in Hrun.
    by destruct (isUIInteractive s); injection Hrun as <- _.
  - destruct (runOp_phase (OpPlace row col) _ _ _ Hrun) as [-> _]. done.
  - destruct (cellAt (boardState s) row col) as [cell|]; [|discriminate].
    cbn [mbind option_bind] in Hrun.
    destruct (tile cell) as [t|]; [|discriminate].
    destruct (runOp_phase (OpReturn t row col) _ _ _ Hrun) as [-> _]. done.
  - destruct (runOp_phase (OpHint pick) _ _ _ Hrun) as [-> _]. done.
  - by injection Hrun as <- _.
  - unfold handleFinalCodeSubmit in Hrun.
    destruct (inv_placing s Hinv Hp) as [_ Hnone]. rewrite Hnone in Hrun.
    unfold strictEq in Hrun. destruct (parseInt _); by injection Hrun as <- _.
  - by injection Hrun as <- _.
  - by injection Hrun as <- _.
Qed.

Lemma phaseEffect_placing randomRow randomCol s s' sounds :
  gamePhase s = placing →
  phaseEffect randomRow randomCol s = Some (s', sounds) →
  correctTilesCount s' = correctTilesCount s
  ∧ (correctTilesCount s = 81 → gamePhase s' = final_challenge)
  ∧ (correctTilesCount s ≠ 81 → s' = s).
Proof.
  intros Hp Hrun. unfold phaseEffect in Hrun.
  rewrite (bool_decide_eq_true_2 _ Hp) in Hrun. cbn [andb] in Hrun.
  change (GRID_SIZE * GRID_SIZE) with 81 in Hrun.
  destruct (decide (correctTilesCount s = 81)) as [Hfull|Hnot].
  - rewrite (bool_decide_eq_true_2 _ Hfull) in Hrun. cbn [andb] in Hrun.
    rewrite bool_decide_eq_true_2 in Hrun by lia.
    destruct (solutionAt _ _ _) as [v|]; [|discriminate].
    injection Hrun as <- _. done.
  - rewrite (bool_decide_eq_false_2 _ Hnot) in Hrun. cbn [andb] in Hrun.
    injection Hrun as <- _. done.
Qed.

Lemma phaseEffect_is_Some randomRow randomCol s :
  isGrid (solution s) → randomRow < GRID_SIZE → randomCol < GRID_SIZE →
  is_Some (phaseEffect randomRow randomCol s).
Proof.
  intros Hsol Hr Hc. unfold phaseEffect.
  destruct (_ && _); [|by eexists].
  destruct (solutionAt_is_Some (solution s) randomRow randomCol Hsol Hr Hc) as [v ->].
  by eexists.
Qed.

(** C10.  In every reachable state the statuses are consistent with the
    solution, the solution's values are pairwise distinct, and the
    correctness counter is the number of 'correct' cells; a placement, a
    return and a hint keep all this and never decrease the number of
    'correct' cells; and a cell that holds the value a hint needs for an
    unsolved cell is itself not 'correct', so the hint's eviction never
    empties a 'correct' cell. *)
Theorem counter_counts_correct_cells (s : State) :
  reachable s →
  consistent (solution s) (boardState s)
  ∧ distinctSolution (solution s)
  ∧ correctTilesCount s = countCells isCorrect (boardState s)
  ∧ (∀ op s' sounds,
       runOp op s = Some (s', sounds) →
       consistent (solution s') (boardState s')
       ∧ correctTilesCount s' = countCells isCorrect (boardState s')
       ∧ countCells isCorrect (boardState s) ≤ countCells isCorrect (boardState s'))
  ∧ (∀ pick hintRow hintCol correctValue r c holder,
       unsolvedCells (boardState s) !! pick = Some (hintRow, hintCol) →
       solutionAt (solution s) hintRow hintCol = Some correctValue →
       cellAt (boardState s) r c = Some holder →
       holdsValue correctValue holder = true →
       status holder ≠ StCorrect).
Proof.
  intros Hreach. destruct (reachable_invariants s Hreach) as [Hinv _].
  split; [apply Hinv|]. split; [apply Hinv|]. split; [apply Hinv|]. split.
  - intros op s' sounds Hrun.
    assert (Hstep : CountInv s'
              ∧ countCells isCorrect (boardState s)
                ≤ countCells isCorrect (boardState s')).
    { destruct op; cbn [runOp] in Hrun.
      - by eapply CountInv_handleDrop.
      - by eapply CountInv_handleTileReturn.
      - by eapply CountInv_handleHint. }
    destruct Hstep as [Hinv' Hle]. split; [apply Hinv'|]. split; [apply Hinv'|done].
  - intros pick hintRow hintCol correctValue r c holder Hpick Hv Hholder Hholds.
    destruct (unsolvedCells_lookup _ _ _ _ Hpick) as (target & Htarget & Hst).
    by destruct (hint_evicts_unsolved s hintRow hintCol target correctValue r c holder).
Qed.

(** The invariant at the start of a session on the canonical grid. *)
Lemma counter_counts_correct_cells_witness :
  consistent (solution canonicalStart) (boardState canonicalStart)
  ∧ distinctSolution (solution canonicalStart)
  ∧ correctTilesCount canonicalStart
    = countCells isCorrect (boardState canonicalStart)
  ∧ (∀ op s' sounds,
       runOp op canonicalStart = Some (s', sounds) →
       consistent (solution s') (boardState s')
       ∧ correctTilesCount s' = countCells isCorrect (boardState s')
       ∧ countCells isCorrect (boardState canonicalStart)
         ≤ countCells isCorrect (boardState s'))
  ∧ (∀ pick hintRow hintCol correctValue r c holder,
       unsolvedCells (boardState canonicalStart) !! pick = Some (hintRow, hintCol) →
       solutionAt (solution canonicalStart) hintRow hintCol = Some correctValue →
       cellAt (boardState canonicalStart) r c = Some holder →
       holdsValue correctValue holder = true →
       status holder ≠ StCorrect).
Proof.
  apply (counter_counts_correct_cells canonicalStart).
  apply reachable_canonicalStart.
Defined.

(** One hint and the render after it, in the placing phase. *)
Lemma hint_step s pick randomRow randomCol :
  CountInv s →
  gamePhase s = placing →
  pick < length (unsolvedCells (boardState s)) →
  randomRow < GRID_SIZE → randomCol < GRID_SIZE →
  ∃ s' sounds,
    step (EvHint pick) randomRow randomCol s = Some (s', sounds)
    ∧ correctTilesCount s' = correctTilesCount s + 1
    ∧ (correctTilesCount s' = 81 → gamePhase s' = final_challenge)
    ∧ (correctTilesCount s' < 81 → gamePhase s' = placing).
Proof.
  intros [Hboard Hsol Hdist Hcons Hcount] Hp Hpick Hr Hc.
  destruct (lookup_lt_is_Some_2 _ _ Hpick) as [[hintRow hintCol] Hlookup].
  destruct (handleHint_picked s pick hintRow hintCol Hp Hboard Hsol Hlookup)
    as (target & correctValue & found & _ & _ & _ & _ & Hrun).
  unfold step. cbn [handle]. rewrite Hrun. cbn [mbind option_bind].
  match goal with |- context [phaseEffect _ _ ?s1] => set (hinted := s1) end.
  destruct (phaseEffect_is_Some randomRow randomCol hinted) as [[s' sounds'] Heff];
    [done..|].
  rewrite Heff. cbn [mbind option_bind]. exists s'. eexists. split; [done|].
  destruct (phaseEffect_placing randomRow randomCol hinted s' sounds')
    as (Hsame & Hfull & Hunder); [by subst hinted|done|].
  cbn [hinted correctTilesCount] in Hsame, Hfull, Hunder.
  rewrite Hsame. split; [done|]. split; [done|].
  intros Hlt. rewrite Hunder by lia. by subst hinted.
Qed.

Lemma placing_has_unsolved s :
  CountInv s → PhaseInv s → gamePhase s = placing →
  correctTilesCount s < 81 ∧ 0 < length (unsolvedCells (boardState s)).
Proof.
  intros [Hboard Hsol Hdist Hcons Hcount] Hphase Hp.
  destruct (inv_placing s Hphase Hp) as [Hnot81 Hnone].
  pose proof (countCells_le isCorrect (boardState s) Hboard) as Hle.
  pose proof (length_unsolvedCells (boardState s) Hboard) as Hlen.
  change (GRID_SIZE * GRID_SIZE) with 81 in *. lia.
Qed.

(** Hints alone, each on the first unsolved cell, take a session of the
    placing phase to the final challenge in [81 - correctTilesCount] steps. *)
Lemma repeated_hints_reach_final_challenge n s :
  CountInv s → PhaseInv s → gamePhase s = placing →
  correctTilesCount s + n = 81 →
  ∃ s',
    runEvents (replicate n (EvHint 0)) s = Some s'
    ∧ correctTilesCount s' = 81
    ∧ gamePhase s' = final_challenge.
Proof.
  revert s. induction n as [|n IH]; intros s Hinv Hphase Hp Hn.
  - destruct (placing_has_unsolved s Hinv Hphase Hp). lia.
  - destruct (placing_has_unsolved s Hinv Hphase Hp) as [_ Hunsolved].
    destruct (hint_step s 0 0 0 Hinv Hp Hunsolved) as (s1 & sounds & Hstep & Hc & Hfull & Hless);
      [unfold GRID_SIZE; lia..|].
    cbn [replicate runEvents]. rewrite Hstep. cbn [mbind option_bind].
    destruct (step_inv _ _ _ _ _ _ Hstep) as (s0 & sounds1 & sounds2 & Hh & He & _).
    assert (Hinv1 : CountInv s1).
    { eapply CountInv_phaseEffect; [|exact He].
      exact (proj1 (CountInv_handleHint 0 s s0 sounds1 Hinv Hh)). }
    assert (Hphase1 : PhaseInv s1).
    { eapply PhaseInv_phaseEffect; [|exact He].
      exact (PhasePre_handle (EvHint 0) s s0 sounds1 Hphase Hh). }
    destruct n as [|n].
    + exists s1. split; [done|]. split; [lia|]. apply Hfull. lia.
    + apply IH; [done|done| |lia]. apply Hless. lia.
Qed.

(** C5.  In a reachable state of the placing phase the counter is below 81
    and some cell is unsolved; every hint then adds one to the counter, and
    the render that follows moves the phase to 'final_challenge' exactly
    when the counter has reached 81; after any event the phase is still
    'placing' while the counter is below 81; and hints alone, repeated
    [81 - correctTilesCount] times, end in the final challenge. *)
Theorem hints_lead_to_final_challenge (s : State) :
  reachable s →
  gamePhase s = placing →
  correctTilesCount s < 81
  ∧ 0 < length (unsolvedCells (boardState s))
  ∧ (∀ pick randomRow randomCol,
       pick < length (unsolvedCells (boardState s)) →
       randomRow < GRID_SIZE → randomCol < GRID_SIZE →
       ∃ s' sounds,
         step (EvHint pick) randomRow randomCol s = Some (s', sounds)
         ∧ correctTilesCount s' = correctTilesCount s + 1
         ∧ (correctTilesCount s' = 81 → gamePhase s' = final_challenge)
         ∧ (correctTilesCount s' < 81 → gamePhase s' = placing))
  ∧ (∀ ev randomRow randomCol s' sounds,
       step ev randomRow randomCol s = Some (s', sounds) →
       (correctTilesCount s' < 81 → gamePhase s' = placing)
       ∧ (correctTilesCount s' = 81 → gamePhase s' = final_challenge))
  ∧ (∃ s',
       runEvents (replicate (81 - correctTilesCount s) (EvHint 0)) s = Some s'
       ∧ correctTilesCount s' = 81
       ∧ gamePhase s' = final_challenge).
Proof.
  intros Hreach Hp.
  destruct (reachable_invariants s Hreach) as [Hinv Hphase].
  destruct (placing_has_unsolved s Hinv Hphase Hp) as [Hbelow Hunsolved].
  split; [done|]. split; [done|]. split; [|split].
  3: { apply repeated_hints_reach_final_challenge; [done..|lia]. }
  - intros pick randomRow randomCol Hpick Hr Hc. by apply hint_step.
  - intros ev randomRow randomCol s' sounds Hstep.
    destruct (step_inv _ _ _ _ _ _ Hstep) as (s1 & sounds1 & sounds2 & Hh & He & _).
    pose proof (handle_keeps_placing ev s s1 sounds1 Hphase Hp Hh) as Hp1.
    destruct (phaseEffect_placing randomRow randomCol s1 s' sounds2 Hp1 He)
      as (Hsame & Hfull & Hunder).
    rewrite Hsame. split; [|done].
    intros Hlt. rewrite Hunder by lia. done.
Qed.

(** The start of a session on the canonical grid. *)
Lemma hints_lead_to_final_challenge_witness :
  correctTilesCount canonicalStart < 81
  ∧ 0 < length (unsolvedCells (boardState canonicalStart))
  ∧ (∀ pick randomRow randomCol,
       pick < length (unsolvedCells (boardState canonicalStart)) →
       randomRow < GRID_SIZE → randomCol < GRID_SIZE →
       ∃ s' sounds,
         step (EvHint pick) randomRow randomCol canonicalStart = Some (s', sounds)
         ∧ correctTilesCount s' = correctTilesCount canonicalStart + 1
         ∧ (correctTilesCount s' = 81 → gamePhase s' = final_challenge)
         ∧ (correctTilesCount s' < 81 → gamePhase s' = placing))
  ∧ (∀ ev randomRow randomCol s' sounds,
       step ev randomRow randomCol canonicalStart = Some (s', sounds) →
       (correctTilesCount s' < 81 → gamePhase s' = placing)
       ∧ (correctTilesCount s' = 81 → gamePhase s' = final_challenge))
  ∧ (∃ s',
       runEvents (replicate (81 - correctTilesCount canonicalStart) (EvHint 0))
         canonicalStart = Some s'
       ∧ correctTilesCount s' = 81
       ∧ gamePhase s' = final_challenge).
Proof.
  apply (hints_lead_to_final_challenge canonicalStart).
  - apply reachable_canonicalStart.
  - reflexivity.
Defined.

Lemma reachable_runEvents evs s s' :
  reachable s → allEnabled evs s → runEvents evs s = Some s' → reachable s'.
Proof.
  revert s. induction evs as [|ev evs IH]; intros s Hreach Hen Hrun;
    cbn [runEvents allEnabled] in *.
  - by injection Hrun as <-.
  - destruct Hen as [Hev Hrest].
    destruct (step ev 0 0 s) as [[s1 sounds]|] eqn:Hstep; [|done].
    cbn in Hrun. apply (IH s1); [|done|done].
    eapply reachable_step; [exact Hreach|exact Hev| | |exact Hstep];
      unfold GRID_SIZE; lia.
Qed.

Lemma reachable_challengeState : reachable challengeState.
Proof.
  apply (reachable_runEvents (replicate 81 (EvHint 0)) canonicalStart).
  - apply reachable_canonicalStart.
  - vm_compute. repeat split; discriminate.
  - vm_compute. reflexivity.
Qed.

Lemma final_challenge_phase : gamePhase challengeState = final_challenge.
Proof. vm_compute. reflexivity. Qed.

(** What a submitted guess does, in any state. *)
Lemma handleFinalCodeSubmit_cases s :
  ∃ s',
    handleFinalCodeSubmit s =
      Some (s', [if strictEq (parseInt (finalCodeInput s)) (finalCodeAnswer s)
                 then SndWin else SndIncorrect])
    ∧ solution s' = solution s
    ∧ boardState s' = boardState s
    ∧ paletteTiles s' = paletteTiles s
    ∧ correctTilesCount s' = correctTilesCount s
    ∧ hintsUsed s' = hintsUsed s
    ∧ finalCodeAnswer s' = finalCodeAnswer s
    ∧ if strictEq (parseInt (finalCodeInput s)) (finalCodeAnswer s)
      then gamePhase s' = won
      else gamePhase s' = gamePhase s
           ∧ finalCodeInput s' = EmptyString
           ∧ challengeShake s' = true.
Proof.
  unfold handleFinalCodeSubmit. destruct (strictEq _ _); eexists; by repeat split.
Qed.

Lemma strictEq_Some answer expected :
  strictEq answer (Some expected) = bool_decide (answer = Some expected).
Proof.
  destruct answer as [a|]; cbn [strictEq]; [|done].
  apply bool_decide_ext. split; [by intros ->|by intros [= ->]].
Qed.

Lemma phaseEffect_frozen randomRow randomCol s :
  gamePhase s ≠ placing → phaseEffect randomRow randomCol s = Some (s, []).
Proof.
  intros Hne. unfold phaseEffect. by rewrite (bool_decide_eq_false_2 _ Hne).
Qed.

(** C6.  In a reachable state of the final challenge, the blinking cell is a
    cell of the completed grid, it holds the solution's value [v], and the
    answer is [calculateBase v], a digit of 1..9.  Typing that digit and
    submitting it wins: the input reads back as the answer, the 'win' sound
    is played and the phase becomes 'won'.  Whatever text is typed, the
    input is its first character, and submitting it gives this: if it parses
    to the answer the phase becomes 'won'; otherwise (a wrong digit, or
    nothing that parses) the phase stays 'final_challenge', the input is
    cleared, the shake flag is set and the 'incorrect' sound is played;
    board, palette, counter and answer are as before, and the resulting
    state is again reachable, so that the next guess is treated alike. *)
Theorem final_code_guess (s : State) :
  reachable s →
  gamePhase s = final_challenge →
  ∃ randomRow randomCol v cell t,
    blinkingCell s = Some (randomRow, randomCol)
    ∧ cellAt (boardState s) randomRow randomCol = Some cell
    ∧ tile cell = Some t
    ∧ value t = v
    ∧ solutionAt (solution s) randomRow randomCol = Some v
    ∧ finalCodeAnswer s = Some (calculateBase v)
    ∧ (1 ≤ calculateBase v ≤ 9)%Z
    ∧ (∃ typed s',
         handleFinalCodeChange (toString (Z.to_nat (calculateBase v))) s
           = Some (typed, [])
         ∧ finalCodeInput typed = toString (Z.to_nat (calculateBase v))
         ∧ parseInt (finalCodeInput typed) = Some (calculateBase v)
         ∧ handleFinalCodeSubmit typed = Some (s', [SndWin])
         ∧ gamePhase s' = won
         ∧ reachable s')
    ∧ ∀ text, ∃ typed s',
        handleFinalCodeChange text s = Some (typed, [])
        ∧ finalCodeInput typed = substring 0 1 text
        ∧ handleFinalCodeSubmit typed =
            Some (s', [if bool_decide (parseInt (finalCodeInput typed)
                                       = Some (calculateBase v))
                       then SndWin else SndIncorrect])
        ∧ boardState s' = boardState s
        ∧ paletteTiles s' = paletteTiles s
        ∧ correctTilesCount s' = correctTilesCount s
        ∧ finalCodeAnswer s' = finalCodeAnswer s
        ∧ reachable s'
        ∧ if bool_decide (parseInt (finalCodeInput typed) = Some (calculateBase v))
          then gamePhase s' = won
          else gamePhase s' = final_challenge
               ∧ finalCodeInput s' = EmptyString
               ∧ challengeShake s' = true.
Proof.
  intros Hreach Hp.
  destruct (reachable_invariants s Hreach) as [Hinv Hphase].
  pose proof Hinv as [Hboard Hsol Hdist Hcons Hcount].
  destruct (inv_challenge s Hphase) as (Hfull & rr & rc & v & Hv & Hans & Hblink);
    [by rewrite Hp|].
  destruct (isGrid_lookup_lt _ _ _ _ Hsol Hv) as [Hrr Hrc].
  destruct (cellAt_is_Some (boardState s) rr rc Hboard Hrr Hrc) as [cell Hcell].
  assert (Hcorrect : isCorrect cell = true).
  { eapply (countCells_full isCorrect (boardState s)); [done| |exact Hcell].
    by rewrite <- Hcount. }
  apply bool_decide_eq_true in Hcorrect.
  destruct (proj1 (Hcons rr rc cell Hcell) Hcorrect) as (t & Ht & Hvt).
  exists rr, rc, v, cell, t.
  split; [by apply Hblink|]. split; [done|]. split; [done|].
  split; [congruence|]. split; [done|]. split; [done|].
  pose proof (calculateBase_digit v (reachable_solutionInRange s Hreach rr rc v Hv))
    as Hdigit.
  split; [exact Hdigit|].
  assert (Hguess : ∀ text, ∃ typed s',
    handleFinalCodeChange text s = Some (typed, [])
    ∧ finalCodeInput typed = substring 0 1 text
    ∧ handleFinalCodeSubmit typed =
        Some (s', [if bool_decide (parseInt (finalCodeInput typed)
                                   = Some (calculateBase v))
                   then SndWin else SndIncorrect])
    ∧ boardState s' = boardState s
    ∧ paletteTiles s' = paletteTiles s
    ∧ correctTilesCount s' = correctTilesCount s
    ∧ finalCodeAnswer s' = finalCodeAnswer s
    ∧ reachable s'
    ∧ if bool_decide (parseInt (finalCodeInput typed) = Some (calculateBase v))
      then gamePhase s' = won
      else gamePhase s' = final_challenge
           ∧ finalCodeInput s' = EmptyString
           ∧ challengeShake s' = true);
    [|split; [|exact Hguess]].
  2: {
    destruct (parseInt_typed_digit (calculateBase v)) as [Hfirst Hparse]; [lia|].
    destruct (Hguess (toString (Z.to_nat (calculateBase v))))
      as (typed & s' & Hchange & Hinput & Hrun & _ & _ & _ & _ & Hreach' & Hcases).
    rewrite Hfirst in Hinput. rewrite Hinput, Hparse in Hrun, Hcases.
    rewrite bool_decide_eq_true_2 in Hrun, Hcases by done.
    exists typed, s'. rewrite Hinput. by repeat split. }
  intros text.
  set (typed := {| solution := solution s;
                   boardState := boardState s;
                   paletteTiles := paletteTiles s;
                   draggedTile := draggedTile s;
                   correctTilesCount := correctTilesCount s;
                   hintsUsed := hintsUsed s;
                   gamePhase := gamePhase s;
                   blinkingCell := blinkingCell s;
                   finalCodeAnswer := finalCodeAnswer s;
                   finalCodeInput := substring 0 1 text;
                   challengeShake := challengeShake s |}).
  assert (Htyped : reachable typed).
  { eapply (reachable_step s (EvCodeChange text) 0 0 typed []); [done|exact Hp| | |].
    - unfold GRID_SIZE. lia.
    - unfold GRID_SIZE. lia.
    - unfold step. cbn [handle handleFinalCodeChange mbind option_bind].
      fold typed. rewrite phaseEffect_frozen; [done|]. cbn [typed gamePhase].
      by rewrite Hp. }
  destruct (handleFinalCodeSubmit_cases typed)
    as (s' & Hrun & _ & Hb & Hpal & Hc & _ & Ha & Hcases).
  cbn [typed finalCodeAnswer finalCodeInput boardState paletteTiles
       correctTilesCount gamePhase] in Hrun, Hb, Hpal, Hc, Ha, Hcases.
  rewrite Hans, strictEq_Some in Hrun, Hcases.
  exists typed, s'. split; [done|]. split; [done|]. split; [exact Hrun|].
  repeat (split; [done|]).
  assert (Hne : gamePhase s' ≠ placing).
  { destruct (bool_decide _); [by rewrite Hcases|].
    destruct Hcases as [-> _]. by rewrite Hp. }
  split.
  - eapply (reachable_step typed EvCodeSubmit 0 0 s'); [done|exact Hp| | |].
    + unfold GRID_SIZE. lia.
    + unfold GRID_SIZE. lia.
    + unfold step. cbn [handle]. rewrite Hrun. cbn [mbind option_bind].
      rewrite (phaseEffect_frozen 0 0 s' Hne). cbn. reflexivity.
  - destruct (bool_decide _); [done|]. by rewrite Hp in Hcases.
Qed.

(** The final challenge reached by 81 hints on the canonical grid; there
    the code is 1, and typing it wins. *)
Lemma final_code_guess_witness :
  (∃ randomRow randomCol v cell t,
      blinkingCell challengeState = Some (randomRow, randomCol)
      ∧ cellAt (boardState challengeState) randomRow randomCol = Some cell
      ∧ tile cell = Some t
      ∧ value t = v
      ∧ solutionAt (solution challengeState) randomRow randomCol = Some v
      ∧ finalCodeAnswer challengeState = Some (calculateBase v)
      ∧ (1 ≤ calculateBase v ≤ 9)%Z
      ∧ (∃ typed s',
           handleFinalCodeChange (toString (Z.to_nat (calculateBase v))) challengeState
             = Some (typed, [])
           ∧ finalCodeInput typed = toString (Z.to_nat (calculateBase v))
           ∧ parseInt (finalCodeInput typed) = Some (calculateBase v)
           ∧ handleFinalCodeSubmit typed = Some (s', [SndWin])
           ∧ gamePhase s' = won
           ∧ reachable s')
      ∧ ∀ text, ∃ typed s',
          handleFinalCodeChange text challengeState = Some (typed, [])
          ∧ finalCodeInput typed = substring 0 1 text
          ∧ handleFinalCodeSubmit typed =
              Some (s', [if bool_decide (parseInt (finalCodeInput typed)
                                         = Some (calculateBase v))
                         then SndWin else SndIncorrect])
          ∧ boardState s' = boardState challengeState
          ∧ paletteTiles s' = paletteTiles challengeState
          ∧ correctTilesCount s' = correctTilesCount challengeState
          ∧ finalCodeAnswer s' = finalCodeAnswer challengeState
          ∧ reachable s'
          ∧ if bool_decide (parseInt (finalCodeInput typed) = Some (calculateBase v))
            then gamePhase s' = won
            else gamePhase s' = final_challenge
                 ∧ finalCodeInput s' = EmptyString
                 ∧ challengeShake s' = true)
  ∧ runEvents [EvCodeChange "1"%string; EvCodeSubmit] challengeState = Some wonState
  ∧ gamePhase wonState = won.
Proof.
  split; [|by vm_compute].
  apply (final_code_guess challengeState).
  - apply reachable_challengeState.
  - vm_compute. reflexivity.
Defined.


(** ** Ownership of the tiles *)

Lemma paletteCount_app v (p q : list TileData) :
  paletteCount v (p ++ q) = paletteCount v p + paletteCount v q.
Proof. unfold paletteCount. by rewrite filter_app, length_app. Qed.

Lemma paletteCount_cons v t (p : list TileData) :
  paletteCount v (t :: p) = indicator (bool_decide (value t = v)) + paletteCount v p.
Proof.
  unfold paletteCount. rewrite filter_cons.
  destruct (decide (value t = v)) as [Hv|Hv].
  - by rewrite bool_decide_eq_true_2.
  - by rewrite bool_decide_eq_false_2.
Qed.

Lemma paletteCount_option_list v (o : option TileData) :
  paletteCount v (option_list o)
  = indicator (holdsValue v {| tile := o; status := StEmpty; isHint := false |}).
Proof.
  destruct o as [t|]; [|done]. change (option_list (Some t)) with [t].
  rewrite paletteCount_cons. unfold holdsValue. cbn [tile].
  change (paletteCount v []) with 0. lia.
Qed.

Lemma paletteCount_filter v d (p : list TileData) :
  paletteCount v (filter (λ t, value t ≠ d) p)
  = if decide (v = d) then 0 else paletteCount v p.
Proof.
  induction p as [|t p IH]; [by destruct (decide _)|].
  rewrite filter_cons. destruct (decide (value t ≠ d)) as [Hne|Heq].
  - rewrite !paletteCount_cons, IH. destruct (decide (v = d)) as [->|_]; [|done].
    by rewrite bool_decide_eq_false_2.
  - apply dec_stable in Heq. rewrite IH, paletteCount_cons.
    destruct (decide (v = d)) as [->|Hv]; [done|].
    rewrite bool_decide_eq_false_2 by congruence. done.
Qed.

Lemma paletteCount_elem t (p : list TileData) :
  t ∈ p → 1 ≤ paletteCount (value t) p.
Proof.
  induction 1 as [t p|t t' p _ IH]; rewrite paletteCount_cons.
  - rewrite bool_decide_eq_true_2 by done. cbn. lia.
  - lia.
Qed.

Lemma holdsValue_tile v cell :
  holdsValue v cell
  = holdsValue v {| tile := tile cell; status := StEmpty; isHint := false |}.
Proof. reflexivity. Qed.

Lemma boardCount_setCell v b r c x old :
  cellAt b r c = Some old →
  boardCount v (setCell b r c x) + indicator (holdsValue v old)
  = boardCount v b + indicator (holdsValue v x).
Proof. apply countCells_setCell. Qed.

(** A return of the tile the cell holds keeps the ownership of every
    value. *)
Lemma ownership_handleTileReturn s row col cell t s' sounds :
  ownership s →
  cellAt (boardState s) row col = Some cell →
  tile cell = Some t →
  handleTileReturn t row col s = Some (s', sounds) →
  ownership s'.
Proof.
  intros Hown Hcell Htile Hrun.
  destruct (handleTileReturn_inv _ _ _ _ _ _ Hrun)
    as [->|(cell' & _ & Hcell' & _ & ->)]; [done|].
  intros v Hv. specialize (Hown v Hv).
  cbn [paletteTiles boardState].
  pose proof (boardCount_setCell v (boardState s) row col emptyCell cell Hcell) as Hb.
  change (holdsValue v emptyCell) with false in Hb. cbn [indicator] in Hb.
  rewrite paletteCount_app.
  change [t] with (option_list (Some t)). rewrite paletteCount_option_list.
  rewrite <- Htile, <- holdsValue_tile. lia.
Qed.

(** A drop keeps the ownership of every value when the dragged tile, if any,
    is one of the palette. *)
Lemma ownership_handleDrop s row col s' sounds :
  CountInv s →
  ownership s →
  (∀ dragged, draggedTile s = Some dragged → dragged ∈ paletteTiles s) →
  handleDrop row col s = Some (s', sounds) →
  ownership s'.
Proof.
  intros Hinv Hown Hfresh Hrun.
  destruct (handleDrop_inv _ _ _ _ _ Hrun)
    as [->|(dragged & target & ok & _ & Hdrag & Htarget & Hempty & _ & ->)]; [done|].
  intros v Hv. pose proof (Hown v Hv) as Hsum.
  cbn [paletteTiles boardState].
  pose proof (boardCount_setCell v (boardState s) row col
                {| tile := Some dragged;
                   status := if ok then StCorrect else StIncorrect;
                   isHint := false |} target Htarget) as Hb.
  assert (Hold : holdsValue v target = false) by (unfold holdsValue; by rewrite Hempty).
  rewrite Hold in Hb. cbn [indicator holdsValue tile] in Hb.
  rewrite paletteCount_filter.
  pose proof (paletteCount_elem dragged (paletteTiles s) (Hfresh dragged Hdrag)) as Hin.
  destruct (decide (v = value dragged)) as [->|Hne].
  - rewrite bool_decide_eq_true_2 in Hb by done. cbn [indicator] in Hb. lia.
  - rewrite bool_decide_eq_false_2 in Hb by congruence. cbn [indicator] in Hb. lia.
Qed.

(** A hint keeps the ownership of every value. *)
Lemma ownership_handleHint s pick s' sounds :
  CountInv s →
  ownership s →
  handleHint pick s = Some (s', sounds) →
  ownership s'.
Proof.
  intros Hinv Hown Hrun.
  destruct (handleHint_inv _ _ _ _ Hrun)
    as [->|(hintRow & hintCol & correctValue & target & found & cell & _ & Hpick
            & Hsol & Htarget & Hfound & Hcell & ->)]; [done|].
  destruct (unsolvedCells_lookup _ _ _ _ Hpick) as (target' & Htarget' & Hst).
  assert (target' = target) as -> by congruence.
  pose proof Hinv as [Hboard _ _ Hcons _].
  set (hinted := {| tile := Some (tileOf correctValue);
                    status := StCorrect; isHint := true |}).
  assert (Hself : holdsValue correctValue target = false).
  { unfold holdsValue. destruct (tile target) as [t|] eqn:Ht; [|done].
    apply bool_decide_eq_false_2. intros Heq. apply Hst.
    apply (Hcons hintRow hintCol target Htarget). exists t. by rewrite Heq. }
  intros v Hv. pose proof (Hown v Hv) as Hsum. cbn [paletteTiles boardState].
  assert (Hnew : holdsValue v hinted = bool_decide (correctValue = v)) by done.
  destruct found as [[r c]|].
  - destruct (findOnBoard_Some _ _ _ _ Hfound) as (holder & Hholder & Hholds).
    destruct (hint_evicts_unsolved s hintRow hintCol target correctValue r c holder)
      as [_ Hne]; [done..|].
    pose proof (boardCount_setCell v (boardState s) r c emptyCell holder Hholder)
      as Hevict.
    pose proof (boardCount_setCell v (setCell (boardState s) r c emptyCell)
                  hintRow hintCol hinted target) as Hplace.
    rewrite cellAt_setCell_ne in Hplace by done. specialize (Hplace Htarget).
    change (holdsValue v emptyCell) with false in Hevict.
    rewrite Hnew in Hplace. cbn [indicator] in Hevict.
    assert (Hh : holdsValue v holder = bool_decide (correctValue = v)).
    { unfold holdsValue in *. destruct (tile holder) as [t|]; [|done].
      apply bool_decide_eq_true in Hholds as ->. done. }
    rewrite Hh in Hevict.
    rewrite paletteCount_app, paletteCount_option_list, <- holdsValue_tile. lia.
  - pose proof (boardCount_setCell v (boardState s) hintRow hintCol hinted target
                  Htarget) as Hplace.
    rewrite Hnew in Hplace.
    rewrite paletteCount_filter, paletteCount_app, paletteCount_option_list,
      <- holdsValue_tile.
    destruct (decide (v = correctValue)) as [->|Hne].
    + rewrite Hself in Hplace. rewrite bool_decide_eq_true_2 in Hplace by done.
      cbn [indicator] in Hplace.
      assert (Hnone : boardCount correctValue (boardState s) = 0).
      { unfold boardCount, countCells.
        pose proof (findOnBoard_None _ _ Hboard Hfound) as Hno.
        clear -Hno. unfold cellAt in Hno.
        induction (boardState s) as [|row b IH]; [done|].
        cbn [fmap list_fmap sum_list sum_list_with].
        rewrite IH by (intros r c holder; apply (Hno (S r) c holder)).
        assert (countRow (holdsValue correctValue) row = 0) as ->; [|done].
        specialize (λ c holder, Hno 0 c holder). cbn in Hno. clear IH.
        induction row as [|y row IH]; [done|].
        rewrite countRow_cons, (Hno 0 y eq_refl).
        rewrite IH by (intros c holder; apply (Hno (S c) holder)). done. }
      lia.
    + rewrite bool_decide_eq_false_2 in Hplace by congruence.
      cbn [indicator] in Hplace. lia.
Qed.


Lemma ownership_canonicalStart : ownership canonicalStart.
Proof.
  intros v Hv. cbn [canonicalStart newGame paletteTiles boardState].
  unfold boardCount. rewrite countCells_initializeBoard by done.
  assert (Hall : Forall (λ v, paletteCount v canonicalTiles = 1)
                   (Z.of_nat <$> seq 1 81)).
  { apply (bool_decide_unpack
             (Forall (λ v, paletteCount v canonicalTiles = 1) (Z.of_nat <$> seq 1 81))).
    vm_compute. exact I. }
  rewrite Forall_forall in Hall. rewrite (Hall v); [done|].
  apply list_elem_of_fmap. exists (Z.to_nat v). split; [lia|].
  apply elem_of_seq. lia.
Qed.

(** C7 fails on the code.  After the events of [staleDragTrace], each of
    which the interface can send, two board cells hold value 1: the drop that
    was rejected left the dragged tile in place, the hint took value 1 out of
    the palette, and the later drop placed the stale tile again. *)
Theorem stale_drag_duplicates_value :
  ownership canonicalStart
  ∧ allEnabled staleDragTrace canonicalStart
  ∧ ∃ s,
      runEvents staleDragTrace canonicalStart = Some s
      ∧ reachable s
      ∧ gamePhase s = placing
      ∧ tileAt (boardState s) 0 0 = Some (tileOf 1)
      ∧ tileAt (boardState s) 2 0 = Some (tileOf 1)
      ∧ paletteCount 1 (paletteTiles s) = 0
      ∧ boardCount 1 (boardState s) = 2
      ∧ ¬ ownership s
      ∧ ¬ (∀ s0, reachable s0 → ownership s0).
Proof.
  split; [apply ownership_canonicalStart|].
  assert (Hen : allEnabled staleDragTrace canonicalStart).
  { vm_compute. repeat split; try discriminate; try lia; repeat constructor. }
  split; [exact Hen|].
  destruct (runEvents staleDragTrace canonicalStart) as [s|] eqn:Hrun;
    [|vm_compute in Hrun; discriminate].
  pose proof (reachable_runEvents staleDragTrace canonicalStart s
                reachable_canonicalStart Hen Hrun) as Hreach.
  exists s. split; [done|]. split; [exact Hreach|].
  vm_compute in Hrun. injection Hrun as <-.
  split; [reflexivity|]. split; [reflexivity|]. split; [reflexivity|].
  split; [vm_compute; reflexivity|]. split; [vm_compute; reflexivity|].
  match goal with |- ¬ ownership ?final ∧ _ => set (s := final) in * end.
  assert (Hbroken : ¬ ownership s).
  { intros Hown. specialize (Hown 1%Z). vm_compute in Hown.
    assert (1 ≤ 1 ≤ 81)%Z as Hrange by lia.
    specialize (Hown (conj (proj1 Hrange) (proj2 Hrange))). discriminate. }
  split; [exact Hbroken|]. intros Hall. exact (Hbroken (Hall s Hreach)).
Qed.

(** * Further code of the repository: properties *)

(** ** [formatTime] *)

Ltac eval_digit :=
  cbn [readDigits];
  match goal with
  | |- context [digitOf ?a] =>
      let v := eval vm_compute in (digitOf a) in change (digitOf a) with v
  end;
  cbn [default]; unfold id.

Lemma readDigits_uint (d : uint) (a : nat) :
  readDigits (NilEmpty.string_of_uint d) (Some (Z.of_nat a))
  = Some (Z.of_nat (Nat.of_uint_acc d a)).
Proof.
  revert a. induction d as [|d IH|d IH|d IH|d IH|d IH|d IH|d IH|d IH|d IH|d IH];
    intros a; cbn [NilEmpty.string_of_uint Nat.of_uint_acc]; [done|..];
    eval_digit; rewrite <- IH; do 2 f_equal;
    rewrite Nat.tail_mul_spec; unfold id; lia.
Qed.

Lemma to_uint_not_Nil n : Nat.to_uint n ≠ Nil.
Proof.
  intros Hnil. pose proof (Unsigned.of_to n) as Hn. rewrite Hnil in Hn.
  cbn in Hn. subst n. discriminate.
Qed.

Lemma readDigits_toString n : readDigits (toString n) None = Some (Z.of_nat n).
Proof.
  unfold toString. pose proof (Unsigned.of_to n) as Hn.
  pose proof (to_uint_not_Nil n) as Hnil. unfold Nat.of_uint in Hn.
  destruct (Nat.to_uint n) as [|d|d|d|d|d|d|d|d|d|d]; [done|..];
    cbn [NilEmpty.string_of_uint Nat.of_uint_acc] in *;
    eval_digit; rewrite <- Hn, <- readDigits_uint; do 2 f_equal.
Qed.

Lemma allDigits_uint (d : uint) : allDigits (NilEmpty.string_of_uint d) = true.
Proof. induction d; cbn [NilEmpty.string_of_uint allDigits]; by rewrite ?IHd. Qed.

Lemma parseInt_digits a rest :
  isDigit a = true → parseInt (String a rest) = readDigits (String a rest) None.
Proof.
  destruct a as [[] [] [] [] [] [] [] []]; try discriminate; reflexivity.
Qed.

Lemma toString_length_pos n : 0 < String.length (toString n).
Proof.
  unfold toString. pose proof (to_uint_not_Nil n).
  destruct (Nat.to_uint n); [done|..]; cbn; lia.
Qed.

Lemma of_uint_acc_bound (d : uint) (a : nat) :
  Nat.of_uint_acc d a + 1 ≤ 10 ^ String.length (NilEmpty.string_of_uint d) * (a + 1).
Proof.
  revert a. induction d as [|d IH|d IH|d IH|d IH|d IH|d IH|d IH|d IH|d IH|d IH];
    intros a; cbn [NilEmpty.string_of_uint Nat.of_uint_acc String.length];
    [cbn; lia|..];
    rewrite Nat.tail_mul_spec, Nat.pow_succ_r';
    (etrans; [apply IH|]);
    generalize (10 ^ String.length (NilEmpty.string_of_uint d)); intros p; nia.
Qed.

Lemma toString_two_digits n : String.length (toString n) ≤ 2 ↔ n < 100.
Proof.
  split.
  - intros Hlen. pose proof (Unsigned.of_to n) as Hn. unfold Nat.of_uint in Hn.
    pose proof (of_uint_acc_bound (Nat.to_uint n) 0) as Hb.
    fold (toString n) in Hb. rewrite Hn in Hb.
    assert (10 ^ String.length (toString n) ≤ 10 ^ 2)
      by (apply Nat.pow_le_mono_r; lia).
    cbn in *. lia.
  - intros Hn.
    assert (Hall : Forall (λ m, String.length (toString m) ≤ 2) (seq 0 100)).
    { apply (bool_decide_unpack
               (Forall (λ m, String.length (toString m) ≤ 2) (seq 0 100))).
      vm_compute. exact I. }
    rewrite Forall_forall in Hall. apply Hall, elem_of_seq. lia.
Qed.

Lemma padStart_two s :
  0 < String.length s →
  padStart 2 "0" s = if bool_decide (String.length s = 1) then String "0" s else s.
Proof.
  destruct s as [|a [|b rest]]; cbn [String.length]; [lia|done|done].
Qed.

Lemma readDigits_leading_zero s :
  allDigits s = true → 0 < String.length s →
  readDigits (String "0" s) None = readDigits s None.
Proof.
  destruct s as [|a rest]; [cbn; lia|]. intros Hd _.
  cbn [allDigits] in Hd. apply andb_prop in Hd as [Ha _].
  unfold isDigit in Ha. cbn [readDigits].
  change (digitOf "0") with (Some 0%Z). cbn [default]. unfold id.
  destruct (digitOf a); [done|discriminate].
Qed.

(** What [padStart(2, '0')] makes of the digits of [n]: two digits at least,
    exactly two below 100, the same number. *)
Lemma padStart_toString n :
  let padded := padStart 2 "0" (toString n) in
  2 ≤ String.length padded
  ∧ (String.length padded = 2 ↔ n < 100)
  ∧ allDigits padded = true
  ∧ parseInt padded = Some (Z.of_nat n).
Proof.
  pose proof (readDigits_toString n) as Hread.
  pose proof (toString_length_pos n) as Hpos.
  pose proof (allDigits_uint (Nat.to_uint n)) as Hdigits. fold (toString n) in Hdigits.
  pose proof (toString_two_digits n) as Htwo.
  cbv zeta. rewrite (padStart_two _ Hpos).
  destruct (decide (String.length (toString n) = 1)) as [Hone|Hmore].
  - rewrite bool_decide_eq_true_2 by done. cbn [String.length allDigits].
    rewrite Hone, Hdigits. split; [lia|]. split; [split; [intros _|done]; lia|].
    split; [done|].
    rewrite parseInt_digits by done.
    by rewrite readDigits_leading_zero.
  - rewrite bool_decide_eq_false_2 by done. split; [lia|]. split; [lia|].
    split; [done|].
    destruct (toString n) as [|a rest] eqn:Hs; [cbn in Hpos; lia|].
    rewrite parseInt_digits; [done|].
    cbn [allDigits] in Hdigits. by apply andb_prop in Hdigits as [-> _].
Qed.

(** X1.  Whatever the number of seconds, [formatTime] writes the minutes,
    a colon and the seconds, each as decimal digits that read back as the
    number written; the seconds always take two digits and the minutes at
    least two. *)
Theorem formatTime_reads_back (totalSeconds : nat) :
  isSafeInteger totalSeconds →
  ∃ minutes seconds,
    formatTime totalSeconds = String.append minutes (String ":" seconds)
    ∧ allDigits minutes = true
    ∧ allDigits seconds = true
    ∧ 2 ≤ String.length minutes
    ∧ String.length seconds = 2
    ∧ parseInt minutes = Some (Z.of_nat (totalSeconds / 60))
    ∧ parseInt seconds = Some (Z.of_nat (totalSeconds mod 60))
    ∧ 60 * (totalSeconds / 60) + totalSeconds mod 60 = totalSeconds.
Proof.
  intros _.
  destruct (padStart_toString (totalSeconds / 60)) as (Hm2 & _ & Hmd & Hmp).
  destruct (padStart_toString (totalSeconds mod 60)) as (_ & Hs2 & Hsd & Hsp).
  eexists _, _. split; [reflexivity|]. repeat (split; [done|]).
  split; [apply Hs2; pose proof (Nat.mod_upper_bound totalSeconds 60); lia|].
  split; [done|]. split; [done|].
  pose proof (Nat.div_mod_eq totalSeconds 60). lia.
Qed.

Lemma formatTime_reads_back_witness :
  ∃ minutes seconds,
    formatTime 754 = String.append minutes (String ":" seconds)
    ∧ allDigits minutes = true
    ∧ allDigits seconds = true
    ∧ 2 ≤ String.length minutes
    ∧ String.length seconds = 2
    ∧ parseInt minutes = Some (Z.of_nat (754 / 60))
    ∧ parseInt seconds = Some (Z.of_nat (754 mod 60))
    ∧ 60 * (754 / 60) + 754 mod 60 = 754.
Proof. apply (formatTime_reads_back 754). unfold isSafeInteger. lia. Defined.

Lemma append_length (s1 s2 : string) :
  String.length (String.append s1 s2) = String.length s1 + String.length s2.
Proof.
  induction s1 as [|a s1 IH]; [reflexivity|].
  change (S (String.length (String.append s1 s2))
          = S (String.length s1 + String.length s2)).
  by rewrite IH.
Qed.

(** X2.  [formatTime] has the fixed width of five characters, [MM:SS] with
    the colon in the middle, exactly when the time is below 100 minutes;
    from 100 minutes on the minutes are not cut and the text is longer. *)
Theorem formatTime_width (totalSeconds : nat) :
  isSafeInteger totalSeconds →
  (String.length (formatTime totalSeconds) = 5 ↔ totalSeconds < 100 * 60)
  ∧ 5 ≤ String.length (formatTime totalSeconds)
  ∧ (totalSeconds < 100 * 60 →
     String.get 2 (formatTime totalSeconds) = Some ":"%char).
Proof.
  intros _.
  destruct (padStart_toString (totalSeconds / 60)) as (Hm2 & Hmtwo & _ & _).
  destruct (padStart_toString (totalSeconds mod 60)) as (_ & Hstwo & _ & _).
  pose proof (Nat.mod_upper_bound totalSeconds 60) as Hmod.
  pose proof (Nat.div_mod_eq totalSeconds 60) as Hdiv.
  assert (Hs : String.length (padStart 2 "0" (toString (totalSeconds mod 60))) = 2)
    by (apply Hstwo; lia).
  unfold formatTime. cbv zeta. rewrite append_length. cbn [String.length].
  rewrite Hs. split; [|split].
  - assert (totalSeconds / 60 < 100 ↔ totalSeconds < 100 * 60) as <- by lia.
    rewrite <- Hmtwo. lia.
  - lia.
  - intros Hlt.
    assert (Hm : String.length (padStart 2 "0" (toString (totalSeconds / 60))) = 2).
    { apply Hmtwo. lia. }
    destruct (padStart 2 "0" (toString (totalSeconds / 60))) as [|a [|b [|c rest]]];
      try discriminate. reflexivity.
Qed.

Lemma formatTime_width_witness :
  (String.length (formatTime 754) = 5 ↔ 754 < 100 * 60)
  ∧ 5 ≤ String.length (formatTime 754)
  ∧ (754 < 100 * 60 → String.get 2 (formatTime 754) = Some ":"%char).
Proof. apply (formatTime_width 754). unfold isSafeInteger. lia. Defined.

(** ** Well-formed cells, the column rule and the two counters *)

(** What an accepted drop has checked. *)
Lemma handleDrop_accepted_inv row col s s' sounds :
  handleDrop row col s = Some (s', sounds) →
  s' = s
  ∨ ∃ dragged,
      draggedTile s = Some dragged
      ∧ base dragged = (Z.of_nat col + 1)%Z
      ∧ isSequenceValid (boardState s) row col (value dragged) = Some true
      ∧ draggedTile s' = None
      ∧ tileAt (boardState s') row col = Some dragged.
Proof.
  intros Hrun.
  destruct (handleDrop_inv _ _ _ _ _ Hrun)
    as [->|(dragged & target & ok & Hp & Hdrag & Htarget & Hempty & _ & ->)];
    [by left|].
  right. exists dragged. split; [done|].
  unfold handleDrop in Hrun.
  rewrite (isUIInteractive_placing s Hp), Hdrag, Htarget in Hrun.
  cbn [negb mbind option_bind] in Hrun. unfold isOccupied in Hrun.
  rewrite Hempty in Hrun.
  destruct (decide (base dragged = (Z.of_nat col + 1)%Z)) as [Hbase|Hbase].
  - split; [done|].
    rewrite (bool_decide_eq_false_2 (base dragged ≠ _)) in Hrun
      by (intros Hne; by apply Hne).
    destruct (isSequenceValid _ _ _ _) as [[]|]; cbn [mbind option_bind negb] in Hrun.
    + split; [done|]. split; [done|]. cbn [boardState]. unfold tileAt.
      by rewrite (cellAt_setCell_eq _ _ _ _ target Htarget).
    + exfalso. injection Hrun as Hs _.
      apply (f_equal draggedTile) in Hs. cbn in Hs. congruence.
    + discriminate.
  - rewrite bool_decide_eq_true_2 in Hrun by done. exfalso.
    injection Hrun as Hs _. apply (f_equal draggedTile) in Hs. cbn in Hs. congruence.
Qed.

Lemma wfCell_setCell (b : Board) r0 c0 x old :
  (∀ r c cell, cellAt b r c = Some cell → wfCell c cell) →
  cellAt b r0 c0 = Some old →
  wfCell c0 x →
  ∀ r c cell, cellAt (setCell b r0 c0 x) r c = Some cell → wfCell c cell.
Proof.
  intros Hall Hold Hx r c cell.
  rewrite (cellAt_setCell b r0 c0 x r c old Hold).
  destruct (decide _) as [[= <- <-]|Hne]; [by intros [= <-]|apply Hall].
Qed.

Lemma wfCell_emptyCell col : wfCell col emptyCell.
Proof. reflexivity. Qed.

Lemma BoardInv_handleDrop row col s s' sounds :
  BoardInv s → handleDrop row col s = Some (s', sounds) → BoardInv s'.
Proof.
  intros [Hcells Hhints Hblink] Hrun.
  destruct (handleDrop_accepted_inv _ _ _ _ _ Hrun)
    as [->|(dragged & _ & Hbase & _ & _ & _)]; [done|].
  destruct (handleDrop_inv _ _ _ _ _ Hrun)
    as [->|(dragged' & target & ok & _ & Hdrag & Htarget & _ & _ & ->)]; [done|].
  assert (Hsame : base dragged' = (Z.of_nat col + 1)%Z).
  { destruct (handleDrop_accepted_inv _ _ _ _ _ Hrun)
      as [Heq|(d & Hd & Hb & _)]; [|congruence].
    apply (f_equal draggedTile) in Heq. cbn in Heq. congruence. }
  split; cbn [boardState hintsUsed correctTilesCount gamePhase blinkingCell].
  - eapply wfCell_setCell; [done|done|]. unfold wfCell. cbn [tile status isHint].
    split; [by destruct ok|]. split; [discriminate|done].
  - destruct ok; lia.
  - done.
Qed.

Lemma BoardInv_handleTileReturn t row col s s' sounds :
  BoardInv s → handleTileReturn t row col s = Some (s', sounds) → BoardInv s'.
Proof.
  intros [Hcells Hhints Hblink] Hrun.
  destruct (handleTileReturn_inv _ _ _ _ _ _ Hrun)
    as [->|(cell & _ & Hcell & _ & ->)]; [done|].
  split; cbn [boardState hintsUsed correctTilesCount gamePhase blinkingCell];
    [|done|done].
  eapply wfCell_setCell; [done|done|apply wfCell_emptyCell].
Qed.

Lemma BoardInv_handleHint pick s s' sounds :
  CountInv s → BoardInv s → handleHint pick s = Some (s', sounds) → BoardInv s'.
Proof.
  intros Hinv [Hcells Hhints Hblink] Hrun.
  destruct (handleHint_inv _ _ _ _ Hrun)
    as [->|(hintRow & hintCol & correctValue & target & found & cell & Hp & Hpick
            & Hv & Htarget & Hfound & Hcell & Hs)]; [done|].
  destruct (handleHint_picked s pick hintRow hintCol Hp (inv_board s Hinv)
              (inv_solution s Hinv) Hpick)
    as (target' & correctValue' & found' & _ & _ & Hv' & Hfound' & Hrun').
  assert (correctValue' = correctValue) as -> by congruence.
  assert (found' = found) as -> by congruence.
  rewrite Hrun in Hrun'. injection Hrun' as -> _.
  split; cbn [boardState hintsUsed correctTilesCount gamePhase blinkingCell];
    [|lia|done].
  eapply wfCell_setCell; [|exact Hcell|].
  - destruct found as [[r c]|]; [|done].
    destruct (findOnBoard_Some _ _ _ _ Hfound) as (holder & Hholder & _).
    eapply wfCell_setCell; [done|done|apply wfCell_emptyCell].
  - unfold wfCell. cbn [tile status isHint]. split; [discriminate|]. split; done.
Qed.

Lemma BoardInv_ext s s' :
  boardState s' = boardState s →
  hintsUsed s' = hintsUsed s →
  correctTilesCount s' = correctTilesCount s →
  gamePhase s' = gamePhase s →
  blinkingCell s' = blinkingCell s →
  BoardInv s → BoardInv s'.
Proof.
  intros Hb Hh Hc Hp Hbl [? ? ?]. split; rewrite ?Hb, ?Hh, ?Hc, ?Hp, ?Hbl; assumption.
Qed.

Ltac same_board H :=
  eapply BoardInv_ext; [| | | | |exact H]; reflexivity.

Lemma BoardInv_newGame solutionGrid shuffledTiles s :
  BoardInv (newGame solutionGrid shuffledTiles s).
Proof.
  split; cbn [newGame boardState hintsUsed correctTilesCount gamePhase blinkingCell];
    [|done|done].
  intros r c cell ->%cellAt_initializeBoard. apply wfCell_emptyCell.
Qed.

Lemma BoardInv_handle ev s s' sounds :
  CountInv s → BoardInv s → handle ev s = Some (s', sounds) → BoardInv s'.
Proof.
  intros Hcount Hinv Hrun. destruct ev; cbn [handle] in Hrun.
  - unfold handleDragStart in Hrun.
    destruct (isUIInteractive s); injection Hrun as <- _; [|done]. same_board Hinv.
  - by eapply BoardInv_handleDrop.
  - destruct (cellAt (boardState s) row col) as [cell|]; [|discriminate].
    cbn [mbind option_bind] in Hrun.
    destruct (tile cell) as [t|]; [|discriminate].
    by eapply BoardInv_handleTileReturn.
  - by eapply BoardInv_handleHint.
  - injection Hrun as <- _. same_board Hinv.
  - unfold handleFinalCodeSubmit in Hrun.
    destruct (strictEq _ _); injection Hrun as <- _; [|same_board Hinv].
    destruct Hinv as [Hcells Hhints Hblink]. by split.
  - injection Hrun as <- _. same_board Hinv.
  - injection Hrun as <- _. apply BoardInv_newGame.
Qed.

Lemma BoardInv_phaseEffect randomRow randomCol s s' sounds :
  BoardInv s → phaseEffect randomRow randomCol s = Some (s', sounds) → BoardInv s'.
Proof.
  intros Hinv Hrun. unfold phaseEffect in Hrun.
  destruct (_ && _); [|by injection Hrun as <- _].
  destruct (solutionAt _ _ _); [|discriminate].
  injection Hrun as <- _. destruct Hinv as [Hcells Hhints Hblink]. by split.
Qed.

Lemma reachable_BoardInv s : reachable s → BoardInv s.
Proof.
  induction 1 as [sol tiles Hgen|s ev rr rc s' sounds Hreach Hinv Hen _ _ Hstep].
  - apply BoardInv_newGame.
  - destruct (step_inv _ _ _ _ _ _ Hstep) as (s1 & sounds1 & sounds2 & Hh & He & _).
    destruct (reachable_invariants s Hreach) as [Hcount _].
    eapply BoardInv_phaseEffect; [|exact He]. by eapply BoardInv_handle.
Qed.

Lemma reachable_handPlaced : reachable handPlaced.
Proof.
  apply (reachable_runEvents [EvDragStart (tileOf 2); EvDrop 5 0] canonicalStart).
  - apply reachable_canonicalStart.
  - vm_compute. repeat split; try discriminate; try lia; repeat constructor.
  - vm_compute. reflexivity.
Qed.

Lemma reachable_oneHint : reachable oneHint.
Proof.
  apply (reachable_runEvents [EvHint 0] canonicalStart).
  - apply reachable_canonicalStart.
  - vm_compute. repeat split; discriminate.
  - vm_compute. reflexivity.
Qed.

Lemma reachable_twoHints : reachable twoHints.
Proof.
  apply (reachable_runEvents [EvHint 0; EvHint 0] canonicalStart).
  - apply reachable_canonicalStart.
  - vm_compute. repeat split; discriminate.
  - vm_compute. reflexivity.
Qed.

(** X3.  In every reachable state a board cell has no tile exactly when its
    status is 'empty', a cell without a tile is the initial empty cell, and a
    cell marked as a hint is 'correct'. *)
Theorem cells_are_well_formed (s : State) (r c : nat) (cell : BoardCell) :
  reachable s →
  cellAt (boardState s) r c = Some cell →
  (tile cell = None ↔ status cell = StEmpty)
  ∧ (tile cell = None → cell = emptyCell)
  ∧ (isHint cell = true → status cell = StCorrect ∧ tile cell ≠ None).
Proof.
  intros Hreach Hcell.
  pose proof (inv_cells s (reachable_BoardInv s Hreach) r c cell Hcell) as Hwf.
  unfold wfCell in Hwf. destruct (tile cell) as [t|] eqn:Ht.
  - destruct Hwf as (Hst & Hhint & _). split; [split; [discriminate|done]|].
    split; [discriminate|]. intros Hh. split; [by apply Hhint|discriminate].
  - subst cell. split; [done|]. split; [done|]. discriminate.
Qed.

Lemma cells_are_well_formed_witness :
  (tile (mkCell (Some (tileOf 1)) StCorrect true) = None
   ↔ status (mkCell (Some (tileOf 1)) StCorrect true) = StEmpty)
  ∧ (tile (mkCell (Some (tileOf 1)) StCorrect true) = None →
     mkCell (Some (tileOf 1)) StCorrect true = emptyCell)
  ∧ (isHint (mkCell (Some (tileOf 1)) StCorrect true) = true →
     status (mkCell (Some (tileOf 1)) StCorrect true) = StCorrect
     ∧ tile (mkCell (Some (tileOf 1)) StCorrect true) ≠ None).
Proof.
  apply (cells_are_well_formed oneHint 0 0 (mkCell (Some (tileOf 1)) StCorrect true)).
  - apply reachable_oneHint.
  - vm_compute. reflexivity.
Defined.

(** X4.  In every reachable state a tile that was placed by hand (its cell
    is not marked as a hint) sits in the column of its base. *)
Theorem hand_placed_tiles_fit_their_column (s : State) (r c : nat)
    (cell : BoardCell) (t : TileData) :
  reachable s →
  cellAt (boardState s) r c = Some cell →
  tile cell = Some t →
  isHint cell = false →
  base t = (Z.of_nat c + 1)%Z.
Proof.
  intros Hreach Hcell Ht Hhand.
  pose proof (inv_cells s (reachable_BoardInv s Hreach) r c cell Hcell) as Hwf.
  unfold wfCell in Hwf. rewrite Ht in Hwf. by apply Hwf.
Qed.

Lemma hand_placed_tiles_fit_their_column_witness :
  base (tileOf 2) = (Z.of_nat 0 + 1)%Z.
Proof.
  apply (hand_placed_tiles_fit_their_column handPlaced 5 0
           {| tile := Some (tileOf 2); status := StIncorrect; isHint := false |}).
  - apply reachable_handPlaced.
  - vm_compute. reflexivity.
  - reflexivity.
  - reflexivity.
Defined.

(** X5.  In every reachable state the hints used are at most the correct
    cells counted, which are at most 81. *)
Theorem hints_at_most_correct_cells (s : State) :
  reachable s → hintsUsed s ≤ correctTilesCount s ∧ correctTilesCount s ≤ 81.
Proof.
  intros Hreach. split; [apply (reachable_BoardInv s Hreach)|].
  destruct (reachable_invariants s Hreach) as [[Hboard _ _ _ Hcount] _].
  rewrite Hcount. apply (countCells_le isCorrect (boardState s) Hboard).
Qed.

Lemma hints_at_most_correct_cells_witness :
  hintsUsed twoHints ≤ correctTilesCount twoHints
  ∧ correctTilesCount twoHints ≤ 81.
Proof. apply (hints_at_most_correct_cells twoHints), reachable_twoHints. Defined.

(** ** The blinking cell and the order of the phases *)

(** X6.  In every reachable state a blinking cell is set exactly in the
    final challenge; the board then renders exactly that cell's tile as
    blinking, and the cell is an occupied cell of the grid.  In the other
    phases no tile blinks. *)
Theorem blinking_tile_is_rendered (s : State) :
  reachable s →
  (is_Some (blinkingCell s) ↔ gamePhase s = final_challenge)
  ∧ (∀ r c, rendersBlinking s r c = true ↔ blinkingCell s = Some (r, c))
  ∧ (∀ r c, blinkingCell s = Some (r, c) →
       r < GRID_SIZE ∧ c < GRID_SIZE ∧ is_Some (tileAt (boardState s) r c)).
Proof.
  intros Hreach.
  destruct (reachable_invariants s Hreach) as [Hinv Hphase].
  pose proof (reachable_BoardInv s Hreach) as Hboardinv.
  pose proof Hinv as [Hboard Hsol Hdist Hcons Hcount].
  assert (Hcell : ∀ r c, blinkingCell s = Some (r, c) →
            r < GRID_SIZE ∧ c < GRID_SIZE
            ∧ ∃ cell, cellAt (boardState s) r c = Some cell ∧ isOccupied cell = true).
  { intros r c Hblink.
    destruct (decide (gamePhase s = final_challenge)) as [Hp|Hp];
      [|rewrite (inv_blink s Hboardinv Hp) in Hblink; discriminate].
    destruct (inv_challenge s Hphase) as (Hfull & rr & rc & v & Hv & _ & Hb);
      [by rewrite Hp|].
    rewrite (Hb Hp) in Hblink. injection Hblink as <- <-.
    destruct (isGrid_lookup_lt _ _ _ _ Hsol Hv) as [Hrr Hrc].
    destruct (cellAt_is_Some (boardState s) rr rc Hboard Hrr Hrc) as [cell Hcell].
    split; [done|]. split; [done|]. exists cell. split; [done|].
    assert (Hcorrect : isCorrect cell = true).
    { eapply (countCells_full isCorrect (boardState s)); [done| |exact Hcell].
      by rewrite <- Hcount. }
    apply bool_decide_eq_true in Hcorrect.
    destruct (proj1 (Hcons rr rc cell Hcell) Hcorrect) as (t & Ht & _).
    unfold isOccupied. by rewrite Ht. }
  split; [|split].
  - split.
    + intros [bc Hbc]. destruct (decide (gamePhase s = final_challenge)); [done|].
      rewrite (inv_blink s Hboardinv) in Hbc; done.
    + intros Hp.
      destruct (inv_challenge s Hphase) as (_ & rr & rc & v & _ & _ & Hb);
        [by rewrite Hp|].
      rewrite (Hb Hp). by eexists.
  - intros r c. unfold rendersBlinking, isBlinking. split.
    + destruct (cellAt (boardState s) r c) as [cell|]; [|discriminate].
      destruct (blinkingCell s) as [[br bc]|]; [|by rewrite andb_false_r].
      intros (_ & (Hr%bool_decide_eq_true & Hc%bool_decide_eq_true)%andb_prop)%andb_prop.
      by subst.
    + intros Hblink. destruct (Hcell r c Hblink) as (_ & _ & cell & -> & ->).
      rewrite Hblink, !bool_decide_eq_true_2; done.
  - intros r c Hblink. destruct (Hcell r c Hblink) as (Hr & Hc & cell & Hcell' & Hocc).
    split; [done|]. split; [done|]. unfold tileAt. rewrite Hcell'.
    cbn [mbind option_bind]. unfold isOccupied in Hocc.
    destruct (tile cell); [by eexists|discriminate].
Qed.

Lemma blinking_tile_is_rendered_witness :
  (is_Some (blinkingCell challengeState) ↔ gamePhase challengeState = final_challenge)
  ∧ (∀ r c, rendersBlinking challengeState r c = true
            ↔ blinkingCell challengeState = Some (r, c))
  ∧ (∀ r c, blinkingCell challengeState = Some (r, c) →
       r < GRID_SIZE ∧ c < GRID_SIZE
       ∧ is_Some (tileAt (boardState challengeState) r c)).
Proof.
  apply (blinking_tile_is_rendered challengeState). apply reachable_challengeState.
Defined.

(** X7.  From a reachable state, an event other than a new game never takes
    the phase backwards and never skips a phase: it stays, or goes from
    'placing' to 'final_challenge', or from 'final_challenge' to 'won'.  A new
    game always starts in 'placing'. *)
Theorem phases_are_linear (s : State) (ev : Event) (randomRow randomCol : nat)
    (s' : State) (sounds : list SoundType) :
  reachable s →
  step ev randomRow randomCol s = Some (s', sounds) →
  (isNewGame ev = true → gamePhase s' = placing)
  ∧ (isNewGame ev = false →
     phaseRank (gamePhase s) ≤ phaseRank (gamePhase s')
     ∧ phaseRank (gamePhase s') ≤ S (phaseRank (gamePhase s))
     ∧ (gamePhase s = won → gamePhase s' = won)).
Proof.
  intros Hreach Hstep.
  destruct (reachable_invariants s Hreach) as [_ Hphase].
  destruct (step_inv _ _ _ _ _ _ Hstep) as (s1 & sounds1 & sounds2 & Hh & He & _).
  split.
  - destruct ev; try discriminate. intros _. cbn [handle] in Hh.
    injection Hh as <- _. unfold phaseEffect in He. cbn in He. by injection He as <- _.
  - intros Hev.
    destruct (decide (gamePhase s = placing)) as [Hp|Hnp].
    + pose proof (handle_keeps_placing ev s s1 sounds1 Hphase Hp Hh) as Hp1.
      rewrite Hp. split; [cbn; lia|]. split; [|discriminate].
      unfold phaseEffect in He. destruct (_ && _).
      * destruct (solutionAt _ _ _); [|discriminate]. injection He as <- _. cbn. lia.
      * injection He as <- _. rewrite Hp1. cbn. lia.
    + rewrite phaseEffect_frozen in He.
      2: { destruct ev; try discriminate; cbn [handle] in Hh.
           - unfold handleDragStart in Hh.
             by destruct (isUIInteractive s); injection Hh as <- _.
           - by destruct (runOp_phase (OpPlace row col) _ _ _ Hh) as [-> _].
           - destruct (cellAt (boardState s) row col) as [cell|]; [|discriminate].
             cbn [mbind option_bind] in Hh.
             destruct (tile cell) as [t|]; [|discriminate].
             by destruct (runOp_phase (OpReturn t row col) _ _ _ Hh) as [-> _].
           - by destruct (runOp_phase (OpHint pick) _ _ _ Hh) as [-> _].
           - by injection Hh as <- _.
           - unfold handleFinalCodeSubmit in Hh.
             by destruct (strictEq _ _); injection Hh as <- _.
           - by injection Hh as <- _. }
      injection He as <- _.
      destruct ev; try discriminate; cbn [handle] in Hh.
      * unfold handleDragStart in Hh.
        destruct (isUIInteractive s); injection Hh as <- _; cbn [gamePhase];
          repeat split; try lia; done.
      * destruct (runOp_phase (OpPlace row col) _ _ _ Hh) as [-> _].
        repeat split; try lia; done.
      * destruct (cellAt (boardState s) row col) as [cell|]; [|discriminate].
        cbn [mbind option_bind] in Hh.
        destruct (tile cell) as [t|]; [|discriminate].
        destruct (runOp_phase (OpReturn t row col) _ _ _ Hh) as [-> _].
        repeat split; try lia; done.
      * destruct (runOp_phase (OpHint pick) _ _ _ Hh) as [-> _].
        repeat split; try lia; done.
      * injection Hh as <- _. cbn [gamePhase]. repeat split; try lia; done.
      * unfold handleFinalCodeSubmit in Hh.
        destruct (strictEq _ _); injection Hh as <- _; cbn [gamePhase].
        -- destruct (gamePhase s); [done| |]; cbn; repeat split; try lia; done.
        -- repeat split; try lia; done.
      * injection Hh as <- _. cbn [gamePhase]. repeat split; try lia; done.
Qed.

Lemma phases_are_linear_witness :
  (isNewGame (EvHint 0) = true → gamePhase oneHint = placing)
  ∧ (isNewGame (EvHint 0) = false →
     phaseRank (gamePhase canonicalStart) ≤ phaseRank (gamePhase oneHint)
     ∧ phaseRank (gamePhase oneHint) ≤ S (phaseRank (gamePhase canonicalStart))
     ∧ (gamePhase canonicalStart = won → gamePhase oneHint = won)).
Proof.
  apply (phases_are_linear canonicalStart (EvHint 0) 0 0 oneHint [SndHint]).
  - apply reachable_canonicalStart.
  - vm_compute. reflexivity.
Defined.

(** ** Locked cells and the absence of run-time errors *)

(** X8.  From a reachable state, no event other than a new game changes a
    cell whose status is 'correct': neither a drop, nor a return, nor a hint
    (which evicts and overwrites unsolved cells only). *)
Theorem correct_cells_are_permanent (s : State) (ev : Event)
    (randomRow randomCol : nat) (s' : State) (sounds : list SoundType)
    (r c : nat) (cell : BoardCell) :
  reachable s →
  isNewGame ev = false →
  step ev randomRow randomCol s = Some (s', sounds) →
  cellAt (boardState s) r c = Some cell →
  status cell = StCorrect →
  cellAt (boardState s') r c = Some cell.
Proof.
  intros Hreach Hev Hstep Hcell Hst.
  destruct (reachable_invariants s Hreach) as [Hinv _].
  pose proof Hinv as [Hboard Hsol Hdist Hcons Hcount].
  destruct (step_inv _ _ _ _ _ _ Hstep) as (s1 & sounds1 & sounds2 & Hh & He & _).
  assert (Hb : boardState s' = boardState s1).
  { unfold phaseEffect in He. destruct (_ && _); [|by injection He as <- _].
    destruct (solutionAt _ _ _); [|discriminate]. by injection He as <- _. }
  rewrite Hb. clear He Hb Hstep.
  destruct ev; try discriminate; cbn [handle] in Hh.
  - unfold handleDragStart in Hh.
    by destruct (isUIInteractive s); injection Hh as <- _.
  - destruct (handleDrop_inv _ _ _ _ _ Hh)
      as [->|(dragged & target & ok & _ & _ & Htarget & Hempty & _ & ->)]; [done|].
    cbn [boardState]. rewrite cellAt_setCell_ne; [done|].
    intros [= -> ->].
    pose proof (consistent_empty_not_correct _ _ _ _ _ Hcons Htarget Hempty) as Hnot.
    apply bool_decide_eq_false in Hnot. congruence.
  - destruct (cellAt (boardState s) row col) as [cell0|] eqn:Hcell0; [|discriminate].
    cbn [mbind option_bind] in Hh.
    destruct (tile cell0) as [t|]; [|discriminate].
    destruct (handleTileReturn_inv _ _ _ _ _ _ Hh)
      as [->|(cell1 & _ & Hcell1 & Hnot & ->)]; [done|].
    cbn [boardState]. rewrite cellAt_setCell_ne; [done|].
    intros [= -> ->]. congruence.
  - destruct (handleHint_inv _ _ _ _ Hh)
      as [->|(hintRow & hintCol & correctValue & target & found & cell1 & _ & Hpick
              & Hv & Htarget & Hfound & _ & ->)]; [done|].
    destruct (unsolvedCells_lookup _ _ _ _ Hpick) as (target' & Htarget' & Hnot).
    assert (target' = target) as -> by congruence.
    cbn [boardState]. rewrite cellAt_setCell_ne by (intros [= -> ->]; congruence).
    destruct found as [[r0 c0]|]; [|done].
    destruct (findOnBoard_Some _ _ _ _ Hfound) as (holder & Hholder & Hholds).
    destruct (hint_evicts_unsolved s hintRow hintCol target correctValue r0 c0 holder)
      as [Hunsolved _]; [done..|].
    rewrite cellAt_setCell_ne; [done|]. intros [= -> ->]. congruence.
  - by injection Hh as <- _.
  - unfold handleFinalCodeSubmit in Hh.
    by destruct (strictEq _ _); injection Hh as <- _.
  - by injection Hh as <- _.
Qed.

Lemma correct_cells_are_permanent_witness :
  cellAt (boardState twoHints) 0 0
  = Some (mkCell (Some (tileOf 1)) StCorrect true).
Proof.
  apply (correct_cells_are_permanent oneHint (EvHint 0) 0 0 twoHints [SndHint] 0 0
           (mkCell (Some (tileOf 1)) StCorrect true)).
  - apply reachable_oneHint.
  - reflexivity.
  - vm_compute. reflexivity.
  - vm_compute. reflexivity.
  - reflexivity.
Defined.

Lemma handleDrop_is_Some row col s :
  isGrid (boardState s) → isGrid (solution s) →
  row < GRID_SIZE → col < GRID_SIZE →
  is_Some (handleDrop row col s).
Proof.
  intros Hboard Hsol Hrow Hcol. unfold handleDrop.
  destruct (negb _); [by eexists|].
  destruct (draggedTile s) as [dragged|]; [|by eexists].
  destruct (cellAt_is_Some (boardState s) row col Hboard Hrow Hcol) as [target ->].
  cbn [mbind option_bind].
  destruct (isOccupied target); [by eexists|].
  destruct (bool_decide _); [by eexists|].
  destruct (isSequenceValid_cases (boardState s) row col (value dragged) Hboard Hrow Hcol)
    as [[-> _]|[-> _]]; cbn [mbind option_bind negb]; [|by eexists].
  destruct (lookup_lt_is_Some_2 (solution s) row) as [solutionRow ->];
    [destruct Hsol; lia|].
  cbn [mbind option_bind]. by eexists.
Qed.

Lemma handleTileReturn_is_Some t row col s :
  isGrid (boardState s) → is_Some (cellAt (boardState s) row col) →
  is_Some (handleTileReturn t row col s).
Proof.
  intros Hboard [cell Hcell]. unfold handleTileReturn.
  destruct (negb _); [by eexists|]. rewrite Hcell. cbn [mbind option_bind].
  destruct (isCorrect cell); [by eexists|].
  destruct (cellAt_lt _ _ _ _ Hboard Hcell) as [Hrow Hcol].
  destruct (hasDependentTile_cases (boardState s) row col Hboard Hrow Hcol)
    as [[-> _]|[-> _]]; by eexists.
Qed.

Lemma handleHint_is_Some pick s :
  isGrid (boardState s) → isGrid (solution s) →
  unsolvedCells (boardState s) = [] ∨ pick < length (unsolvedCells (boardState s)) →
  is_Some (handleHint pick s).
Proof.
  intros Hboard Hsol Hpick.
  destruct (decide (gamePhase s = placing)) as [Hp|Hnp].
  - destruct Hpick as [Hnil|Hlt].
    + unfold handleHint. rewrite (isUIInteractive_placing s Hp), Hnil. by eexists.
    + destruct (lookup_lt_is_Some_2 _ _ Hlt) as [[hintRow hintCol] Hlookup].
      destruct (handleHint_picked s pick hintRow hintCol Hp Hboard Hsol Hlookup)
        as (? & ? & ? & _ & _ & _ & _ & ->). by eexists.
  - unfold handleHint. rewrite (isUIInteractive_frozen s Hnp). by eexists.
Qed.

(** X9.  From a reachable state, every event the interface can send, with
    the arguments it sends it with, is handled: no handler and no effect
    reads a property of [undefined]. *)
Theorem deliverable_events_never_throw (s : State) (ev : Event)
    (randomRow randomCol : nat) :
  reachable s →
  deliverable ev s →
  randomRow < GRID_SIZE → randomCol < GRID_SIZE →
  ∃ s' sounds,
    step ev randomRow randomCol s = Some (s', sounds) ∧ reachable s'.
Proof.
  intros Hreach [Hen Hargs] Hr Hc.
  destruct (reachable_invariants s Hreach) as [Hinv _].
  pose proof Hinv as [Hboard Hsol _ _ _].
  assert (Hhandle : is_Some (handle ev s)).
  { destruct ev; cbn [handle enabled] in *.
    - unfold handleDragStart. destruct (isUIInteractive s); by eexists.
    - destruct Hen. by apply handleDrop_is_Some.
    - destruct Hargs as [t Ht]. unfold tileAt in Ht.
      destruct (cellAt (boardState s) row col) as [cell|] eqn:Hcell; [|discriminate].
      cbn [mbind option_bind] in *. rewrite Ht. cbn [mbind option_bind].
      apply handleTileReturn_is_Some; [done|]. by rewrite Hcell.
    - by apply handleHint_is_Some.
    - by eexists.
    - unfold handleFinalCodeSubmit. destruct (strictEq _ _); by eexists.
    - by eexists.
    - by eexists. }
  destruct Hhandle as [[s1 sounds1] Hh].
  pose proof (CountInv_handle ev s s1 sounds1 Hinv Hen Hh) as Hinv1.
  destruct (phaseEffect_is_Some randomRow randomCol s1 (inv_solution s1 Hinv1) Hr Hc)
    as [[s2 sounds2] He].
  assert (Hstep : step ev randomRow randomCol s = Some (s2, sounds1 ++ sounds2)).
  { unfold step. rewrite Hh. cbn [mbind option_bind]. rewrite He. done. }
  exists s2, (sounds1 ++ sounds2). split; [done|].
  exact (reachable_step s ev randomRow randomCol s2 (sounds1 ++ sounds2)
           Hreach Hen Hr Hc Hstep).
Qed.

Lemma deliverable_events_never_throw_witness :
  ∃ s' sounds,
    step (EvTileReturn 5 0) 0 0 handPlaced = Some (s', sounds) ∧ reachable s'.
Proof.
  apply (deliverable_events_never_throw handPlaced (EvTileReturn 5 0) 0 0).
  - apply reachable_handPlaced.
  - split; [exact I|]. vm_compute. by eexists.
  - unfold GRID_SIZE. lia.
  - unfold GRID_SIZE. lia.
Defined.

(** ** Edges of a drop, and undoing a placement *)

(** X10.  With nothing dragged a drop does nothing and plays nothing,
    whatever its coordinates; with a tile dragged in the placing phase, a drop
    outside the 9×9 board reads a property of [undefined]. *)
Theorem handleDrop_edges (s : State) (row col : nat) :
  (draggedTile s = None → handleDrop row col s = Some (s, []))
  ∧ (gamePhase s = placing → is_Some (draggedTile s) → isGrid (boardState s) →
     GRID_SIZE ≤ row ∨ GRID_SIZE ≤ col →
     handleDrop row col s = None).
Proof.
  split.
  - intros Hnone. unfold handleDrop. rewrite Hnone. by destruct (negb _).
  - intros Hp [dragged Hdrag] Hboard Hout. unfold handleDrop.
    rewrite (isUIInteractive_placing s Hp), Hdrag. cbn [negb].
    destruct (cellAt (boardState s) row col) as [cell|] eqn:Hcell; [|done].
    destruct (cellAt_lt _ _ _ _ Hboard Hcell). lia.
Qed.

Lemma handleDrop_edges_witness :
  handleDrop 0 0 twoMisplaced = Some (twoMisplaced, [])
  ∧ handleDrop 9 0 scenario1 = None.
Proof.
  split.
  - apply (proj1 (handleDrop_edges twoMisplaced 0 0)). reflexivity.
  - apply (proj2 (handleDrop_edges scenario1 9 0)).
    + reflexivity.
    + by eexists.
    + apply isGrid_initializeBoard.
    + left. unfold GRID_SIZE. lia.
Defined.

(** What an accepted drop makes of the state. *)
Lemma handleDrop_run s row col dragged target :
  gamePhase s = placing →
  draggedTile s = Some dragged →
  isGrid (boardState s) →
  isGrid (solution s) →
  cellAt (boardState s) row col = Some target →
  tile target = None →
  base dragged = (Z.of_nat col + 1)%Z →
  sequenceFits (boardState s) row col (value dragged) →
  let ok := bool_decide (solutionAt (solution s) row col = Some (value dragged)) in
  handleDrop row col s =
    Some ({| solution := solution s;
             boardState :=
               setCell (boardState s) row col
                 {| tile := Some dragged;
                    status := if ok then StCorrect else StIncorrect;
                    isHint := false |};
             paletteTiles := filter (λ t, value t ≠ value dragged) (paletteTiles s);
             draggedTile := None;
             correctTilesCount :=
               if ok then correctTilesCount s + 1 else correctTilesCount s;
             hintsUsed := hintsUsed s;
             gamePhase := gamePhase s;
             blinkingCell := blinkingCell s;
             finalCodeAnswer := finalCodeAnswer s;
             finalCodeInput := finalCodeInput s;
             challengeShake := challengeShake s |},
          [if ok then SndCorrect else SndIncorrect]).
Proof.
  intros Hphase Hdrag Hboard Hsol Htarget Hempty Hbase Hfits ok.
  destruct (cellAt_lt _ _ _ _ Hboard Htarget) as [Hrow Hcol].
  destruct (solutionAt_is_Some (solution s) row col Hsol Hrow Hcol) as [v Hv].
  unfold handleDrop.
  rewrite (isUIInteractive_placing s Hphase), Hdrag, Htarget.
  cbn [negb mbind option_bind]. unfold isOccupied. rewrite Hempty.
  rewrite (bool_decide_eq_false_2 (base dragged ≠ _)) by (intros Hne; by apply Hne).
  rewrite (isSequenceValid_fits _ _ _ _ Hboard Hrow Hcol Hfits).
  cbn [negb mbind option_bind].
  unfold solutionAt in Hv, ok.
  destruct (solution s !! row) as [solutionRow|] eqn:Hsrow; [|discriminate].
  cbn [mbind option_bind] in *. subst ok. rewrite Hv.
  assert (Hok : bool_decide (v = value dragged)
                = bool_decide (Some v = Some (value dragged))).
  { apply bool_decide_ext. split; [by intros ->|by intros [= ->]]. }
  by rewrite Hok.
Qed.

Lemma setCell_restore (b : Board) r c x old :
  cellAt b r c = Some old → setCell (setCell b r c x) r c old = b.
Proof.
  unfold cellAt, setCell. intros Hold. apply list_eq. intros i.
  rewrite !list_lookup_alter. destruct (decide (r = i)) as [->|]; [|done].
  destruct (b !! i) as [row|]; [|by destruct (decide (i = i))].
  cbn [fmap option_fmap option_map mbind option_bind] in *.
  destruct (decide (i = i)); [|done].
  cbn [fmap option_fmap option_map].
  by rewrite list_insert_insert_eq, list_insert_id.
Qed.

Lemma filter_singleton (P : TileData → Prop) `{!∀ t, Decision (P t)}
    (l : list TileData) (x : TileData) :
  length (filter P l) = 1 → x ∈ l → P x → filter P l = [x].
Proof.
  intros Hlen Hin HP.
  assert (Hx : x ∈ filter P l) by (by apply list_elem_of_filter).
  destruct (filter P l) as [|y [|z rest]]; try discriminate.
  by apply list_elem_of_singleton in Hx as ->.
Qed.

Lemma palette_restored (palette : list TileData) (dragged : TileData) :
  dragged ∈ palette →
  paletteCount (value dragged) palette = 1 →
  filter (λ t, value t ≠ value dragged) palette ++ [dragged] ≡ₚ palette.
Proof.
  intros Hin Hcount.
  rewrite <- (filter_app_complement (λ t, value t ≠ value dragged) palette) at 2.
  apply Permutation_app; [done|].
  assert (Hsame : filter (λ t, ¬ value t ≠ value dragged) palette
                  = filter (λ t, value t = value dragged) palette).
  { apply list_filter_iff. intros t. split; [apply dec_stable|by intros ? ?]. }
  rewrite Hsame. by rewrite (filter_singleton _ palette dragged Hcount Hin).
Qed.

(** X11.  A placement that turned out incorrect can be taken back at once
    when no tile sits below or to the right of it: the board is again what it
    was before the drop, the counters have not moved, nothing is dragged any
    more, and the palette holds the tiles it held, the returned tile now
    last.  (Stated for a target that is the initial empty cell, as every
    empty cell of a reachable state is.) *)
Theorem drop_then_return_restores (s : State) (row col : nat) (dragged : TileData) :
  gamePhase s = placing →
  draggedTile s = Some dragged →
  isGrid (boardState s) →
  isGrid (solution s) →
  cellAt (boardState s) row col = Some emptyCell →
  base dragged = (Z.of_nat col + 1)%Z →
  sequenceFits (boardState s) row col (value dragged) →
  solutionAt (solution s) row col ≠ Some (value dragged) →
  tileAt (boardState s) (row + 1) col = None →
  tileAt (boardState s) row (col + 1) = None →
  ∃ s1 s2,
    handleDrop row col s = Some (s1, [SndIncorrect])
    ∧ handle (EvTileReturn row col) s1 = Some (s2, [SndReturn])
    ∧ boardState s2 = boardState s
    ∧ correctTilesCount s2 = correctTilesCount s
    ∧ hintsUsed s2 = hintsUsed s
    ∧ gamePhase s2 = placing
    ∧ draggedTile s2 = None
    ∧ paletteTiles s2
      = filter (λ t, value t ≠ value dragged) (paletteTiles s) ++ [dragged]
    ∧ (dragged ∈ paletteTiles s →
       paletteCount (value dragged) (paletteTiles s) = 1 →
       paletteTiles s2 ≡ₚ paletteTiles s).
Proof.
  intros Hphase Hdrag Hboard Hsol Htarget Hbase Hfits Hwrong Hbelow Hright.
  destruct (cellAt_lt _ _ _ _ Hboard Htarget) as [Hrow Hcol].
  pose proof (handleDrop_run s row col dragged emptyCell Hphase Hdrag Hboard Hsol
                Htarget eq_refl Hbase Hfits) as Hdrop.
  cbv zeta in Hdrop. rewrite (bool_decide_eq_false_2 _ Hwrong) in Hdrop.
  set (placed := {| tile := Some dragged; status := StIncorrect; isHint := false |})
    in *.
  match type of Hdrop with _ = Some (?st, _) => set (s1 := st) in * end.
  assert (Hp1 : gamePhase s1 = placing) by exact Hphase.
  assert (Hplaced : cellAt (boardState s1) row col = Some placed)
    by exact (cellAt_setCell_eq _ _ _ placed emptyCell Htarget).
  assert (Hgrid1 : isGrid (boardState s1)) by (by apply isGrid_setCell).
  assert (Hdep : hasDependentTile (boardState s1) row col = Some false).
  { destruct (hasDependentTile_cases (boardState s1) row col Hgrid1 Hrow Hcol)
      as [[_ Hdep]|[Hnone _]]; [|done].
    exfalso. unfold tileAt in Hdep, Hbelow, Hright. cbn [s1 boardState] in Hdep.
    rewrite !cellAt_setCell_ne in Hdep by (intros [=]; lia).
    by destruct Hdep. }
  exists s1. eexists. split; [exact Hdrop|].
  cbn [handle]. rewrite Hplaced. cbn [mbind option_bind placed tile].
  unfold handleTileReturn.
  rewrite (isUIInteractive_placing s1 Hp1), Hplaced, Hdep.
  cbn [negb mbind option_bind]. change (isCorrect placed) with false. cbv iota.
  split; [reflexivity|].
  cbn [s1 boardState correctTilesCount hintsUsed gamePhase draggedTile paletteTiles].
  split; [by apply setCell_restore|]. repeat (split; [done|]).
  intros Hin Hcount. by apply palette_restored.
Qed.

Lemma drop_then_return_restores_witness :
  ∃ s1 s2,
    handleDrop 5 0 scenario1 = Some (s1, [SndIncorrect])
    ∧ handle (EvTileReturn 5 0) s1 = Some (s2, [SndReturn])
    ∧ boardState s2 = boardState scenario1
    ∧ correctTilesCount s2 = correctTilesCount scenario1
    ∧ hintsUsed s2 = hintsUsed scenario1
    ∧ gamePhase s2 = placing
    ∧ draggedTile s2 = None
    ∧ paletteTiles s2
      = filter (λ t, value t ≠ value (tileOf 1)) (paletteTiles scenario1) ++ [tileOf 1]
    ∧ (tileOf 1 ∈ paletteTiles scenario1 →
       paletteCount (value (tileOf 1)) (paletteTiles scenario1) = 1 →
       paletteTiles s2 ≡ₚ paletteTiles scenario1).
Proof.
  apply (drop_then_return_restores scenario1 5 0 (tileOf 1)).
  - reflexivity.
  - reflexivity.
  - apply isGrid_initializeBoard.
  - apply isGrid_canonicalSolution.
  - reflexivity.
  - reflexivity.
  - repeat split; intros t; try (intros Hpos; vm_compute in Hpos; lia);
      intros Ht; vm_compute in Ht; discriminate.
  - vm_compute. discriminate.
  - reflexivity.
  - reflexivity.
Defined.

(** ** Ownership at the start of a session and along it *)

Lemma paletteCount_tiles v (values : list Z) :
  NoDup values → v ∈ values → paletteCount v (tileOf <$> values) = 1.
Proof.
  induction 1 as [|x values Hnotin Hnd IH]; intros Hin; [by apply elem_of_nil in Hin|].
  rewrite fmap_cons, paletteCount_cons. cbn [tileOf value].
  apply elem_of_cons in Hin as [->|Hin].
  - rewrite bool_decide_eq_true_2 by done.
    assert (paletteCount x (tileOf <$> values) = 0) as ->; [|done].
    clear IH Hnd. induction values as [|y values IH]; [done|].
    rewrite fmap_cons, paletteCount_cons. cbn [tileOf value].
    rewrite not_elem_of_cons in Hnotin. destruct Hnotin as [Hne Hnotin].
    rewrite bool_decide_eq_false_2 by congruence. by rewrite IH.
  - rewrite bool_decide_eq_false_2 by (intros ->; done). by rewrite IH.
Qed.

(** X12.  A new game on generated data, from whatever state, starts a
    session in which every value of 1..81 is in the palette exactly once and
    on no board cell; the palette has 81 tiles, each with the base of its
    value; the board is empty and the counters are zero. *)
Theorem newGame_deals_every_tile_once (solutionGrid : list (list Z))
    (shuffledTiles : list TileData) (s : State) :
  generated solutionGrid shuffledTiles →
  let fresh := newGame solutionGrid shuffledTiles s in
  ownership fresh
  ∧ (∀ v, (1 ≤ v ≤ 81)%Z →
       paletteCount v (paletteTiles fresh) = 1 ∧ boardCount v (boardState fresh) = 0)
  ∧ length (paletteTiles fresh) = 81
  ∧ (∀ t, t ∈ paletteTiles fresh → base t = calculateBase (value t))
  ∧ (∀ r c cell, cellAt (boardState fresh) r c = Some cell → cell = emptyCell)
  ∧ correctTilesCount fresh = 0 ∧ hintsUsed fresh = 0 ∧ gamePhase fresh = placing.
Proof.
  intros (Hgrid & Hnodup & Hall & Hperm) fresh.
  assert (Hcounts : ∀ v, (1 ≤ v ≤ 81)%Z →
            paletteCount v (paletteTiles fresh) = 1
            ∧ boardCount v (boardState fresh) = 0).
  { intros v Hv. cbn [fresh newGame paletteTiles boardState]. split.
    - unfold paletteCount. rewrite Hperm. apply paletteCount_tiles; [done|].
      rewrite Forall_forall in Hall. apply Hall.
      apply list_elem_of_fmap. exists (Z.to_nat v). split; [lia|].
      apply elem_of_seq. lia.
    - unfold boardCount. by rewrite countCells_initializeBoard. }
  split; [intros v Hv; destruct (Hcounts v Hv) as [-> ->]; done|].
  split; [done|]. split; [|split; [|split]].
  - cbn [fresh newGame paletteTiles]. rewrite Hperm, length_fmap.
    by rewrite (length_concat_grid solutionGrid Hgrid).
  - cbn [fresh newGame paletteTiles]. intros t Ht. rewrite Hperm in Ht.
    apply list_elem_of_fmap in Ht as (v & -> & _). done.
  - cbn [fresh newGame boardState]. intros r c cell. apply cellAt_initializeBoard.
  - done.
Qed.

Lemma newGame_deals_every_tile_once_witness :
  let fresh := newGame canonicalSolution canonicalTiles wonState in
  ownership fresh
  ∧ (∀ v, (1 ≤ v ≤ 81)%Z →
       paletteCount v (paletteTiles fresh) = 1 ∧ boardCount v (boardState fresh) = 0)
  ∧ length (paletteTiles fresh) = 81
  ∧ (∀ t, t ∈ paletteTiles fresh → base t = calculateBase (value t))
  ∧ (∀ r c cell, cellAt (boardState fresh) r c = Some cell → cell = emptyCell)
  ∧ correctTilesCount fresh = 0 ∧ hintsUsed fresh = 0 ∧ gamePhase fresh = placing.
Proof.
  apply (newGame_deals_every_tile_once canonicalSolution canonicalTiles wonState).
  apply generated_canonical.
Defined.

(** X13.  In a reachable state that has the ownership property, a hint and
    the return of a cell's tile keep it, and so does a drop whenever the
    dragged tile, if there is one, is a tile of the palette. *)
Theorem ownership_kept_by_fresh_operations (s : State) :
  reachable s →
  ownership s →
  (∀ pick s' sounds, handleHint pick s = Some (s', sounds) → ownership s')
  ∧ (∀ row col s' sounds,
       handle (EvTileReturn row col) s = Some (s', sounds) → ownership s')
  ∧ (∀ row col s' sounds,
       (∀ dragged, draggedTile s = Some dragged → dragged ∈ paletteTiles s) →
       handleDrop row col s = Some (s', sounds) → ownership s').
Proof.
  intros Hreach Hown. destruct (reachable_invariants s Hreach) as [Hinv _].
  split; [|split].
  - intros pick s' sounds Hrun. by eapply ownership_handleHint.
  - intros row col s' sounds Hrun. cbn [handle] in Hrun.
    destruct (cellAt (boardState s) row col) as [cell|] eqn:Hcell; [|discriminate].
    cbn [mbind option_bind] in Hrun.
    destruct (tile cell) as [t|] eqn:Ht; [|discriminate].
    cbn [mbind option_bind] in Hrun. by eapply ownership_handleTileReturn.
  - intros row col s' sounds Hfresh Hrun. by eapply ownership_handleDrop.
Qed.

Lemma ownership_kept_by_fresh_operations_witness :
  (∀ pick s' sounds, handleHint pick canonicalStart = Some (s', sounds) → ownership s')
  ∧ (∀ row col s' sounds,
       handle (EvTileReturn row col) canonicalStart = Some (s', sounds) →
       ownership s')
  ∧ (∀ row col s' sounds,
       (∀ dragged, draggedTile canonicalStart = Some dragged →
          dragged ∈ paletteTiles canonicalStart) →
       handleDrop row col canonicalStart = Some (s', sounds) → ownership s').
Proof.
  apply (ownership_kept_by_fresh_operations canonicalStart).
  - apply reachable_canonicalStart.
  - apply ownership_canonicalStart.
Defined.

(** ** The code input and the effect that starts the final challenge *)

Lemma substring_first (text : string) :
  substring 0 1 text = EmptyString
  ∨ ∃ a, substring 0 1 text = String a EmptyString.
Proof.
  destruct text as [|a rest]; [by left|]. right. exists a.
  cbn [substring]. by destruct rest.
Qed.

Lemma parseInt_one_char (a : ascii) :
  parseInt (String a EmptyString) = None
  ∨ ∃ d, (0 ≤ d ≤ 9)%Z ∧ parseInt (String a EmptyString) = Some d.
Proof.
  destruct a as [[] [] [] [] [] [] [] []];
    match goal with
    | |- ?l = None ∨ _ => let v := eval vm_compute in l in change l with v
    end;
    first [by left | right; eexists; split; [|reflexivity]; lia].
Qed.

(** X14.  Whatever text arrives from the code input, the stored guess is at
    most one character, and it parses to nothing ([NaN]) or to a single
    digit 0..9: a sign or a second digit never reaches the comparison. *)
Theorem typed_guess_is_one_digit (text : string) (s : State) :
  ∃ typed,
    handleFinalCodeChange text s = Some (typed, [])
    ∧ String.length (finalCodeInput typed) ≤ 1
    ∧ (parseInt (finalCodeInput typed) = None
       ∨ ∃ d, (0 ≤ d ≤ 9)%Z ∧ parseInt (finalCodeInput typed) = Some d).
Proof.
  eexists. split; [reflexivity|]. cbn [finalCodeInput].
  destruct (substring_first text) as [->|[a ->]].
  - split; [cbn; lia|]. by left.
  - split; [cbn; lia|]. apply parseInt_one_char.
Qed.

(** X15.  A guess that is not the answer (a different digit, nothing that
    parses, or no answer set yet) is rejected, and after it a further submit
    finds the input empty and changes nothing more: the rejected state is a
    fixed point of submitting. *)
Theorem rejected_submit_is_idempotent (s : State) :
  strictEq (parseInt (finalCodeInput s)) (finalCodeAnswer s) = false →
  ∃ s',
    handleFinalCodeSubmit s = Some (s', [SndIncorrect])
    ∧ gamePhase s' = gamePhase s
    ∧ finalCodeInput s' = EmptyString
    ∧ challengeShake s' = true
    ∧ handleFinalCodeSubmit s' = Some (s', [SndIncorrect]).
Proof.
  intros Hwrong. unfold handleFinalCodeSubmit at 1. rewrite Hwrong.
  eexists. split; [reflexivity|]. cbn [gamePhase finalCodeInput challengeShake].
  repeat (split; [done|]). unfold handleFinalCodeSubmit. cbn [finalCodeInput].
  change (parseInt EmptyString) with (@None Z). cbn [strictEq]. reflexivity.
Qed.

Lemma rejected_submit_is_idempotent_witness :
  ∃ s',
    handleFinalCodeSubmit challengeState = Some (s', [SndIncorrect])
    ∧ gamePhase s' = gamePhase challengeState
    ∧ finalCodeInput s' = EmptyString
    ∧ challengeShake s' = true
    ∧ handleFinalCodeSubmit s' = Some (s', [SndIncorrect]).
Proof.
  apply (rejected_submit_is_idempotent challengeState). vm_compute. reflexivity.
Defined.

(** X16.  The effect that starts the final challenge fires at most once.
    It either fires (in the placing phase with a full counter: the 'win'
    sound, the phase becomes 'final_challenge') or does nothing; in the state
    it leaves, running it again with any random cell changes nothing and
    plays nothing; and it never touches board, palette, counters, dragged
    tile or solution. *)
Theorem phaseEffect_fires_once (s : State) (randomRow randomCol : nat)
    (s' : State) (sounds : list SoundType) :
  phaseEffect randomRow randomCol s = Some (s', sounds) →
  ((sounds = [SndWin]
    ∧ gamePhase s = placing
    ∧ correctTilesCount s = GRID_SIZE * GRID_SIZE
    ∧ gamePhase s' = final_challenge
    ∧ blinkingCell s' = Some (randomRow, randomCol))
   ∨ (sounds = [] ∧ s' = s
      ∧ (gamePhase s ≠ placing ∨ correctTilesCount s ≠ GRID_SIZE * GRID_SIZE)))
  ∧ (∀ randomRow' randomCol', phaseEffect randomRow' randomCol' s' = Some (s', []))
  ∧ boardState s' = boardState s
  ∧ paletteTiles s' = paletteTiles s
  ∧ correctTilesCount s' = correctTilesCount s
  ∧ hintsUsed s' = hintsUsed s
  ∧ draggedTile s' = draggedTile s
  ∧ solution s' = solution s.
Proof.
  unfold phaseEffect at 1. intros Hrun.
  destruct (bool_decide (gamePhase s = placing)
            && bool_decide (correctTilesCount s = GRID_SIZE * GRID_SIZE)
            && bool_decide (0 < correctTilesCount s)) eqn:Hfire.
  - destruct (solutionAt _ _ _) as [v|]; [|discriminate]. injection Hrun as <- <-.
    apply andb_prop in Hfire as [Hfire _]. apply andb_prop in Hfire as [Hp Hc].
    apply bool_decide_eq_true in Hp, Hc.
    split; [by left|]. split; [|done]. intros rr rc. by apply phaseEffect_frozen.
  - injection Hrun as <- <-. split.
    + right. split; [done|]. split; [done|].
      destruct (decide (gamePhase s = placing)) as [Hp|Hp]; [|by left]. right.
      intros Hc. rewrite (bool_decide_eq_true_2 _ Hp) in Hfire.
      rewrite (bool_decide_eq_true_2 _ Hc) in Hfire. cbn [andb] in Hfire.
      apply bool_decide_eq_false in Hfire. unfold GRID_SIZE in Hc. lia.
    + split; [|done]. intros rr rc. unfold phaseEffect. by rewrite Hfire.
Qed.

(** The render after the 81st hint: the effect fires and gives the state of
    the final challenge. *)
Lemma phaseEffect_fires_once_witness :
  (phaseEffect 0 0 lastHintHandled = Some (challengeState, [SndWin])
   ∧ gamePhase lastHintHandled = placing
   ∧ gamePhase challengeState = final_challenge)
  ∧ (([SndWin] = [SndWin]
      ∧ gamePhase lastHintHandled = placing
      ∧ correctTilesCount lastHintHandled = GRID_SIZE * GRID_SIZE
      ∧ gamePhase challengeState = final_challenge
      ∧ blinkingCell challengeState = Some (0, 0))
     ∨ ([SndWin] = [] ∧ challengeState = lastHintHandled
        ∧ (gamePhase lastHintHandled ≠ placing
           ∨ correctTilesCount lastHintHandled ≠ GRID_SIZE * GRID_SIZE)))
  ∧ (∀ randomRow' randomCol',
       phaseEffect randomRow' randomCol' challengeState = Some (challengeState, []))
  ∧ boardState challengeState = boardState lastHintHandled
  ∧ paletteTiles challengeState = paletteTiles lastHintHandled
  ∧ correctTilesCount challengeState = correctTilesCount lastHintHandled
  ∧ hintsUsed challengeState = hintsUsed lastHintHandled
  ∧ draggedTile challengeState = draggedTile lastHintHandled
  ∧ solution challengeState = solution lastHintHandled.
Proof.
  split; [by vm_compute|].
  apply (phaseEffect_fires_once lastHintHandled 0 0 challengeState [SndWin]).
  vm_compute. reflexivity.
Defined.

(** ** Persisted preferences and labels *)

(** X17.  The language survives a reload: what the effect stores is what the
    initialiser reads back, whatever else the storage holds; an empty or
    missing item gives 'fr'; and the initial language is never empty. *)
Theorem language_survives_reload (language : string) (storage : Storage) :
  language ≠ EmptyString →
  initialLanguage (persistLanguage language storage) = language
  ∧ initialLanguage (persistLanguage EmptyString storage) = "fr"%string
  ∧ initialLanguage ∅ = "fr"%string
  ∧ initialLanguage storage ≠ EmptyString.
Proof.
  intros Hne. unfold initialLanguage, persistLanguage, getItem, setItem.
  rewrite !lookup_insert_eq, lookup_empty.
  rewrite bool_decide_eq_false_2 by done. rewrite bool_decide_eq_true_2 by done.
  repeat split. destruct (storage !! _) as [saved|]; [|done].
  destruct (decide (saved = EmptyString)) as [->|Hs].
  - by rewrite bool_decide_eq_true_2.
  - by rewrite bool_decide_eq_false_2.
Qed.

Lemma language_survives_reload_witness :
  initialLanguage (persistLanguage "de" ∅) = "de"%string
  ∧ initialLanguage (persistLanguage EmptyString ∅) = "fr"%string
  ∧ initialLanguage ∅ = "fr"%string
  ∧ initialLanguage ∅ ≠ EmptyString.
Proof. apply (language_survives_reload "de" ∅). discriminate. Defined.

(** X18.  The mute switch survives a reload and is [false] when nothing is
    stored; language and mute are stored under different keys, so writing
    one never changes what is read back for the other. *)
Theorem muted_survives_reload (isMuted : bool) (language : string)
    (storage : Storage) :
  initialMuted (persistMuted isMuted storage) = Some isMuted
  ∧ initialMuted ∅ = Some false
  ∧ initialMuted (persistLanguage language storage) = initialMuted storage
  ∧ initialLanguage (persistMuted isMuted storage) = initialLanguage storage.
Proof.
  unfold initialMuted, initialLanguage, persistMuted, persistLanguage, getItem, setItem.
  rewrite !lookup_insert_eq, lookup_empty, !lookup_insert_ne by done.
  by destruct isMuted.
Qed.

(** X19.  Where the lookups of [t] stay within the tables, a label is never
    empty unless its key is: [t] gives the translation when the table of the
    language has a non-empty text for the key, and the key itself when the
    language has no table, the key is missing or its text is empty.  The
    lookups leave the tables exactly when the language, or the key in the
    language's table, is no own property and names a member every object
    inherits (such as [toString]); the source then yields that member, or
    what a lookup in it gives, and the model gives [None]. *)
Theorem translate_falls_back_to_key
    (translations : gmap string (gmap string string)) (language key : string) :
  (translate translations language key = None ↔
     (translations !! language = None ∧ isInherited language = true)
     ∨ (∃ table, translations !! language = Some table
                 ∧ table !! key = None ∧ isInherited key = true))
  ∧ (key ≠ EmptyString → translate translations language key ≠ Some EmptyString)
  ∧ (translations !! language = None → isInherited language = false →
     translate translations language key = Some key)
  ∧ (∀ table, translations !! language = Some table →
       (table !! key = None ∧ isInherited key = false)
       ∨ table !! key = Some EmptyString →
       translate translations language key = Some key)
  ∧ (∀ table text, translations !! language = Some table →
       table !! key = Some text → text ≠ EmptyString →
       translate translations language key = Some text).
Proof.
  unfold translate. split; [|split; [|split; [|split]]].
  - destruct (translations !! language) as [table|] eqn:Hlang.
    + destruct (table !! key) as [text|] eqn:Hkey.
      * split; [discriminate|]. intros [[Hno _]|(table' & Heq & Hnone & _)];
          [discriminate|]. injection Heq as <-. congruence.
      * destruct (isInherited key) eqn:Hin.
        -- split; [|done]. intros _. right. by exists table.
        -- split; [discriminate|].
           intros [[Hno _]|(table' & _ & _ & Hyes)]; discriminate.
    + destruct (isInherited language) eqn:Hin.
      * split; [|done]. intros _. by left.
      * split; [discriminate|].
        intros [[_ Hyes]|(table' & Hsome & _)]; discriminate.
  - intros Hkey. destruct (translations !! language) as [table|].
    + destruct (table !! key) as [text|].
      * destruct (decide (text = EmptyString)) as [->|Ht].
        -- rewrite bool_decide_eq_true_2 by done. congruence.
        -- rewrite bool_decide_eq_false_2 by done. congruence.
      * destruct (isInherited key); [discriminate|congruence].
    + destruct (isInherited language); [discriminate|congruence].
  - by intros -> ->.
  - intros table -> [[Hnone Hin]|Hempty].
    + by rewrite Hnone, Hin.
    + rewrite Hempty. by rewrite bool_decide_eq_true_2.
  - intros table text -> -> Hne. by rewrite bool_decide_eq_false_2.
Qed.

Lemma translate_falls_back_to_key_witness :
  translate {[ "fr"%string := {[ "title"%string := "Titre"%string ]} ]} "fr" "title"
  = Some "Titre"%string
  ∧ translate {[ "fr"%string := {[ "title"%string := "Titre"%string ]} ]} "en" "title"
    = Some "title"%string
  ∧ translate {[ "fr"%string := {[ "title"%string := "Titre"%string ]} ]}
      "fr" "toString"
    = None.
Proof.
  split; [|split].
  - apply (proj2 (proj2 (proj2 (proj2 (translate_falls_back_to_key
             {[ "fr"%string := {[ "title"%string := "Titre"%string ]} ]}
             "fr" "title")))) {[ "title"%string := "Titre"%string ]} "Titre"%string).
    + reflexivity.
    + reflexivity.
    + discriminate.
  - apply (proj1 (proj2 (proj2 (translate_falls_back_to_key
             {[ "fr"%string := {[ "title"%string := "Titre"%string ]} ]}
             "en" "title")))).
    + reflexivity.
    + reflexivity.
  - apply (proj2 (proj1 (translate_falls_back_to_key
             {[ "fr"%string := {[ "title"%string := "Titre"%string ]} ]}
             "fr" "toString"))).
    right. exists {[ "title"%string := "Titre"%string ]}.
    split; [reflexivity|]. split; reflexivity.
Defined.

(** ** The searches of [handleHint] *)

Lemma unsolvedInRow_bounds r c0 row r' c' :
  (r', c') ∈ unsolvedInRow r c0 row → r' = r ∧ c0 ≤ c'.
Proof.
  intros (-> & i & cell & -> & _)%elem_of_unsolvedInRow. split; [done|lia].
Qed.

Lemma NoDup_unsolvedInRow r c0 row : NoDup (unsolvedInRow r c0 row).
Proof.
  revert c0. induction row as [|cell row IH]; intros c0; cbn [unsolvedInRow];
    [constructor|].
  destruct (isCorrect cell); [apply IH|]. cbn [app].
  constructor; [|apply IH].
  intros [_ Hle]%unsolvedInRow_bounds. lia.
Qed.

Lemma unsolvedFrom_bounds r0 b r' c' : (r', c') ∈ unsolvedFrom r0 b → r0 ≤ r'.
Proof. intros (i & cell & -> & _)%elem_of_unsolvedFrom. lia. Qed.

Lemma NoDup_unsolvedFrom r0 b : NoDup (unsolvedFrom r0 b).
Proof.
  revert r0. induction b as [|row b IH]; intros r0; cbn [unsolvedFrom];
    [constructor|].
  apply NoDup_app. split; [apply NoDup_unsolvedInRow|]. split; [|apply IH].
  intros [r' c'] [-> _]%unsolvedInRow_bounds Hrest%unsolvedFrom_bounds. lia.
Qed.

(** X20.  The list [handleHint] draws from names every cell that is not
    'correct', and names it once: each unsolved cell is as likely as any
    other to be hinted, and a cell already correct is never drawn. *)
Theorem unsolvedCells_lists_each_once (b : Board) :
  NoDup (unsolvedCells b)
  ∧ (∀ r c, (r, c) ∈ unsolvedCells b
       ↔ ∃ cell, cellAt b r c = Some cell ∧ isCorrect cell = false)
  ∧ (∀ pick r c, unsolvedCells b !! pick = Some (r, c) →
       ∀ pick', unsolvedCells b !! pick' = Some (r, c) → pick' = pick).
Proof.
  assert (Hnodup : NoDup (unsolvedCells b)) by apply NoDup_unsolvedFrom.
  split; [exact Hnodup|]. split; [apply elem_of_unsolvedCells|].
  intros pick r c Hpick pick' Hpick'.
  exact (NoDup_lookup _ _ _ _ Hnodup Hpick' Hpick).
Qed.

Lemma findInRow_first row v c n j :
  findInRow row v c n = Some (Some j) →
  c ≤ j
  ∧ ∀ i cell, c ≤ i < j → row !! i = Some cell → holdsValue v cell = false.
Proof.
  revert c. induction n as [|n IH]; intros c; cbn [findInRow]; [discriminate|].
  destruct (row !! c) as [cell0|] eqn:Hc; [|discriminate]. cbn [mbind option_bind].
  destruct (holdsValue v cell0) eqn:Hv.
  - intros [= <-]. split; [lia|]. intros i cell Hi. lia.
  - intros Hrest. destruct (IH (S c) Hrest) as [Hle Hbefore]. split; [lia|].
    intros i cell Hi Hcell. destruct (decide (i = c)) as [->|Hne]; [congruence|].
    apply (Hbefore i cell); [lia|done].
Qed.

Lemma findFromRow_first b v r n r' c' :
  isGrid b →
  findFromRow b v r n = Some (Some (r', c')) →
  r ≤ r'
  ∧ ∀ i j cell, (r ≤ i < r' ∨ (i = r' ∧ j < c')) →
      cellAt b i j = Some cell → holdsValue v cell = false.
Proof.
  intros Hg. revert r. induction n as [|n IH]; intros r; cbn [findFromRow];
    [discriminate|].
  destruct (b !! r) as [row|] eqn:Hr; [|discriminate]. cbn [mbind option_bind].
  destruct (findInRow row v 0 GRID_SIZE) as [[c|]|] eqn:Hfind;
    cbn [mbind option_bind]; [| |discriminate].
  - intros [= <- <-]. split; [lia|]. intros i j cell [Hi|[-> Hj]]; [lia|].
    unfold cellAt. rewrite Hr. cbn [mbind option_bind]. intros Hcell.
    destruct (findInRow_first row v 0 GRID_SIZE c Hfind) as [_ Hbefore].
    apply (Hbefore j cell); [lia|done].
  - intros Hrest. destruct (IH (S r) Hrest) as [Hle Hbefore]. split; [lia|].
    intros i j cell Hij Hcell.
    destruct (decide (i = r)) as [->|Hne].
    + destruct (cellAt_lt b r j cell Hg Hcell) as [_ Hj].
      unfold cellAt in Hcell. rewrite Hr in Hcell. cbn [mbind option_bind] in Hcell.
      apply (findInRow_None row v 0 GRID_SIZE Hfind j cell); [lia|done].
    + apply (Hbefore i j cell); [lia|done].
Qed.

(** X21.  The search for the hinted value stops at the first cell, in
    row-major order, whose tile has that value: the cell found holds the
    value, and no cell before it does. *)
Theorem findOnBoard_finds_first (b : Board) (v : Z) (r c : nat) :
  isGrid b →
  findOnBoard b v = Some (Some (r, c)) →
  (∃ cell, cellAt b r c = Some cell ∧ holdsValue v cell = true)
  ∧ ∀ r' c' cell, r' < r ∨ (r' = r ∧ c' < c) →
      cellAt b r' c' = Some cell → holdsValue v cell = false.
Proof.
  intros Hg Hfind. split; [by apply findOnBoard_Some|].
  destruct (findFromRow_first b v 0 GRID_SIZE r c Hg Hfind) as [_ Hbefore].
  intros r' c' cell Hij. apply Hbefore. lia.
Qed.

Lemma findOnBoard_finds_first_witness :
  (∃ cell, cellAt (boardState handPlaced) 5 0 = Some cell
           ∧ holdsValue 2 cell = true)
  ∧ ∀ r' c' cell, r' < 5 ∨ (r' = 5 ∧ c' < 0) →
      cellAt (boardState handPlaced) r' c' = Some cell →
      holdsValue 2 cell = false.
Proof.
  apply (findOnBoard_finds_first (boardState handPlaced) 2 5 0).
  - apply (reachable_invariants handPlaced reachable_handPlaced).
  - vm_compute. reflexivity.
Defined.

(** ** The board once the placing phase is over *)

(** X22.  In every reachable state outside the placing phase the board is
    solved: each of the 81 cells is 'correct' and holds the solution's value
    of its place, no cell is left to hint, and no value sits on two cells. *)
Theorem board_is_solved_after_placing (s : State) :
  reachable s →
  gamePhase s ≠ placing →
  (∀ r c, r < GRID_SIZE → c < GRID_SIZE →
     ∃ cell t,
       cellAt (boardState s) r c = Some cell
       ∧ status cell = StCorrect
       ∧ tile cell = Some t
       ∧ solutionAt (solution s) r c = Some (value t))
  ∧ unsolvedCells (boardState s) = []
  ∧ (∀ r c r' c' t t',
       tileAt (boardState s) r c = Some t →
       tileAt (boardState s) r' c' = Some t' →
       value t = value t' → (r, c) = (r', c')).
Proof.
  intros Hreach Hp.
  destruct (reachable_invariants s Hreach) as [Hinv Hphase].
  destruct Hinv as [Hboard Hsol Hdist Hcons Hcount].
  destruct (inv_challenge s Hphase Hp) as [Hfull _].
  rewrite Hcount in Hfull.
  pose proof (countCells_full isCorrect (boardState s) Hboard Hfull) as Hall.
  assert (Hcorrect : ∀ r c cell, cellAt (boardState s) r c = Some cell →
            status cell = StCorrect).
  { intros r c cell Hcell. specialize (Hall r c cell Hcell).
    unfold isCorrect in Hall. by apply (bool_decide_eq_true_1 (status cell = StCorrect)). }
  assert (Hvalue : ∀ r c t, tileAt (boardState s) r c = Some t →
            solutionAt (solution s) r c = Some (value t)).
  { intros r c t Ht. unfold tileAt in Ht.
    destruct (cellAt (boardState s) r c) as [cell|] eqn:Hcell; [|discriminate].
    cbn [mbind option_bind] in Ht.
    destruct (proj1 (Hcons r c cell Hcell) (Hcorrect r c cell Hcell))
      as (t0 & Ht0 & Hs0).
    rewrite Ht in Ht0. by injection Ht0 as <-. }
  split; [|split].
  - intros r c Hr Hc.
    destruct (cellAt_is_Some (boardState s) r c Hboard Hr Hc) as [cell Hcell].
    pose proof (Hcorrect r c cell Hcell) as Hst.
    destruct (proj1 (Hcons r c cell Hcell) Hst) as (t & Ht & Hs).
    by exists cell, t.
  - by apply unsolvedCells_nil.
  - intros r c r' c' t t' Ht Ht' Heq.
    apply (Hdist r c r' c' (value t)); [by apply Hvalue|].
    rewrite Heq. by apply Hvalue.
Qed.

Lemma board_is_solved_after_placing_witness :
  (∀ r c, r < GRID_SIZE → c < GRID_SIZE →
     ∃ cell t,
       cellAt (boardState challengeState) r c = Some cell
       ∧ status cell = StCorrect
       ∧ tile cell = Some t
       ∧ solutionAt (solution challengeState) r c = Some (value t))
  ∧ unsolvedCells (boardState challengeState) = []
  ∧ (∀ r c r' c' t t',
       tileAt (boardState challengeState) r c = Some t →
       tileAt (boardState challengeState) r' c' = Some t' →
       value t = value t' → (r, c) = (r', c')).
Proof.
  apply (board_is_solved_after_placing challengeState).
  - apply reachable_challengeState.
  - rewrite final_challenge_phase. discriminate.
Defined.
